(** * Cyclone particle / rigid-body core: a shallow embedding

    The TypeScript sources ([particle.ts], [pcontacts.ts], [math_utils.ts],
    the rigid-body module, the force-generator module and the helpers of
    the demos) are embedded as Rocq functions.  Objects that are shared by reference (particles named
    by several contacts) live in an explicit store; methods that mutate
    [this] return the updated record; a call that raises a [TypeError]
    returns [Threw]; the resolver's [while] loop is driven by fuel.

    Numbers are JavaScript numbers idealised: a finite number is a real,
    next to the three exceptional values [+Infinity], [-Infinity] and [NaN].
    Rounding, overflow, the sign of zero and the single-precision storage
    of typed arrays are not modelled.  A property that is proved by real
    arithmetic therefore holds in exact arithmetic, and says so; what the
    code does with [undefined], [NaN], an empty slot or an index past the
    end does not depend on rounding. *)

From Stdlib Require Import Reals Lra List Bool Arith Lia ZArith.
Import ListNotations.

Local Open Scope R_scope.

(* ================================================================= *)
(** ** JavaScript numbers *)

Module Num.

Inductive num : Type :=
| Fin (r : R)
| PInf
| NInf
| NaN.

Definition inf (positive : bool) : num := if positive then PInf else NInf.

Definition neg (a : num) : num :=
  match a with
  | Fin r => Fin (- r)
  | PInf => NInf
  | NInf => PInf
  | NaN => NaN
  end.

Definition add (a b : num) : num :=
  match a, b with
  | Fin x, Fin y => Fin (x + y)
  | NaN, _ | _, NaN => NaN
  | PInf, NInf | NInf, PInf => NaN
  | PInf, _ | _, PInf => PInf
  | NInf, _ | _, NInf => NInf
  end.

Definition sub (a b : num) : num := add a (neg b).

(** An infinity times a finite number: [NaN] at zero, else by sign. *)
Definition mul_inf (positive : bool) (r : R) : num :=
  if Req_dec_T r 0 then NaN
  else if Rlt_dec 0 r then inf positive else inf (negb positive).

Definition mul (a b : num) : num :=
  match a, b with
  | Fin x, Fin y => Fin (x * y)
  | NaN, _ | _, NaN => NaN
  | PInf, Fin y => mul_inf true y
  | NInf, Fin y => mul_inf false y
  | Fin x, PInf => mul_inf true x
  | Fin x, NInf => mul_inf false x
  | PInf, PInf | NInf, NInf => PInf
  | PInf, NInf | NInf, PInf => NInf
  end.

Definition div (a b : num) : num :=
  match a, b with
  | Fin x, Fin y =>
      if Req_dec_T y 0 then
        (if Req_dec_T x 0 then NaN else if Rlt_dec 0 x then PInf else NInf)
      else Fin (x / y)
  | NaN, _ | _, NaN => NaN
  | Fin _, PInf | Fin _, NInf => Fin 0
  | PInf, Fin y => if Rlt_dec y 0 then NInf else PInf
  | NInf, Fin y => if Rlt_dec y 0 then PInf else NInf
  | PInf, PInf | PInf, NInf | NInf, PInf | NInf, NInf => NaN
  end.

(** [a < b]; every comparison with [NaN] is false. *)
Definition ltb (a b : num) : bool :=
  match a, b with
  | Fin x, Fin y => if Rlt_dec x y then true else false
  | NaN, _ | _, NaN => false
  | _, NInf => false
  | NInf, _ => true
  | PInf, _ => false
  | Fin _, PInf => true
  end.

(** [a <= b]. *)
Definition leb (a b : num) : bool :=
  match a, b with
  | Fin x, Fin y => if Rle_dec x y then true else false
  | NaN, _ | _, NaN => false
  | NInf, _ => true
  | _, PInf => true
  | _, NInf => false
  | PInf, _ => false
  end.

Definition gtb (a b : num) : bool := ltb b a.
Definition geb (a b : num) : bool := leb b a.

(** [a == b] and [a === b] on two numbers. *)
Definition eqb (a b : num) : bool :=
  match a, b with
  | Fin x, Fin y => if Req_dec_T x y then true else false
  | PInf, PInf | NInf, NInf => true
  | _, _ => false
  end.

(** [Math.sqrt]. *)
Definition Math_sqrt (a : num) : num :=
  match a with
  | Fin x => if Rlt_dec x 0 then NaN else Fin (sqrt x)
  | PInf => PInf
  | NInf | NaN => NaN
  end.

Definition Math_cos (a : num) : num :=
  match a with Fin x => Fin (cos x) | _ => NaN end.

Definition Math_sin (a : num) : num :=
  match a with Fin x => Fin (sin x) | _ => NaN end.

Definition Math_exp (a : num) : num :=
  match a with
  | Fin x => Fin (exp x)
  | PInf => PInf
  | NInf => Fin 0
  | NaN => NaN
  end.

(** Is the real an integer, and if so is it odd. *)
Definition is_integer (e : R) : bool :=
  if Req_dec_T (frac_part e) 0 then true else false.

Definition is_odd_integer (e : R) : bool :=
  is_integer e && Z.odd (Int_part e).

(** [Math.pow base exponent], case by case as the language defines it. *)
Definition Math_pow (base exponent : num) : num :=
  match exponent with
  | NaN => NaN
  | Fin e =>
      if Req_dec_T e 0 then Fin 1
      else
        match base with
        | NaN => NaN
        | PInf => if Rlt_dec 0 e then PInf else Fin 0
        | NInf =>
            if Rlt_dec 0 e
            then (if is_odd_integer e then NInf else PInf)
            else Fin 0
        | Fin b =>
            if Rlt_dec 0 b then Fin (Rpower b e)
            else if Req_dec_T b 0 then (if Rlt_dec 0 e then Fin 0 else PInf)
            else if is_integer e then Fin (powerRZ b (Int_part e))
            else NaN
        end
  | PInf =>
      match base with
      | NaN => NaN
      | PInf | NInf => PInf
      | Fin b =>
          if Rlt_dec 1 (Rabs b) then PInf
          else if Req_dec_T (Rabs b) 1 then NaN else Fin 0
      end
  | NInf =>
      match base with
      | NaN => NaN
      | PInf | NInf => Fin 0
      | Fin b =>
          if Rlt_dec 1 (Rabs b) then Fin 0
          else if Req_dec_T (Rabs b) 1 then NaN else PInf
      end
  end.

(** A value read where a number is expected: [undefined] converts to
    [NaN] in arithmetic and in comparisons. *)
Definition toNumber (v : option num) : num :=
  match v with Some n => n | None => NaN end.

Definition is_finite (a : num) : Prop := exists r, a = Fin r.

End Num.
Import Num.

Declare Scope num_scope.
Delimit Scope num_scope with num.
Infix "+" := add : num_scope.
Infix "-" := sub : num_scope.
Infix "*" := mul : num_scope.
Infix "/" := div : num_scope.
Notation "- x" := (neg x) : num_scope.
Infix "<?" := ltb : num_scope.
Infix "<=?" := leb : num_scope.
Infix ">?" := gtb : num_scope.
Infix ">=?" := geb : num_scope.
Infix "=?" := eqb : num_scope.

(** Outcome of a call: a normal return, a raised [TypeError], or a loop
    that used up the fuel it was given. *)
Inductive outcome (A : Type) : Type :=
| Returned (a : A)
| Threw
| OutOfFuel.
Arguments Returned {A} a.
Arguments Threw {A}.
Arguments OutOfFuel {A}.

Definition obind {A B} (o : outcome A) (k : A -> outcome B) : outcome B :=
  match o with
  | Returned a => k a
  | Threw => Threw
  | OutOfFuel => OutOfFuel
  end.

Notation "'do' x <- c1 ; c2" := (obind c1 (fun x => c2))
  (at level 60, x pattern, c1 at next level, right associativity).

(* ================================================================= *)
(** ** Vectors *)

(** Modelled from the spec: the module [./vector] that the sources import
    [vec3] from is not among them.  The spec names it an external math
    collaborator providing add / scale / dot and the like; the operations
    below are the component-wise ones of that name, with the output
    argument of the JavaScript call returned as the result. *)
Module vec3.

Record t : Type := mk { x : num; y : num; z : num }.

Definition create : t := mk (Fin 0) (Fin 0) (Fin 0).
Definition fromValues (a b c : num) : t := mk a b c.
Definition clone (a : t) : t := a.
Definition copy (a : t) : t := a.
Definition zero : t := mk (Fin 0) (Fin 0) (Fin 0).

Definition add (a b : t) : t :=
  mk (x a + x b)%num (y a + y b)%num (z a + z b)%num.

Definition sub (a b : t) : t :=
  mk (x a - x b)%num (y a - y b)%num (z a - z b)%num.

Definition scale (a : t) (s : num) : t :=
  mk (x a * s)%num (y a * s)%num (z a * s)%num.

(** [scaleAndAdd out a b s]: [out = a + b * s]. *)
Definition scaleAndAdd (a b : t) (s : num) : t :=
  mk (x a + x b * s)%num (y a + y b * s)%num (z a + z b * s)%num.

Definition dot (a b : t) : num :=
  (x a * x b + y a * y b + z a * z b)%num.

(** A vector of three real components. *)
Definition fin (a b c : R) : t := mk (Fin a) (Fin b) (Fin c).

End vec3.

(* ================================================================= *)
(** ** Particle ([particle.ts]) *)

Module Particle.

Record t : Type := mk {
  inverseMass : num;
  damping : num;
  position : vec3.t;
  velocity : vec3.t;
  forceAccum : vec3.t;
  acceleration : vec3.t
}.

(** The field initialisers of the class. *)
Definition new : t :=
  mk (Fin 0) (Fin 0) vec3.create vec3.create vec3.create vec3.create.

Definition set_position (p : t) (v : vec3.t) : t :=
  mk (inverseMass p) (damping p) v (velocity p) (forceAccum p) (acceleration p).
Definition set_velocity (p : t) (v : vec3.t) : t :=
  mk (inverseMass p) (damping p) (position p) v (forceAccum p) (acceleration p).
Definition set_forceAccum (p : t) (v : vec3.t) : t :=
  mk (inverseMass p) (damping p) (position p) (velocity p) v (acceleration p).
Definition set_acceleration (p : t) (v : vec3.t) : t :=
  mk (inverseMass p) (damping p) (position p) (velocity p) (forceAccum p) v.
Definition set_inverseMass (p : t) (m : num) : t :=
  mk m (damping p) (position p) (velocity p) (forceAccum p) (acceleration p).
Definition set_damping (p : t) (d : num) : t :=
  mk (inverseMass p) d (position p) (velocity p) (forceAccum p) (acceleration p).

Definition clearAccumulator (p : t) : t :=
  set_forceAccum p (vec3.mk (Fin 0) (Fin 0) (Fin 0)).

(** [integrate]: the [assert] imported from [console] only logs, so the
    body runs for every duration.  [resultingAcc] is bound to the object
    held in [this.acceleration], not to a copy of it: the in-place
    [scaleAndAdd] on [resultingAcc] is a write to the field. *)
Definition integrate (p : t) (duration : num) : t :=
  let p1 := set_position p (vec3.scaleAndAdd (position p) (velocity p) duration) in
  let p2 := set_acceleration p1
              (vec3.scaleAndAdd (acceleration p1) (forceAccum p1) (inverseMass p1)) in
  let resultingAcc := acceleration p2 in
  let p3 := set_velocity p2 (vec3.scaleAndAdd (velocity p2) resultingAcc duration) in
  let p4 := set_velocity p3 (vec3.scale (velocity p3) (Math_pow (damping p3) duration)) in
  clearAccumulator p4.

(** [setMass]: the [assert] only logs. *)
Definition setMass (p : t) (mass : num) : t :=
  set_inverseMass p (Fin 1 / mass)%num.

Definition getMass (p : t) : num :=
  if (inverseMass p =? Fin 0)%num then PInf else (Fin 1 / inverseMass p)%num.

Definition setInverseMass (p : t) (m : num) : t := set_inverseMass p m.
Definition getInverseMass (p : t) : num := inverseMass p.

Definition hasFiniteMass (p : t) : bool := (inverseMass p >=? Fin 0)%num.

Definition setDamping (p : t) (d : num) : t := set_damping p d.
Definition getDamping (p : t) : num := damping p.

(** The setters are used by the core in their one-argument form, which
    copies the given vector into the field. *)
Definition setPosition (p : t) (v : vec3.t) : t := set_position p (vec3.copy v).
Definition getPosition (p : t) : vec3.t := position p.
Definition setVelocity (p : t) (v : vec3.t) : t := set_velocity p (vec3.copy v).
Definition getVelocity (p : t) : vec3.t := velocity p.
Definition setAcceleration (p : t) (v : vec3.t) : t := set_acceleration p (vec3.copy v).
Definition getAcceleration (p : t) : vec3.t := acceleration p.

Definition addForce (p : t) (force : vec3.t) : t :=
  set_forceAccum p (vec3.add (forceAccum p) force).

End Particle.

(* ================================================================= *)
(** ** Particle contacts and their resolver ([pcontacts.ts]) *)

(** Particles are objects shared by reference: a contact holds references,
    and the store maps each reference to the particle's current state. *)
Definition ref : Type := nat.
Definition store : Type := ref -> Particle.t.

Definition upd (h : store) (r : ref) (p : Particle.t) : store :=
  fun r' => if Nat.eqb r' r then p else h r'.

(** [a == b] where [a] is a particle and [b] a slot that may be empty. *)
Definition same_particle (a : ref) (b : option ref) : bool :=
  match b with
  | Some r => Nat.eqb a r
  | None => false
  end.

Module ParticleContact.

(** [particles] and [particleMovement] are arrays of which only the
    indices 0 and 1 are used; an empty option is an index that holds
    nothing.  [particles[0]] is always read without a test. *)
Record t : Type := mk {
  particles0 : ref;
  particles1 : option ref;
  restitution : num;
  contactNormal : vec3.t;
  penetration : num;
  particleMovement0 : option vec3.t;
  particleMovement1 : option vec3.t
}.

Definition set_penetration (c : t) (pen : num) : t :=
  mk (particles0 c) (particles1 c) (restitution c) (contactNormal c) pen
     (particleMovement0 c) (particleMovement1 c).
Definition set_particleMovement0 (c : t) (m : option vec3.t) : t :=
  mk (particles0 c) (particles1 c) (restitution c) (contactNormal c)
     (penetration c) m (particleMovement1 c).
Definition set_particleMovement1 (c : t) (m : option vec3.t) : t :=
  mk (particles0 c) (particles1 c) (restitution c) (contactNormal c)
     (penetration c) (particleMovement0 c) m.

Definition calculateSeparatingVelocity (c : t) (h : store) : num :=
  let relativeVelocity := vec3.clone (Particle.getVelocity (h (particles0 c))) in
  let relativeVelocity :=
    match particles1 c with
    | Some q => vec3.sub relativeVelocity (Particle.getVelocity (h q))
    | None => relativeVelocity
    end in
  vec3.dot relativeVelocity (contactNormal c).

Definition totalInverseMass (c : t) (h : store) : num :=
  let total := Particle.getInverseMass (h (particles0 c)) in
  match particles1 c with
  | Some q => (total + Particle.getInverseMass (h q))%num
  | None => total
  end.

Definition resolveVelocity (c : t) (duration : num) (h : store) : store :=
  let separatingVelocity := calculateSeparatingVelocity c h in
  if (separatingVelocity >? Fin 0)%num then h
  else
    let newSepVelocity := (- separatingVelocity * restitution c)%num in
    let accCausedVelocity := vec3.clone (Particle.getAcceleration (h (particles0 c))) in
    let accCausedVelocity :=
      match particles1 c with
      | Some q => vec3.sub accCausedVelocity (Particle.getAcceleration (h q))
      | None => accCausedVelocity
      end in
    let accCausedSepVelocity :=
      (vec3.dot accCausedVelocity (contactNormal c) * duration)%num in
    let newSepVelocity :=
      if (accCausedSepVelocity <? Fin 0)%num then
        let reduced := (newSepVelocity + restitution c * accCausedSepVelocity)%num in
        if (reduced <? Fin 0)%num then Fin 0 else reduced
      else newSepVelocity in
    let deltaVelocity := (newSepVelocity - separatingVelocity)%num in
    let total := totalInverseMass c h in
    if (total <=? Fin 0)%num then h
    else
      let impulse := (deltaVelocity / total)%num in
      let impulsePerIMass := vec3.scale (contactNormal c) impulse in
      let p0 := h (particles0 c) in
      let newVelocity :=
        vec3.scaleAndAdd (Particle.getVelocity p0) impulsePerIMass
                         (Particle.getInverseMass p0) in
      let h1 := upd h (particles0 c) (Particle.setVelocity p0 newVelocity) in
      match particles1 c with
      | Some q =>
          let p1 := h1 q in
          let newVelocity :=
            vec3.scaleAndAdd (Particle.getVelocity p1) impulsePerIMass
                             (- Particle.getInverseMass p1)%num in
          upd h1 q (Particle.setVelocity p1 newVelocity)
      | None => h1
      end.

(** [vec3.zero(this.particleMovement[1])] writes into the vector the slot
    already holds and raises when the slot holds none. *)
Definition resolveInterpenetration (c : t) (duration : num) (h : store)
  : outcome (store * t) :=
  if (penetration c <=? Fin 0)%num then Returned (h, c)
  else
    let total := totalInverseMass c h in
    if (total <=? Fin 0)%num then Returned (h, c)
    else
      let movePerIMass := vec3.scale (contactNormal c) (penetration c / total)%num in
      let move0 := vec3.scale movePerIMass (Particle.getInverseMass (h (particles0 c))) in
      let c1 := set_particleMovement0 c (Some move0) in
      do moved1 <-
         match particles1 c1 with
         | Some q =>
             let move1 := vec3.scale movePerIMass (- Particle.getInverseMass (h q))%num in
             Returned (set_particleMovement1 c1 (Some move1), move1)
         | None =>
             match particleMovement1 c1 with
             | Some _ => Returned (set_particleMovement1 c1 (Some vec3.zero), vec3.zero)
             | None => Threw
             end
         end;
      let '(c2, move1) := moved1 in
      let p0 := h (particles0 c2) in
      let h1 := upd h (particles0 c2)
                    (Particle.setPosition p0 (vec3.add (Particle.getPosition p0) move0)) in
      let h2 :=
        match particles1 c2 with
        | Some q =>
            let p1 := h1 q in
            upd h1 q (Particle.setPosition p1 (vec3.add (Particle.getPosition p1) move1))
        | None => h1
        end in
      Returned (h2, c2).

Definition resolve (c : t) (duration : num) (h : store) : outcome (store * t) :=
  resolveInterpenetration c duration (resolveVelocity c duration h).

End ParticleContact.

Module ParticleContactResolver.

Import ParticleContact.

(** Both fields are declared without an initialiser. *)
Record t : Type := mk {
  iterations : option num;
  iterationsUsed : option num
}.

(** The constructor's body is empty: its argument is dropped. *)
Definition constructor (iterations : option num) : t := mk None None.

Definition set_iterations (r : t) (n : option num) : t := mk n (iterationsUsed r).

(** The search loop: [i] runs while [i < numContacts && i < length]. *)
Fixpoint scan (cs : list ParticleContact.t) (i numContacts : nat) (h : store)
              (max : num) (maxIndex : nat) : nat :=
  match cs with
  | [] => maxIndex
  | c :: rest =>
      if Nat.ltb i numContacts then
        let sepVel := calculateSeparatingVelocity c h in
        if (sepVel <? max)%num && ((sepVel <? Fin 0)%num || (penetration c >? Fin 0)%num)
        then scan rest (S i) numContacts h sepVel i
        else scan rest (S i) numContacts h max maxIndex
      else maxIndex
  end.

(** [vec3.dot(move[k], normal)]: raises when [move[k]] holds nothing. *)
Definition dot_move (m : option vec3.t) (n : vec3.t) : outcome num :=
  match m with
  | Some v => Returned (vec3.dot v n)
  | None => Threw
  end.

Definition decrease (c : ParticleContact.t) (m : option vec3.t) : outcome ParticleContact.t :=
  do d <- dot_move m (contactNormal c);
  Returned (set_penetration c (penetration c - d)%num).

Definition increase (c : ParticleContact.t) (m : option vec3.t) : outcome ParticleContact.t :=
  do d <- dot_move m (contactNormal c);
  Returned (set_penetration c (penetration c + d)%num).

(** The body of the update loop for one contact [c], [resolved] being
    [contactArray[maxIndex]]: the three [if] statements in source order. *)
Definition update_one (resolved c : ParticleContact.t) : outcome ParticleContact.t :=
  let move0 := particleMovement0 resolved in
  let move1 := particleMovement1 resolved in
  do c1 <-
     (if Nat.eqb (particles0 c) (particles0 resolved) then decrease c move0
      else if same_particle (particles0 c) (particles1 resolved) then decrease c move1
      else Returned c);
  match particles1 c1 with
  | None => Returned c1
  | Some q =>
      do c2 <-
         (if Nat.eqb q (particles0 resolved) then decrease c1 move0
          else if same_particle (particles0 c1) (particles1 resolved) then decrease c1 move1
          else Returned c1);
      if Nat.eqb q (particles0 resolved) then increase c2 move0
      else if same_particle q (particles1 resolved) then increase c2 move1
      else Returned c2
  end.

(** The update loop over the indices below [numContacts]; an index past
    the end of the array reads [undefined], whose field access raises. *)
Fixpoint update_loop (resolved : ParticleContact.t) (cs : list ParticleContact.t)
                     (remaining : nat) : outcome (list ParticleContact.t) :=
  match remaining with
  | O => Returned cs
  | S k =>
      match cs with
      | [] => Threw
      | c :: rest =>
          do c' <- update_one resolved c;
          do rest' <- update_loop resolved rest k;
          Returned (c' :: rest')
      end
  end.

Fixpoint replace_nth (i : nat) (c : ParticleContact.t) (cs : list ParticleContact.t)
  : list ParticleContact.t :=
  match cs, i with
  | [], _ => []
  | _ :: rest, O => c :: rest
  | c0 :: rest, S j => c0 :: replace_nth j c rest
  end.

(** The [while] loop; [used] is [iterationsUsed]. *)
Fixpoint iterate (fuel : nat) (limit : num) (numContacts : nat) (duration : num)
                 (used : nat) (h : store) (cs : list ParticleContact.t)
  : outcome (nat * store * list ParticleContact.t) :=
  if negb (Fin (INR used) <? limit)%num then Returned (used, h, cs)
  else
    match fuel with
    | O => OutOfFuel
    | S fuel' =>
        let maxIndex := scan cs 0 numContacts h PInf numContacts in
        if Nat.eqb maxIndex numContacts then Returned (used, h, cs)
        else
          match nth_error cs maxIndex with
          | None => Threw
          | Some cm =>
              do resolved <- resolve cm duration h;
              let '(h1, cm1) := resolved in
              let cs1 := replace_nth maxIndex cm1 cs in
              do cs2 <- update_loop cm1 cs1 numContacts;
              iterate fuel' limit numContacts duration (S used) h1 cs2
          end
    end.

Definition resolveContacts (r : t) (contactArray : list ParticleContact.t)
           (numContacts : nat) (duration : num) (h : store) (fuel : nat)
  : outcome (t * store * list ParticleContact.t) :=
  do final <- iterate fuel (toNumber (iterations r)) numContacts duration 0 h contactArray;
  let '(used, h', cs') := final in
  Returned (mk (iterations r) (Some (Fin (INR used))), h', cs').

End ParticleContactResolver.

(* ================================================================= *)
(** ** Quaternions and matrices (gl-matrix) and [math_utils.ts] *)

(** The functions of the gl-matrix package that the rigid body calls, as
    that package defines them.  A matrix is a typed array: reading an
    index past its end gives [undefined], which is [NaN] in arithmetic. *)
Module quat.

Record t : Type := mk { x : num; y : num; z : num; w : num }.

Definition create : t := mk (Fin 0) (Fin 0) (Fin 0) (Fin 1).
Definition fromValues (a b c d : num) : t := mk a b c d.

Definition mul (a b : t) : t :=
  mk (x a * w b + w a * x b + y a * z b - z a * y b)%num
     (y a * w b + w a * y b + z a * x b - x a * z b)%num
     (z a * w b + w a * z b + x a * y b - y a * x b)%num
     (w a * w b - x a * x b - y a * y b - z a * z b)%num.

Definition squaredLength (a : t) : num :=
  (x a * x a + y a * y a + z a * z a + w a * w a)%num.

Definition normalize (a : t) : t :=
  let len := squaredLength a in
  let len := if (len >? Fin 0)%num then (Fin 1 / Math_sqrt len)%num else len in
  mk (x a * len)%num (y a * len)%num (z a * len)%num (w a * len)%num.

Definition length (a : t) : num := Math_sqrt (squaredLength a).

End quat.

Module mat3.

Record t : Type := mk {
  m0 : num; m1 : num; m2 : num;
  m3 : num; m4 : num; m5 : num;
  m6 : num; m7 : num; m8 : num
}.

Definition create : t :=
  mk (Fin 1) (Fin 0) (Fin 0) (Fin 0) (Fin 1) (Fin 0) (Fin 0) (Fin 0) (Fin 1).

(** [m[i]]. *)
Definition at_ (m : t) (i : nat) : num :=
  match i with
  | 0%nat => m0 m | 1%nat => m1 m | 2%nat => m2 m
  | 3%nat => m3 m | 4%nat => m4 m | 5%nat => m5 m
  | 6%nat => m6 m | 7%nat => m7 m | 8%nat => m8 m
  | _ => NaN
  end.

Arguments at_ m i%_nat.

End mat3.

Module mat4.

Record t : Type := mk {
  m0 : num; m1 : num; m2 : num; m3 : num;
  m4 : num; m5 : num; m6 : num; m7 : num;
  m8 : num; m9 : num; m10 : num; m11 : num;
  m12 : num; m13 : num; m14 : num; m15 : num
}.

Definition create : t :=
  mk (Fin 1) (Fin 0) (Fin 0) (Fin 0)
     (Fin 0) (Fin 1) (Fin 0) (Fin 0)
     (Fin 0) (Fin 0) (Fin 1) (Fin 0)
     (Fin 0) (Fin 0) (Fin 0) (Fin 1).

Definition at_ (m : t) (i : nat) : num :=
  match i with
  | 0%nat => m0 m | 1%nat => m1 m | 2%nat => m2 m | 3%nat => m3 m
  | 4%nat => m4 m | 5%nat => m5 m | 6%nat => m6 m | 7%nat => m7 m
  | 8%nat => m8 m | 9%nat => m9 m | 10%nat => m10 m | 11%nat => m11 m
  | 12%nat => m12 m | 13%nat => m13 m | 14%nat => m14 m | 15%nat => m15 m
  | _ => NaN
  end.

Arguments at_ m i%_nat.

Definition fromRotationTranslation (q : quat.t) (v : vec3.t) : t :=
  let x := quat.x q in let y := quat.y q in
  let z := quat.z q in let w := quat.w q in
  let x2 := (x + x)%num in let y2 := (y + y)%num in let z2 := (z + z)%num in
  let xx := (x * x2)%num in let xy := (x * y2)%num in let xz := (x * z2)%num in
  let yy := (y * y2)%num in let yz := (y * z2)%num in let zz := (z * z2)%num in
  let wx := (w * x2)%num in let wy := (w * y2)%num in let wz := (w * z2)%num in
  mk (Fin 1 - (yy + zz))%num (xy + wz)%num (xz - wy)%num (Fin 0)
     (xy - wz)%num (Fin 1 - (xx + zz))%num (yz + wx)%num (Fin 0)
     (xz + wy)%num (yz - wx)%num (Fin 1 - (xx + yy))%num (Fin 0)
     (vec3.x v) (vec3.y v) (vec3.z v) (Fin 1).

End mat4.

(** [vec3.transformMat3 out a m]. *)
Definition vec3_transformMat3 (a : vec3.t) (m : mat3.t) : vec3.t :=
  let x := vec3.x a in let y := vec3.y a in let z := vec3.z a in
  vec3.mk (x * mat3.at_ m 0 + y * mat3.at_ m 3 + z * mat3.at_ m 6)%num
          (x * mat3.at_ m 1 + y * mat3.at_ m 4 + z * mat3.at_ m 7)%num
          (x * mat3.at_ m 2 + y * mat3.at_ m 5 + z * mat3.at_ m 8)%num.

Module QuatUtils.

Definition addScaledVector (inQuat : quat.t) (vector : vec3.t) (scale : num) : quat.t :=
  let q := quat.fromValues (vec3.x vector * scale)%num (vec3.y vector * scale)%num
                           (vec3.z vector * scale)%num (Fin 0) in
  let q := quat.mul q inQuat in
  quat.mk (quat.x inQuat + quat.x q * Fin (1/2))%num
          (quat.y inQuat + quat.y q * Fin (1/2))%num
          (quat.z inQuat + quat.z q * Fin (1/2))%num
          (quat.w inQuat + quat.w q * Fin (1/2))%num.

End QuatUtils.

(* ================================================================= *)
(** ** Rigid body *)

Module RigidBody.

Definition sleepEpsilon : num := Fin (3/10).

Record t : Type := mk {
  inverseMass : num;
  inverseInertiaTensor : mat3.t;
  linearDamping : num;
  angularDamping : num;
  position : vec3.t;
  orientation : quat.t;
  velocity : vec3.t;
  rotation : vec3.t;
  inverseInertiaTensorWorld : mat3.t;
  motion : num;
  isAwake : bool;
  canSleep : bool;
  transformMatrix : mat4.t;
  forceAccum : vec3.t;
  torqueAccum : vec3.t;
  acceleration : vec3.t;
  lastFrameAcceleration : vec3.t
}.

(** The field initialisers of the class. *)
Definition new : t :=
  mk (Fin 0) mat3.create (Fin (1/10)) (Fin (1/10)) vec3.create quat.create
     vec3.create vec3.create mat3.create (Fin 0) false false mat4.create
     vec3.create vec3.create vec3.create vec3.create.

Definition set_motion (b : t) (m : num) : t :=
  mk (inverseMass b) (inverseInertiaTensor b) (linearDamping b) (angularDamping b)
     (position b) (orientation b) (velocity b) (rotation b)
     (inverseInertiaTensorWorld b) m (isAwake b) (canSleep b)
     (transformMatrix b) (forceAccum b) (torqueAccum b) (acceleration b)
     (lastFrameAcceleration b).

Definition set_isAwake (b : t) (a : bool) : t :=
  mk (inverseMass b) (inverseInertiaTensor b) (linearDamping b) (angularDamping b)
     (position b) (orientation b) (velocity b) (rotation b)
     (inverseInertiaTensorWorld b) (motion b) a (canSleep b)
     (transformMatrix b) (forceAccum b) (torqueAccum b) (acceleration b)
     (lastFrameAcceleration b).

Definition set_canSleep (b : t) (a : bool) : t :=
  mk (inverseMass b) (inverseInertiaTensor b) (linearDamping b) (angularDamping b)
     (position b) (orientation b) (velocity b) (rotation b)
     (inverseInertiaTensorWorld b) (motion b) (isAwake b) a
     (transformMatrix b) (forceAccum b) (torqueAccum b) (acceleration b)
     (lastFrameAcceleration b).

Definition set_velocity (b : t) (v : vec3.t) : t :=
  mk (inverseMass b) (inverseInertiaTensor b) (linearDamping b) (angularDamping b)
     (position b) (orientation b) v (rotation b)
     (inverseInertiaTensorWorld b) (motion b) (isAwake b) (canSleep b)
     (transformMatrix b) (forceAccum b) (torqueAccum b) (acceleration b)
     (lastFrameAcceleration b).

Definition set_orientation (b : t) (q : quat.t) : t :=
  mk (inverseMass b) (inverseInertiaTensor b) (linearDamping b) (angularDamping b)
     (position b) q (velocity b) (rotation b)
     (inverseInertiaTensorWorld b) (motion b) (isAwake b) (canSleep b)
     (transformMatrix b) (forceAccum b) (torqueAccum b) (acceleration b)
     (lastFrameAcceleration b).

Definition set_damping (b : t) (linear angular : num) : t :=
  mk (inverseMass b) (inverseInertiaTensor b) linear angular
     (position b) (orientation b) (velocity b) (rotation b)
     (inverseInertiaTensorWorld b) (motion b) (isAwake b) (canSleep b)
     (transformMatrix b) (forceAccum b) (torqueAccum b) (acceleration b)
     (lastFrameAcceleration b).

Definition set_forceAccum (b : t) (f : vec3.t) : t :=
  mk (inverseMass b) (inverseInertiaTensor b) (linearDamping b) (angularDamping b)
     (position b) (orientation b) (velocity b) (rotation b)
     (inverseInertiaTensorWorld b) (motion b) (isAwake b) (canSleep b)
     (transformMatrix b) f (torqueAccum b) (acceleration b)
     (lastFrameAcceleration b).

Definition _calculateTransformMatrix (position : vec3.t) (orientation : quat.t) : mat4.t :=
  mat4.fromRotationTranslation orientation position.

Local Open Scope nat_scope.

(** The generated inertia-tensor transform; [t52] reads [iitBody[9]]. *)
Definition _transformInertiaTensor (q : quat.t) (iitBody : mat3.t) (rotmat : mat4.t)
  : mat3.t :=
  let r := mat4.at_ rotmat in
  let b := mat3.at_ iitBody in
  let t4 := (r 0 * b 0 + r 1 * b 3 + r 2 * b 6)%num in
  let t9 := (r 0 * b 1 + r 1 * b 4 + r 2 * b 7)%num in
  let t14 := (r 0 * b 2 + r 1 * b 5 + r 2 * b 8)%num in
  let t28 := (r 4 * b 0 + r 5 * b 3 + r 6 * b 6)%num in
  let t33 := (r 4 * b 1 + r 5 * b 4 + r 6 * b 7)%num in
  let t38 := (r 4 * b 2 + r 5 * b 5 + r 6 * b 8)%num in
  let t52 := (r 8 * b 0 + r 9 * b 9 + r 10 * b 6)%num in
  let t57 := (r 8 * b 1 + r 9 * b 4 + r 10 * b 7)%num in
  let t62 := (r 8 * b 2 + r 9 * b 5 + r 10 * b 8)%num in
  mat3.mk
    (t4 * r 0 + t9 * r 1 + t14 * r 2)%num
    (t4 * r 4 + t9 * r 5 + t14 * r 6)%num
    (t4 * r 8 + t9 * r 9 + t14 * r 10)%num
    (t28 * r 0 + t33 * r 1 + t38 * r 2)%num
    (t28 * r 4 + t33 * r 5 + t38 * r 6)%num
    (t28 * r 8 + t33 * r 9 + t38 * r 10)%num
    (t52 * r 0 + t57 * r 1 + t62 * r 2)%num
    (t52 * r 4 + t57 * r 5 + t62 * r 6)%num
    (t52 * r 8 + t57 * r 9 + t62 * r 10)%num.

Local Close Scope nat_scope.

Definition calculateDerivedData (b : t) : t :=
  let orientation' := quat.normalize (orientation b) in
  let transformMatrix' := _calculateTransformMatrix (position b) orientation' in
  let iitWorld :=
    _transformInertiaTensor orientation' (inverseInertiaTensor b) transformMatrix' in
  mk (inverseMass b) (inverseInertiaTensor b) (linearDamping b) (angularDamping b)
     (position b) orientation' (velocity b) (rotation b)
     iitWorld (motion b) (isAwake b) (canSleep b)
     transformMatrix' (forceAccum b) (torqueAccum b) (acceleration b)
     (lastFrameAcceleration b).

Definition clearAccumulators (b : t) : t :=
  mk (inverseMass b) (inverseInertiaTensor b) (linearDamping b) (angularDamping b)
     (position b) (orientation b) (velocity b) (rotation b)
     (inverseInertiaTensorWorld b) (motion b) (isAwake b) (canSleep b)
     (transformMatrix b) vec3.zero vec3.zero (acceleration b)
     (lastFrameAcceleration b).

(** [setAwake]: the [true] branch sets the flag and then evaluates
    [this.motion] without assigning it; the [false] branch is empty. *)
Definition setAwake (b : t) (awake : bool) : t :=
  if awake then set_isAwake b true else b.

(** The velocity, position and orientation updates of [integrate], up to
    the call of [calculateDerivedData]. *)
Definition advance (b : t) (duration : num) : t :=
  let lastFrameAcceleration' := vec3.copy (acceleration b) in
  let lastFrameAcceleration' :=
    vec3.scaleAndAdd lastFrameAcceleration' (forceAccum b) (inverseMass b) in
  let angularAcceleration :=
    vec3_transformMat3 (torqueAccum b) (inverseInertiaTensorWorld b) in
  let velocity' := vec3.scaleAndAdd (velocity b) lastFrameAcceleration' duration in
  let rotation' := vec3.scaleAndAdd (rotation b) angularAcceleration duration in
  let velocity' := vec3.scale velocity' (Math_pow (linearDamping b) duration) in
  let rotation' := vec3.scale rotation' (Math_pow (angularDamping b) duration) in
  let position' := vec3.scaleAndAdd (position b) velocity' duration in
  let orientation' := QuatUtils.addScaledVector (orientation b) rotation' duration in
  mk (inverseMass b) (inverseInertiaTensor b) (linearDamping b) (angularDamping b)
     position' orientation' velocity' rotation'
     (inverseInertiaTensorWorld b) (motion b) (isAwake b) (canSleep b)
     (transformMatrix b) (forceAccum b) (torqueAccum b) (acceleration b)
     lastFrameAcceleration'.

(** The sleep bookkeeping that ends [integrate]: [currentMotion] and
    [bias] are computed and not used again. *)
Definition updateSleep (b : t) (duration : num) : t :=
  if canSleep b then
    let currentMotion :=
      (vec3.dot (velocity b) (velocity b) + vec3.dot (rotation b) (rotation b))%num in
    let bias := Math_pow (Fin (1/2)) duration in
    if (motion b <? sleepEpsilon)%num then setAwake b false
    else if (motion b >? Fin 10 * sleepEpsilon)%num
         then set_motion b (Fin 10 * sleepEpsilon)%num
         else b
  else b.

Definition integrate (b : t) (duration : num) : t :=
  if negb (isAwake b) then b
  else
    let b1 := advance b duration in
    let b2 := calculateDerivedData b1 in
    let b3 := clearAccumulators b2 in
    updateSleep b3 duration.

Definition getMass (b : t) : num :=
  if (inverseMass b =? Fin 0)%num then PInf else (Fin 1 / inverseMass b)%num.

Definition getInverseMass (b : t) : num := inverseMass b.

Definition hasFiniteMass (b : t) : bool := (inverseMass b >=? Fin 0)%num.

Definition addForce (b : t) (force : vec3.t) : t :=
  set_isAwake (set_forceAccum b (vec3.add (forceAccum b) force)) true.

End RigidBody.

(* ================================================================= *)
(** ** Force generators *)

Module ParticleGravity.

Record t : Type := mk { gravity : vec3.t }.

Definition constructor (g : vec3.t) : t := mk (vec3.copy g).

(** [vec3.scale(this.gravity, this.gravity, duration)] writes its result
    into the generator's own vector and returns that vector. *)
Definition updateForce (g : t) (particle : Particle.t) (duration : num)
  : t * Particle.t :=
  if negb (Particle.hasFiniteMass particle) then (g, particle)
  else
    let scaled := vec3.scale (gravity g) duration in
    (mk scaled, Particle.addForce particle scaled).

End ParticleGravity.

Module ParticleFakeSpring.

Record t : Type := mk {
  anchor : vec3.t;
  springConstant : num;
  damping : num
}.

Definition constructor (a : vec3.t) (k d : num) : t := mk (vec3.copy a) k d.

Definition discriminant (s : t) : num :=
  (Fin 4 * springConstant s - damping s * damping s)%num.

(** The generator has no field that [updateForce] writes. *)
Definition updateForce (s : t) (particle : Particle.t) (duration : num) : Particle.t :=
  if negb (Particle.hasFiniteMass particle) then particle
  else
    let position := vec3.clone (Particle.getPosition particle) in
    let position := vec3.sub position (anchor s) in
    let gamma := (Fin (1/2) * Math_sqrt (discriminant s))%num in
    if (gamma =? Fin 0)%num then particle
    else
      let c := vec3.scale position (damping s / (Fin 2 * gamma))%num in
      let tempVec3 := vec3.scale (Particle.getVelocity particle) (Fin 1 / gamma)%num in
      let c := vec3.add c tempVec3 in
      let target := vec3.scale position (Math_cos (gamma * duration)%num) in
      let tempVec3 := vec3.scale c (Math_sin (gamma * duration)%num) in
      let target :=
        vec3.scale target (Math_exp (Fin (- (1/2)) * duration * damping s)%num) in
      let accel := vec3.sub target position in
      let accel := vec3.scale accel (Fin 1 / (duration * duration))%num in
      let tempVec3 := vec3.scale (Particle.getVelocity particle) (Fin 1 / duration)%num in
      let accel := vec3.sub accel tempVec3 in
      Particle.addForce particle (vec3.scale accel (Particle.getMass particle)).

End ParticleFakeSpring.

(* ================================================================= *)
(** ** The other force generators and the registry *)

(** [Math.abs]. *)
Definition Math_abs (a : num) : num :=
  match a with
  | Fin x => Fin (Rabs x)
  | PInf | NInf => PInf
  | NaN => NaN
  end.

(** Modelled from the spec: [vec3.len] and [vec3.normalize] of the vector
    module that is not among the sources; the length is the square root of
    the sum of squares, and [normalize] scales by its inverse.  The spec
    leaves [normalize] of a zero vector undefined; the model takes the
    choice of gl-matrix there (the vector is returned as it is), and no
    property below calls it on a zero vector. *)
Definition vec3_len (a : vec3.t) : num :=
  Math_sqrt (vec3.x a * vec3.x a + vec3.y a * vec3.y a + vec3.z a * vec3.z a)%num.

Definition vec3_normalize (a : vec3.t) : vec3.t :=
  let len := (vec3.x a * vec3.x a + vec3.y a * vec3.y a + vec3.z a * vec3.z a)%num in
  let len := if (len >? Fin 0)%num then (Fin 1 / Math_sqrt len)%num else len in
  vec3.mk (vec3.x a * len)%num (vec3.y a * len)%num (vec3.z a * len)%num.

Module ParticleDrag.

Record t : Type := mk { k1 : num; k2 : num }.

Definition constructor (k1 k2 : num) : t := mk k1 k2.

Definition updateForce (d : t) (particle : Particle.t) (duration : num) : Particle.t :=
  let force := vec3.clone (Particle.getVelocity particle) in
  let dragCoeff := vec3_len force in
  let dragCoeff := (k1 d * dragCoeff + k2 d * dragCoeff * dragCoeff)%num in
  let force := vec3_normalize force in
  let force := vec3.scale force (- dragCoeff)%num in
  Particle.addForce particle force.

End ParticleDrag.

Module ParticleSpring.

(** [other] is a reference to the particle at the other end. *)
Record t : Type := mk { other : ref; springConstant : num; restLength : num }.

Definition constructor (other : ref) (springConstant restLength : num) : t :=
  mk other springConstant restLength.

(** [otherParticle] is the state of [this.other] when the call is made. *)
Definition updateForce (s : t) (otherParticle particle : Particle.t) (duration : num)
  : Particle.t :=
  let force := vec3.clone (Particle.getPosition particle) in
  let force := vec3.sub force (Particle.getPosition otherParticle) in
  let magnitude := vec3_len force in
  let magnitude := Math_abs (magnitude - restLength s)%num in
  let magnitude := (magnitude * springConstant s)%num in
  let force := vec3_normalize force in
  let force := vec3.scale force (- magnitude)%num in
  Particle.addForce particle force.

End ParticleSpring.

Module ParticleAnchoredSpring.

Record t : Type := mk { anchor : vec3.t; springConstant : num; restLength : num }.

(** The constructor without arguments keeps the field initialisers. *)
Definition new : t := mk vec3.create (Fin 0) (Fin 0).

Definition init (s : t) (a : vec3.t) (springConstant restLength : num) : t :=
  mk (vec3.copy a) springConstant restLength.

Definition constructor (a : vec3.t) (springConstant restLength : num) : t :=
  init new a springConstant restLength.

Definition updateForce (s : t) (particle : Particle.t) (duration : num) : Particle.t :=
  let force := vec3.copy (Particle.getPosition particle) in
  let force := vec3.sub force (anchor s) in
  let magnitude := vec3_len force in
  let magnitude := ((restLength s - magnitude) * springConstant s)%num in
  let force := vec3_normalize force in
  let force := vec3.scale force magnitude in
  Particle.addForce particle force.

End ParticleAnchoredSpring.

Module ParticleBuoyancy.

Record t : Type := mk {
  maxDepth : num;
  volume : num;
  waterHeight : num;
  liquidDensity : num
}.

(** The constructor with its default liquid density. *)
Definition constructor (maxDepth volume waterHeight : num) (liquidDensity : option num) : t :=
  mk maxDepth volume waterHeight
     (match liquidDensity with Some d => d | None => Fin 1000 end).

Definition updateForce (b : t) (particle : Particle.t) (duration : num) : Particle.t :=
  let depth := vec3.y (Particle.getPosition particle) in
  if (depth >=? waterHeight b + maxDepth b)%num then particle
  else
    if (depth <=? waterHeight b - maxDepth b)%num then
      let force := vec3.mk (Fin 0) (liquidDensity b * volume b)%num (Fin 0) in
      Particle.addForce particle force
    else
      let force :=
        vec3.mk (Fin 0)
          (liquidDensity b * volume b * (depth - maxDepth b - waterHeight b)
           / (Fin 2 * maxDepth b))%num
          (Fin 0) in
      Particle.addForce particle force.

End ParticleBuoyancy.

Module ParticleBungee.

Record t : Type := mk { other : ref; springConstant : num; restLength : num }.

Definition constructor (other : ref) (springConstant restLength : num) : t :=
  mk other springConstant restLength.

Definition updateForce (s : t) (otherParticle particle : Particle.t) (duration : num)
  : Particle.t :=
  let force := vec3.clone (Particle.getPosition particle) in
  let force := vec3.sub force (Particle.getPosition otherParticle) in
  let magnitude := vec3_len force in
  if (magnitude <=? restLength s)%num then particle
  else
    let magnitude := (springConstant s * (restLength s - magnitude))%num in
    let force := vec3_normalize force in
    let force := vec3.scale force (- magnitude)%num in
    Particle.addForce particle force.

End ParticleBungee.

Module ParticleAnchoredBungee.

(** The class extends [ParticleAnchoredSpring] and overrides [updateForce]. *)
Definition t : Type := ParticleAnchoredSpring.t.

Definition updateForce (s : t) (particle : Particle.t) (duration : num) : Particle.t :=
  let force := vec3.copy (Particle.getPosition particle) in
  let force := vec3.sub force (ParticleAnchoredSpring.anchor s) in
  let magnitude := vec3_len force in
  if (magnitude <? ParticleAnchoredSpring.restLength s)%num then particle
  else
    let magnitude := (magnitude - ParticleAnchoredSpring.restLength s)%num in
    let magnitude := (magnitude * ParticleAnchoredSpring.springConstant s)%num in
    let force := vec3_normalize force in
    let force := vec3.scale force (- magnitude)%num in
    Particle.addForce particle force.

End ParticleAnchoredBungee.

(** The implementations of the [ParticleForceGenerator] interface. *)
Inductive ParticleForceGenerator : Type :=
| Gravity (g : ParticleGravity.t)
| Drag (d : ParticleDrag.t)
| Spring (s : ParticleSpring.t)
| AnchoredSpring (s : ParticleAnchoredSpring.t)
| Buoyancy (b : ParticleBuoyancy.t)
| Bungee (s : ParticleBungee.t)
| FakeSpring (s : ParticleFakeSpring.t)
| AnchoredBungee (s : ParticleAnchoredBungee.t).

(** Generators are objects too: a registration holds a reference to one,
    and the gravity generator rewrites its own state. *)
Definition generators : Type := nat -> ParticleForceGenerator.

Definition gupd (gs : generators) (r : nat) (g : ParticleForceGenerator) : generators :=
  fun r' => if Nat.eqb r' r then g else gs r'.

(** [fg.updateForce(particle, duration)], dispatched on the class of [fg];
    the particle is the one the store holds under [p]. *)
Definition call_updateForce (fg : ParticleForceGenerator) (h : store) (p : ref)
           (duration : num) : ParticleForceGenerator * store :=
  match fg with
  | Gravity g =>
      let '(g', particle') := ParticleGravity.updateForce g (h p) duration in
      (Gravity g', upd h p particle')
  | Drag d => (fg, upd h p (ParticleDrag.updateForce d (h p) duration))
  | Spring s =>
      (fg, upd h p (ParticleSpring.updateForce s (h (ParticleSpring.other s)) (h p) duration))
  | AnchoredSpring s =>
      (fg, upd h p (ParticleAnchoredSpring.updateForce s (h p) duration))
  | Buoyancy b => (fg, upd h p (ParticleBuoyancy.updateForce b (h p) duration))
  | Bungee s =>
      (fg, upd h p (ParticleBungee.updateForce s (h (ParticleBungee.other s)) (h p) duration))
  | FakeSpring s => (fg, upd h p (ParticleFakeSpring.updateForce s (h p) duration))
  | AnchoredBungee s =>
      (fg, upd h p (ParticleAnchoredBungee.updateForce s (h p) duration))
  end.

Module ParticleForceRegistry.

Record ParticleForceRegistration : Type := mkRegistration {
  particle : ref;
  fg : nat
}.

Record t : Type := mk { registrations : list ParticleForceRegistration }.

Definition constructor : t := mk [].

Definition add (reg : t) (p : ref) (g : nat) : t :=
  mk (registrations reg ++ [mkRegistration p g]).

(** The bodies of [remove] and [clear] are empty. *)
Definition remove (reg : t) (p : ref) (g : nat) : t := reg.

Definition clear (reg : t) : t := reg.

Definition step (duration : num) (state : generators * store)
           (r : ParticleForceRegistration) : generators * store :=
  let '(gs, h) := state in
  let '(g', h') := call_updateForce (gs (fg r)) h (particle r) duration in
  (gupd gs (fg r) g', h').

Definition updateForces (reg : t) (duration : num) (gs : generators) (h : store)
  : generators * store :=
  fold_left (step duration) (registrations reg) (gs, h).

End ParticleForceRegistry.

(* ================================================================= *)
(** ** Helpers of the demos *)

Local Open Scope nat_scope.

(** [calculateNormalMat(normalMat, model)]: the result is the matrix
    written into [normalMat]. *)
Definition calculateNormalMat (model : mat4.t) : mat3.t :=
  let a00 := mat4.at_ model 0 in
  let a01 := mat4.at_ model 1 in
  let a02 := mat4.at_ model 2 in
  let a10 := mat4.at_ model 4 in
  let a11 := mat4.at_ model 5 in
  let a12 := mat4.at_ model 6 in
  let a20 := mat4.at_ model 8 in
  let a21 := mat4.at_ model 9 in
  let a22 := mat4.at_ model 10 in
  mat3.mk
    (a11 * a22 - a12 * a21)%num
    (a12 * a20 - a10 * a22)%num
    (a10 * a21 - a11 * a20)%num
    (a02 * a21 - a01 * a22)%num
    (a00 * a22 - a02 * a20)%num
    (a01 * a20 - a00 * a21)%num
    (a01 * a12 - a02 * a11)%num
    (a02 * a10 - a00 * a12)%num
    (a00 * a11 - a01 * a10)%num.

Local Close Scope nat_scope.

(** [random.ts].  [Math.random()] reads the next draw of a stream; a call
    returns its value together with the position of the next unread draw. *)
Module random.

Definition draws : Type := nat -> num.

Definition Math_random (u : draws) (k : nat) : num * nat := (u k, S k).

(** [randomReal(min?, max?)]: an absent argument is [undefined]. *)
Definition randomReal (min max : option num) (u : draws) (k : nat) : num * nat :=
  match min with
  | None => Math_random u k
  | Some lo =>
      match max with
      | None => let '(r, k1) := Math_random u k in ((r * lo)%num, k1)
      | Some hi => let '(r, k1) := Math_random u k in ((r * (hi - lo) + lo)%num, k1)
      end
  end.

Definition randomBinomial (scale : num) (u : draws) (k : nat) : num * nat :=
  let '(a, k1) := randomReal None None u k in
  let '(b, k2) := randomReal None None u k1 in
  (((a - b) * scale)%num, k2).

(** The three ways of calling [randomVector]. *)
Inductive vector_arguments : Type :=
| Scale (scale : num)
| Scales (scale : vec3.t)
| Range (min max : vec3.t).

Definition randomVector (args : vector_arguments) (u : draws) (k : nat) : vec3.t * nat :=
  match args with
  | Scale s =>
      let '(a, k1) := randomBinomial s u k in
      let '(b, k2) := randomBinomial s u k1 in
      let '(c, k3) := randomBinomial s u k2 in
      (vec3.fromValues a b c, k3)
  | Scales v =>
      let '(a, k1) := randomBinomial (vec3.x v) u k in
      let '(b, k2) := randomBinomial (vec3.y v) u k1 in
      let '(c, k3) := randomBinomial (vec3.z v) u k2 in
      (vec3.fromValues a b c, k3)
  | Range lo hi =>
      let '(a, k1) := randomReal (Some (vec3.x lo)) (Some (vec3.x hi)) u k in
      let '(b, k2) := randomReal (Some (vec3.y lo)) (Some (vec3.y hi)) u k1 in
      let '(c, k3) := randomReal (Some (vec3.z lo)) (Some (vec3.z hi)) u k2 in
      (vec3.fromValues a b c, k3)
  end.

End random.

(** [k] successive calls of [Particle.integrate] with one duration, as the
    per-frame update of a demo makes them. *)
Fixpoint integrate_times (k : nat) (p : Particle.t) (duration : num) : Particle.t :=
  match k with
  | O => p
  | S k' => integrate_times k' (Particle.integrate p duration) duration
  end.

(* ================================================================= *)
(** ** The firework demo ([demo/firework/index.ts]) *)

(** [Math.round]: the nearest integer, a half rounding up. *)
Definition Math_round (a : num) : num :=
  match a with
  | Fin x => Fin (IZR (Int_part (x + 1/2)))
  | PInf => PInf
  | NInf => NInf
  | NaN => NaN
  end.

(** A firework is a particle with a type, an age and a colour. *)
Module Firework.

Record t : Type := mk {
  particle : Particle.t;
  type : num;
  age : num;
  color : vec3.t
}.

Definition new : t := mk Particle.new (Fin 0) (Fin 0) vec3.create.

(** [update] returns whether the firework is to be removed. *)
Definition update (f : t) (duration : num) : t * bool :=
  let particle' := Particle.integrate (particle f) duration in
  let age' := (age f - duration)%num in
  (mk particle' (type f) age' (color f),
   (age' <? Fin 0)%num || (vec3.y (Particle.position particle') <? Fin 0)%num).

End Firework.

Module FireworkRule.

(** The fields that [setParameters] and [create] use. *)
Record t : Type := mk {
  type : num;
  minAge : num;
  maxAge : num;
  minVelocity : vec3.t;
  maxVelocity : vec3.t;
  damping : num
}.

Definition new : t := mk (Fin 0) (Fin 0) (Fin 0) vec3.create vec3.create (Fin 0).

Definition setParameters (rule : t) (type minAge maxAge : num)
           (minVelocity maxVelocity : vec3.t) (damping : num) : t :=
  mk type minAge maxAge (vec3.copy minVelocity) (vec3.copy maxVelocity) damping.

(** [create(firework, parent)]: the firework is written in place; the
    result is its new state and the position of the next unread draw. *)
Definition create (rule : t) (firework : Firework.t) (parent : option Firework.t)
           (u : random.draws) (k : nat) : Firework.t * nat :=
  let '(age, k1) := random.randomReal (Some (minAge rule)) (Some (maxAge rule)) u k in
  let vel := vec3.create in
  let '(p1, vel, k2) :=
    match parent with
    | Some par =>
        (Particle.setPosition (Firework.particle firework)
           (Particle.getPosition (Firework.particle par)),
         vec3.add vel (Particle.getVelocity (Firework.particle par)),
         k1)
    | None =>
        let '(r, k2) := random.Math_random u k1 in
        let x := Math_round (r * Fin 3 - Fin 1)%num in
        let start := vec3.mk (Fin 5 * x)%num (Fin 0) (Fin 0) in
        (Particle.setPosition (Firework.particle firework) start, vel, k2)
    end in
  let '(rv, k3) :=
    random.randomVector (random.Range (minVelocity rule) (maxVelocity rule)) u k2 in
  let vel := vec3.add vel rv in
  let p2 := Particle.setVelocity p1 vel in
  let p3 := Particle.setMass p2 (Fin 1) in
  let p4 := Particle.setDamping p3 (damping rule) in
  let p5 := Particle.setAcceleration p4 (vec3.fin 0 (-981/100) 0) in
  let p6 := Particle.clearAccumulator p5 in
  (Firework.mk p6 (type rule) age (Firework.color firework), k3).

End FireworkRule.

(** The frames of a firework: [k] calls of [update] with one duration. *)
Fixpoint update_times (k : nat) (f : Firework.t) (duration : num) : Firework.t :=
  match k with
  | O => f
  | S k' => update_times k' (fst (Firework.update f duration)) duration
  end.

(* ================================================================= *)
(** ** Reference behaviour and concrete states used by the properties *)

(** Two numbers agree within a tolerance. *)
Definition near (tol : R) (a b : num) : Prop :=
  exists x y, a = Fin x /\ b = Fin y /\ Rabs (x - y) <= tol.

(** A particle of mass one, at rest at the origin, undamped. *)
Definition unit_particle : Particle.t :=
  Particle.mk (Fin 1) (Fin 1) vec3.zero vec3.zero vec3.zero vec3.zero.

(** A store in which every reference holds a unit particle at rest. *)
Definition resting_store : store := fun _ => unit_particle.

(** A unit particle with a force of one along x waiting in its accumulator. *)
Definition pushed_particle : Particle.t :=
  Particle.mk (Fin 1) (Fin 1) vec3.zero vec3.zero (vec3.fin 1 0 0) vec3.zero.

(** A particle of mass two. *)
Definition two_kilo_particle : Particle.t :=
  Particle.mk (Fin (1/2)) (Fin 1) vec3.zero vec3.zero vec3.zero vec3.zero.

Definition earth_gravity : ParticleGravity.t :=
  ParticleGravity.constructor (vec3.fin 0 (-10) 0).

(** The last row of a world inertia tensor is [NaN]. *)
Definition last_row_NaN (m : mat3.t) : Prop :=
  mat3.m6 m = NaN /\ mat3.m7 m = NaN /\ mat3.m8 m = NaN.





(** Two unit particles, references 0 and 1, overlapping by one fifth along
    x; the contact is as its generator leaves it, [particleMovement] empty. *)
Definition overlap_contact : ParticleContact.t :=
  ParticleContact.mk 0%nat (Some 1%nat) (Fin 0) (vec3.fin 1 0 0) (Fin (1/5)) None None.


(** A unit particle resting a tenth of a unit inside the scenery, the
    normal along y, both movement slots allocated. *)
Definition scenery_contact : ParticleContact.t :=
  ParticleContact.mk 0%nat None (Fin 0) (vec3.fin 0 1 0) (Fin (1/10))
    (Some vec3.zero) (Some vec3.zero).

(** The sleep metric of the spec: the blend of the stored motion with
    the current motion of the body, weighted by [0.5 ^ duration]. *)
Definition blended_motion (old_motion : num) (b : RigidBody.t) (duration : num) : num :=
  let currentMotion :=
    (vec3.dot (RigidBody.velocity b) (RigidBody.velocity b) +
     vec3.dot (RigidBody.rotation b) (RigidBody.rotation b))%num in
  let bias := Math_pow (Fin (1/2)) duration in
  (bias * old_motion + (Fin 1 - bias) * currentMotion)%num.

(** An awake body that may sleep, undamped, drifting at a tenth of a unit
    per second along x, with a stored motion of one tenth. *)
Definition drifting_body : RigidBody.t :=
  RigidBody.mk (Fin 1) mat3.create (Fin 1) (Fin 1) vec3.zero quat.create
    (vec3.fin (1/10) 0 0) vec3.zero mat3.create (Fin (1/10)) true true mat4.create
    vec3.zero vec3.zero vec3.zero vec3.zero.

(** A spring with [4 * springConstant - damping^2 = -5], anchored at the
    origin, and a unit particle one unit away from the anchor. *)
Definition overdamped_spring : ParticleFakeSpring.t :=
  ParticleFakeSpring.constructor vec3.zero (Fin 1) (Fin 3).

Definition displaced_particle : Particle.t :=
  Particle.mk (Fin 1) (Fin 1) (vec3.fin 1 0 0) vec3.zero vec3.zero vec3.zero.

Definition quat_NaN : quat.t := quat.mk NaN NaN NaN NaN.

(** ** Disjoint batches of two-particle contacts *)

(** A vector whose three components are finite. *)
Definition vfin (v : vec3.t) : Prop := exists a b c, v = vec3.fin a b c.

(** A particle that the contact code can move: positive inverse mass,
    finite velocity and acceleration. *)
Record movable (p : Particle.t) : Prop := {
  movable_mass : exists m, Particle.inverseMass p = Fin m /\ 0 < m;
  movable_velocity : vfin (Particle.velocity p);
  movable_acceleration : vfin (Particle.acceleration p)
}.

(** A contact between two distinct movable particles, with a unit normal,
    a restitution that is not negative and a finite penetration. *)
Record two_body (h : store) (c : ParticleContact.t) : Prop := {
  two_body_second :
    exists q, ParticleContact.particles1 c = Some q /\
              q <> ParticleContact.particles0 c /\ movable (h q);
  two_body_first : movable (h (ParticleContact.particles0 c));
  two_body_normal :
    exists nx ny nz, ParticleContact.contactNormal c = vec3.fin nx ny nz /\
                     nx * nx + ny * ny + nz * nz = 1;
  two_body_restitution :
    exists e, ParticleContact.restitution c = Fin e /\ 0 <= e;
  two_body_penetration : exists p, ParticleContact.penetration c = Fin p
}.

(** Both movement slots hold the zero vector. *)
Definition zeroed (c : ParticleContact.t) : Prop :=
  ParticleContact.particleMovement0 c = Some vec3.zero /\
  ParticleContact.particleMovement1 c = Some vec3.zero.

(** The update loop can read the movement of the contact once it is
    resolved: the contact overlaps, so the position correction will record
    it, or both slots hold the zero vector. *)
Definition movement_ready (c : ParticleContact.t) : Prop :=
  zeroed c \/ exists p, ParticleContact.penetration c = Fin p /\ 0 < p.

(** The contact is neither closing nor overlapping. *)
Definition settled (h : store) (c : ParticleContact.t) : Prop :=
  exists s p,
    ParticleContact.calculateSeparatingVelocity c h = Fin s /\ 0 <= s /\
    ParticleContact.penetration c = Fin p /\ p <= 0.

(** The test of the search loop: the contact still needs resolving. *)
Definition needs_resolving (h : store) (c : ParticleContact.t) : bool :=
  (ParticleContact.calculateSeparatingVelocity c h <? Fin 0)%num
  || (ParticleContact.penetration c >? Fin 0)%num.

(** The particles a contact refers to. *)
Definition endpoints (c : ParticleContact.t) : list ref :=
  ParticleContact.particles0 c ::
  match ParticleContact.particles1 c with
  | Some q => [q]
  | None => []
  end.

(** No particle appears twice in the batch. *)
Definition pairwise_disjoint (cs : list ParticleContact.t) : Prop :=
  NoDup (flat_map endpoints cs).

(** What the resolver relies on for a contact of a disjoint batch. *)
Definition resolvable (h : store) (c : ParticleContact.t) : Prop :=
  two_body h c /\ (movement_ready c \/ settled h c).

(** Number of contacts the search loop would still pick. *)
Definition pending (h : store) (cs : list ParticleContact.t) : nat :=
  length (filter (needs_resolving h) cs).

(** A resolver whose [iterations] field has been assigned. *)
Definition resolver_with (iterations : nat) : ParticleContactResolver.t :=
  ParticleContactResolver.set_iterations
    (ParticleContactResolver.constructor None) (Some (Fin (INR iterations))).


(** Unit particles at rest, except particle 0, which moves along -x. *)
Definition approaching_store : store :=
  fun r =>
    match r with
    | O => Particle.mk (Fin 1) (Fin 1) vec3.zero (vec3.fin (-1) 0 0) vec3.zero vec3.zero
    | S _ => unit_particle
    end.

(** Particles 0 and 1 touching, normal along x, [particleMovement] empty
    as the class initialises it. *)
Definition touching_contact : ParticleContact.t :=
  ParticleContact.mk 0%nat (Some 1%nat) (Fin 0) (vec3.fin 1 0 0) (Fin 0) None None.

(** The same two particles touching, the contact carrying the movement
    recorded when it was last resolved. *)
Definition stale_contact : ParticleContact.t :=
  ParticleContact.mk 0%nat (Some 1%nat) (Fin 0) (vec3.fin 1 0 0) (Fin 0)
    (Some (vec3.fin (-1/10) 0 0)) (Some vec3.zero).

(** Two disjoint contacts: particles 0 and 1 overlapping by a fifth, the
    contact fresh from its generator; particles 2 and 3 touching, both
    movement slots zeroed. *)
Definition settling_batch : list ParticleContact.t :=
  [ ParticleContact.mk 0%nat (Some 1%nat) (Fin 0) (vec3.fin 1 0 0) (Fin (1/5))
      None None;
    ParticleContact.mk 2%nat (Some 3%nat) (Fin 1) (vec3.fin 0 1 0) (Fin 0)
      (Some vec3.zero) (Some vec3.zero) ].

(** What no call of the resolver changes in a contact. *)
Definition same_identity (c c' : ParticleContact.t) : Prop :=
  ParticleContact.particles0 c' = ParticleContact.particles0 c /\
  ParticleContact.particles1 c' = ParticleContact.particles1 c /\
  ParticleContact.restitution c' = ParticleContact.restitution c /\
  ParticleContact.contactNormal c' = ParticleContact.contactNormal c.

(** What no call of the resolver changes in a particle. *)
Definition same_inertia (p p' : Particle.t) : Prop :=
  Particle.inverseMass p' = Particle.inverseMass p /\
  Particle.damping p' = Particle.damping p /\
  Particle.acceleration p' = Particle.acceleration p /\
  Particle.forceAccum p' = Particle.forceAccum p.

(** Two particles that nothing can move, overlapping and closing. *)
Definition immovable_store : store :=
  fun r =>
    match r with
    | O => Particle.mk (Fin 0) (Fin 1) vec3.zero (vec3.fin (-1) 0 0) vec3.zero vec3.zero
    | S _ => Particle.mk (Fin 0) (Fin 1) vec3.zero vec3.zero vec3.zero vec3.zero
    end.

(** ** Quantities of a contact that its resolution is measured by *)

(** Momentum of a particle: its velocity times its mass. *)
Definition momentum (p : Particle.t) : vec3.t :=
  vec3.scale (Particle.velocity p) (Particle.getMass p).

(** Position of a particle weighted by its mass. *)
Definition weighted_position (p : Particle.t) : vec3.t :=
  vec3.scale (Particle.position p) (Particle.getMass p).

(** Sum of a per-particle vector over the particles of a contact. *)
Definition over_contact (f : Particle.t -> vec3.t) (c : ParticleContact.t) (h : store)
  : vec3.t :=
  match ParticleContact.particles1 c with
  | Some q => vec3.add (f (h (ParticleContact.particles0 c))) (f (h q))
  | None => f (h (ParticleContact.particles0 c))
  end.

(** The separating velocity that the acceleration of the particles builds
    up over the frame, [accCausedSepVelocity] in [resolveVelocity]. *)
Definition accCausedSepVelocity (c : ParticleContact.t) (duration : num) (h : store)
  : num :=
  let accCausedVelocity :=
    match ParticleContact.particles1 c with
    | Some q => vec3.sub (Particle.acceleration (h (ParticleContact.particles0 c)))
                         (Particle.acceleration (h q))
    | None => Particle.acceleration (h (ParticleContact.particles0 c))
    end in
  (vec3.dot accCausedVelocity (ParticleContact.contactNormal c) * duration)%num.

(** The separating velocity a closing contact is to leave with: the
    closing velocity [s] reversed and scaled by the restitution [e], less
    what the acceleration [acc] contributed, and never negative then. *)
Definition bounce_target (s e acc : R) : R :=
  if Rlt_dec acc 0 then Rmax 0 (- s * e + e * acc) else - s * e.

(** The distance between the two particles of a contact along its normal. *)
Definition gap (c : ParticleContact.t) (h : store) : num :=
  match ParticleContact.particles1 c with
  | Some q =>
      vec3.dot (vec3.sub (Particle.position (h (ParticleContact.particles0 c)))
                         (Particle.position (h q)))
               (ParticleContact.contactNormal c)
  | None =>
      vec3.dot (Particle.position (h (ParticleContact.particles0 c)))
               (ParticleContact.contactNormal c)
  end.

(** Both particles of the contact have a finite position. *)
Definition placed (h : store) (c : ParticleContact.t) : Prop :=
  vfin (Particle.position (h (ParticleContact.particles0 c))) /\
  match ParticleContact.particles1 c with
  | Some q => vfin (Particle.position (h q))
  | None => True
  end.

(** A movable particle against the scenery: no second particle, a unit
    normal and a finite restitution. *)
Record one_body (h : store) (c : ParticleContact.t) : Prop := {
  one_body_alone : ParticleContact.particles1 c = None;
  one_body_first : movable (h (ParticleContact.particles0 c));
  one_body_normal :
    exists nx ny nz, ParticleContact.contactNormal c = vec3.fin nx ny nz /\
                     nx * nx + ny * ny + nz * nz = 1;
  one_body_restitution : exists e, ParticleContact.restitution c = Fin e
}.

(** Particle 0 falling at two units per second onto the scenery below it. *)
Definition falling_store : store :=
  fun r =>
    match r with
    | O => Particle.mk (Fin (1/2)) (Fin 1) vec3.zero (vec3.fin 1 (-2) 0) vec3.zero vec3.zero
    | S _ => unit_particle
    end.

Definition floor_contact : ParticleContact.t :=
  ParticleContact.mk 0%nat None (Fin (1/2)) (vec3.fin 0 1 0) (Fin 0)
    (Some vec3.zero) (Some vec3.zero).

(** Particle 0 of mass one and particle 1 of mass two, closing along x. *)
Definition unequal_store : store :=
  fun r =>
    match r with
    | O => Particle.mk (Fin 1) (Fin 1) vec3.zero (vec3.fin (-3) 1 0) vec3.zero vec3.zero
    | S _ => Particle.mk (Fin (1/2)) (Fin 1) (vec3.fin (-1) 0 0) vec3.zero vec3.zero vec3.zero
    end.

Definition unequal_contact : ParticleContact.t :=
  ParticleContact.mk 0%nat (Some 1%nat) (Fin (1/2)) (vec3.fin 1 0 0) (Fin (3/10)) None None.

(** ** Quantities the force generators are measured by *)

(** Euclidean length of a vector of reals. *)
Definition norm (x y z : R) : R := sqrt (x * x + y * y + z * z).

(** A particle moving at five units per second in the plane, with a force
    already waiting in its accumulator. *)
Definition gliding_particle : Particle.t :=
  Particle.mk (Fin 1) (Fin 1) (vec3.fin 3 4 0) (vec3.fin 3 4 0) (vec3.fin 1 1 1) vec3.zero.

(** The particle at the other end of a spring, at the origin. *)
Definition anchor_particle : Particle.t :=
  Particle.mk (Fin 1) (Fin 1) vec3.zero vec3.zero vec3.zero vec3.zero.

Definition light_drag : ParticleDrag.t := ParticleDrag.constructor (Fin (1/10)) (Fin (1/100)).

(** A spring of stiffness two and rest length ten, held by particle 1. *)
Definition long_spring : ParticleSpring.t := ParticleSpring.constructor 1%nat (Fin 2) (Fin 10).

Definition long_anchored_spring : ParticleAnchoredSpring.t :=
  ParticleAnchoredSpring.constructor vec3.zero (Fin 2) (Fin 10).

(** A bungee of stiffness two and rest length one, held by particle 1. *)
Definition short_bungee : ParticleBungee.t := ParticleBungee.constructor 1%nat (Fin 2) (Fin 1).

Definition short_anchored_bungee : ParticleAnchoredBungee.t :=
  ParticleAnchoredSpring.constructor vec3.zero (Fin 2) (Fin 1).

(** Water up to height zero, an object of volume one tenth that is fully
    submerged two units down. *)
Definition pond : ParticleBuoyancy.t :=
  ParticleBuoyancy.constructor (Fin 2) (Fin (1/10)) (Fin 0) None.

(** A particle one unit below the surface of the pond. *)
Definition floating_particle : Particle.t :=
  Particle.mk (Fin 1) (Fin 1) (vec3.fin 0 (-1) 0) vec3.zero vec3.zero vec3.zero.

(** What a force generator leaves alone in a particle. *)
Definition only_force (p p' : Particle.t) : Prop :=
  Particle.inverseMass p' = Particle.inverseMass p /\
  Particle.damping p' = Particle.damping p /\
  Particle.position p' = Particle.position p /\
  Particle.velocity p' = Particle.velocity p /\
  Particle.acceleration p' = Particle.acceleration p.

(** A registry of two registrations that share generator 0. *)
Definition shared_registry : ParticleForceRegistry.t :=
  ParticleForceRegistry.add
    (ParticleForceRegistry.add ParticleForceRegistry.constructor 0%nat 0%nat) 1%nat 0%nat.

(** ** Quantities of the rigid body and of the matrices *)

(** A quaternion whose four components are finite. *)
Definition qfin (a b c d : R) : quat.t := quat.mk (Fin a) (Fin b) (Fin c) (Fin d).

(** A body whose orientation has drifted to twice a unit quaternion. *)
Definition stretched_body : RigidBody.t :=
  RigidBody.set_orientation RigidBody.new (qfin 0 0 0 2).

(** The rotation and scale part of a model matrix: the entries
    [calculateNormalMat] reads, row by row. *)
Definition linear_part (model : mat4.t) : mat3.t :=
  mat3.mk (mat4.m0 model) (mat4.m1 model) (mat4.m2 model)
          (mat4.m4 model) (mat4.m5 model) (mat4.m6 model)
          (mat4.m8 model) (mat4.m9 model) (mat4.m10 model).

(** The product of a 3x3 matrix with the transpose of another, both read
    row by row. *)
Definition mul_transposed (a b : mat3.t) : mat3.t :=
  let row (r : num * num * num) (s : num * num * num) : num :=
    let '(r0, r1, r2) := r in
    let '(s0, s1, s2) := s in
    (r0 * s0 + r1 * s1 + r2 * s2)%num in
  let a0 := (mat3.m0 a, mat3.m1 a, mat3.m2 a) in
  let a1 := (mat3.m3 a, mat3.m4 a, mat3.m5 a) in
  let a2 := (mat3.m6 a, mat3.m7 a, mat3.m8 a) in
  let b0 := (mat3.m0 b, mat3.m1 b, mat3.m2 b) in
  let b1 := (mat3.m3 b, mat3.m4 b, mat3.m5 b) in
  let b2 := (mat3.m6 b, mat3.m7 b, mat3.m8 b) in
  mat3.mk (row a0 b0) (row a0 b1) (row a0 b2)
          (row a1 b0) (row a1 b1) (row a1 b2)
          (row a2 b0) (row a2 b1) (row a2 b2).

(** The determinant of a 3x3 matrix of reals. *)
Definition det3 (a00 a01 a02 a10 a11 a12 a20 a21 a22 : R) : R :=
  a00 * (a11 * a22 - a12 * a21)
  - a01 * (a10 * a22 - a12 * a20)
  + a02 * (a10 * a21 - a11 * a20).

(** [k] frames in each of which the same force is added to the particle
    before it is integrated. *)
Fixpoint push_frames (k : nat) (p : Particle.t) (force : vec3.t) (duration : num)
  : Particle.t :=
  match k with
  | O => p
  | S k' =>
      push_frames k' (Particle.integrate (Particle.addForce p force) duration)
                  force duration
  end.

(** A particle coasting along x with a damping of one half. *)
Definition coasting_particle : Particle.t :=
  Particle.mk (Fin 1) (Fin (1/2)) vec3.zero (vec3.fin 8 0 0) vec3.zero vec3.zero.

(** ** Draws of [Math.random] *)

(** Every draw is a number in [[0, 1)], as [Math.random] promises. *)
Definition uniform (u : random.draws) : Prop :=
  forall i, exists r, u i = Fin r /\ 0 <= r < 1.

(** A stream that always draws one half. *)
Definition halves : random.draws := fun _ => Fin (1/2).

(** Within the box spanned by two finite vectors, component by component. *)
Definition within (lo hi v : vec3.t) : Prop :=
  exists lx ly lz hx hy hz x y z,
    lo = vec3.fin lx ly lz /\ hi = vec3.fin hx hy hz /\ v = vec3.fin x y z /\
    lx <= x <= hx /\ ly <= y <= hy /\ lz <= z <= hz.

(** The first rule of the demo: a fuse of 1 to 2.8 seconds. *)
Definition rocket_rule : FireworkRule.t :=
  FireworkRule.setParameters FireworkRule.new (Fin 1) (Fin 1) (Fin (28/10))
    (vec3.fin (-50) 250 (-50)) (vec3.fin 50 280 50) (Fin (1/10)).

(** A firework with a fuse of one second, resting at the origin. *)
Definition one_second_firework : Firework.t :=
  Firework.mk unit_particle (Fin 1) (Fin 1) vec3.create.

(** What [FireworkRule.create] promises about the firework it writes,
    whatever the firework held before: the type and damping of the rule,
    an age within the rule's range, a mass of one, gravity as acceleration,
    an empty force accumulator, and a velocity that is the parent's (or
    zero) plus an offset within the rule's range. *)
Definition created_by (rule : FireworkRule.t) (parent : option Firework.t)
           (f : Firework.t) : Prop :=
  Firework.type f = FireworkRule.type rule /\
  (exists a lo hi,
      Firework.age f = Fin a /\ FireworkRule.minAge rule = Fin lo /\
      FireworkRule.maxAge rule = Fin hi /\ lo <= a <= hi) /\
  Particle.getMass (Firework.particle f) = Fin 1 /\
  Particle.damping (Firework.particle f) = FireworkRule.damping rule /\
  Particle.acceleration (Firework.particle f) = vec3.fin 0 (-981/100) 0 /\
  Particle.forceAccum (Firework.particle f) = vec3.zero /\
  (exists offset,
      within (FireworkRule.minVelocity rule) (FireworkRule.maxVelocity rule) offset /\
      Particle.velocity (Firework.particle f)
      = vec3.add
          match parent with
          | Some par => vec3.add vec3.create (Particle.velocity (Firework.particle par))
          | None => vec3.create
          end
          offset) /\
  match parent with
  | Some par =>
      Particle.position (Firework.particle f) = Particle.position (Firework.particle par)
  | None =>
      exists n : Z, (-1 <= n <= 2)%Z /\
                    Particle.position (Firework.particle f) = vec3.fin (5 * IZR n) 0 0
  end.

(** The rule has a finite age range and a finite velocity box, neither
    of them reversed. *)
Definition well_ranged (rule : FireworkRule.t) : Prop :=
  (exists lo hi, FireworkRule.minAge rule = Fin lo /\
                 FireworkRule.maxAge rule = Fin hi /\ lo <= hi) /\
  exists lx ly lz hx hy hz,
    FireworkRule.minVelocity rule = vec3.fin lx ly lz /\
    FireworkRule.maxVelocity rule = vec3.fin hx hy hz /\
    lx <= hx /\ ly <= hy /\ lz <= hz.



(** The generator is a [ParticleGravity], the one class whose
    [updateForce] writes to the generator itself. *)
Definition is_gravity (g : ParticleForceGenerator) : bool :=
  match g with
  | Gravity _ => true
  | _ => false
  end.

(** Generator 0 is gravity, every other one a light drag; particle 0 is
    registered with the former and particle 1 with generator 1. *)
Definition mixed_generators : generators :=
  fun g => match g with O => Gravity earth_gravity | S _ => Drag light_drag end.

Definition mixed_registry : ParticleForceRegistry.t :=
  ParticleForceRegistry.add
    (ParticleForceRegistry.add ParticleForceRegistry.constructor 0%nat 0%nat) 1%nat 1%nat.

(** ** Tactics *)

(** Decide every comparison of reals that blocks the evaluation of a
    concrete call, discarding the branch that arithmetic refutes. *)
Ltac decide_reals :=
  repeat match goal with
  | |- context [Rlt_dec ?a ?b] => destruct (Rlt_dec a b); [ try (exfalso; lra) | try (exfalso; lra) ]
  | |- context [Rle_dec ?a ?b] => destruct (Rle_dec a b); [ try (exfalso; lra) | try (exfalso; lra) ]
  | |- context [Req_dec_T ?a ?b] => destruct (Req_dec_T a b); [ try (exfalso; lra) | try (exfalso; lra) ]
  end.

(** Close an equation between finite numbers, or vectors of them, by real
    arithmetic. *)
Ltac fin_eq :=
  repeat match goal with
  | |- Fin _ = Fin _ => apply (f_equal Fin); first [ lra | field; lra | nra ]
  | |- vec3.mk _ _ _ = vec3.mk _ _ _ => apply f_equal3
  | |- Some _ = Some _ => apply f_equal
  | |- _ => reflexivity
  end.

Ltac split_ifs :=
  repeat match goal with
  | |- context [if ?c then _ else _] => destruct c
  end.

(** Establish [movable] and [two_body] for a concrete store and contact by
    reading off the fields. *)
Ltac movable_eval :=
  constructor;
  [ eexists; split; [reflexivity | lra]
  | eexists _, _, _; reflexivity
  | eexists _, _, _; reflexivity ].

Ltac two_body_eval :=
  constructor;
  [ eexists; split; [reflexivity | split; [discriminate | movable_eval]]
  | movable_eval
  | eexists _, _, _; split; [reflexivity | lra]
  | eexists; split; [reflexivity | lra]
  | eexists; reflexivity ].

(* ================================================================= *)
(** * Properties *)

(** ** Arithmetic on the exceptional values *)

Lemma add_NaN_r (a : num) : (a + NaN)%num = NaN.
Proof. destruct a; reflexivity. Qed.

Lemma add_NaN_l (a : num) : (NaN + a)%num = NaN.
Proof. reflexivity. Qed.

Lemma sub_NaN_r (a : num) : (a - NaN)%num = NaN.
Proof. destruct a; reflexivity. Qed.

Lemma sub_NaN_l (a : num) : (NaN - a)%num = NaN.
Proof. reflexivity. Qed.

Lemma mul_NaN_r (a : num) : (a * NaN)%num = NaN.
Proof. destruct a; reflexivity. Qed.

Lemma mul_NaN_l (a : num) : (NaN * a)%num = NaN.
Proof. reflexivity. Qed.

Lemma div_NaN_r (a : num) : (a / NaN)%num = NaN.
Proof. destruct a; reflexivity. Qed.

Lemma div_NaN_l (a : num) : (NaN / a)%num = NaN.
Proof. reflexivity. Qed.

(** The exceptional values arise as in JavaScript. *)
Example sqrt_of_negative : Math_sqrt (Fin (-5)) = NaN.
Proof. unfold Math_sqrt. decide_reals. reflexivity. Qed.

Example one_over_zero : (Fin 1 / Fin 0)%num = PInf.
Proof. unfold div. decide_reals. reflexivity. Qed.

Example zero_over_zero : (Fin 0 / Fin 0)%num = NaN.
Proof. unfold div. decide_reals. reflexivity. Qed.

Example infinity_minus_infinity : (PInf - PInf)%num = NaN.
Proof. reflexivity. Qed.

Example nothing_below_undefined (a : num) : (a <? toNumber None)%num = false.
Proof. destruct a; reflexivity. Qed.

Example index_past_the_end (m : mat3.t) : mat3.at_ m 9 = NaN.
Proof. reflexivity. Qed.

Create Rewrite HintDb nan.

#[local] Hint Rewrite add_NaN_r add_NaN_l sub_NaN_r sub_NaN_l
  mul_NaN_r mul_NaN_l div_NaN_r div_NaN_l : nan.

(** ** Comparisons of finite numbers *)

Lemma ltb_Fin (a b : R) : (Fin a <? Fin b)%num = true <-> a < b.
Proof. simpl. destruct (Rlt_dec a b); split; intros; try easy. Qed.

Lemma ltb_Fin_false (a b : R) : (Fin a <? Fin b)%num = false <-> b <= a.
Proof.
  simpl. destruct (Rlt_dec a b); split; intros; try easy; lra.
Qed.

Lemma leb_Fin (a b : R) : (Fin a <=? Fin b)%num = true <-> a <= b.
Proof. simpl. destruct (Rle_dec a b); split; intros; try easy. Qed.

Lemma leb_Fin_false (a b : R) : (Fin a <=? Fin b)%num = false <-> b < a.
Proof.
  simpl. destruct (Rle_dec a b); split; intros; try easy; lra.
Qed.

Lemma gtb_Fin (a b : R) : (Fin a >? Fin b)%num = true <-> b < a.
Proof. apply ltb_Fin. Qed.

Lemma gtb_Fin_false (a b : R) : (Fin a >? Fin b)%num = false <-> a <= b.
Proof. apply ltb_Fin_false. Qed.

Lemma geb_Fin (a b : R) : (Fin a >=? Fin b)%num = true <-> b <= a.
Proof. apply leb_Fin. Qed.

Lemma div_Fin (a b : R) : b <> 0 -> (Fin a / Fin b)%num = Fin (a / b).
Proof. intros Hb. simpl. destruct (Req_dec_T b 0); [contradiction | reflexivity]. Qed.

(** ** Finite mass *)

Lemma Particle_hasFiniteMass_spec (p : Particle.t) (m : R) :
  Particle.inverseMass p = Fin m ->
  (Particle.hasFiniteMass p = true <-> 0 <= m).
Proof.
  intros H. unfold Particle.hasFiniteMass. rewrite H. apply geb_Fin.
Qed.

(** C8. The claim has [hasFiniteMass()] false at [inverseMass == 0].  On a
    freshly constructed particle and on a freshly constructed rigid body,
    whose inverse mass is zero, the method returns [true], although
    [0 > 0] is false and [getMass()] reports [Infinity] for both. *)
Theorem hasFiniteMass_true_at_zero_inverse_mass :
  Particle.inverseMass Particle.new = Fin 0 /\
  Particle.hasFiniteMass Particle.new = true /\
  Particle.getMass Particle.new = PInf /\
  RigidBody.inverseMass RigidBody.new = Fin 0 /\
  RigidBody.hasFiniteMass RigidBody.new = true /\
  RigidBody.getMass RigidBody.new = PInf /\
  (Fin 0 >? Fin 0)%num = false.
Proof.
  unfold Particle.hasFiniteMass, Particle.getMass,
    RigidBody.hasFiniteMass, RigidBody.getMass.
  simpl. decide_reals. repeat split.
Qed.

(** ** Particle integration *)

Lemma integrate_acceleration (p : Particle.t) (duration : num) :
  Particle.acceleration (Particle.integrate p duration) =
  vec3.scaleAndAdd (Particle.acceleration p) (Particle.forceAccum p)
                   (Particle.inverseMass p).
Proof. reflexivity. Qed.

(** C6. The claim has [integrate] leave the stored acceleration as it
    was.  A unit particle with zero acceleration and a force of one along x
    in its accumulator comes out of [integrate(1)] with acceleration
    (1, 0, 0): the step acceleration was written into the field. *)
Theorem integrate_overwrites_acceleration :
  Particle.acceleration pushed_particle = vec3.fin 0 0 0 /\
  Particle.acceleration (Particle.integrate pushed_particle (Fin 1)) = vec3.fin 1 0 0 /\
  vec3.fin 1 0 0 <> vec3.fin 0 0 0.
Proof.
  split; [reflexivity | split].
  - rewrite integrate_acceleration. unfold vec3.scaleAndAdd, vec3.fin. simpl.
    fin_eq.
  - unfold vec3.fin. intros H. injection H as H. lra.
Qed.

(** ** Gravity generator *)

(** C7. The claim has the generator add gravity times mass and keep its
    own vector.  With gravity (0, -10, 0), a particle of mass two and a
    step of one half, the force added is (0, -5, 0), gravity times the
    duration, not the (0, -20, 0) of the claim, and the generator's vector
    is (0, -5, 0) afterwards. *)
Theorem gravity_updateForce_scales_by_duration :
  let '(g', p') := ParticleGravity.updateForce earth_gravity two_kilo_particle (Fin (1/2)) in
  Particle.getMass two_kilo_particle = Fin 2 /\
  vec3.scale (ParticleGravity.gravity earth_gravity) (Particle.getMass two_kilo_particle)
    = vec3.fin 0 (-20) 0 /\
  Particle.forceAccum p' = vec3.fin 0 (-5) 0 /\
  ParticleGravity.gravity g' = vec3.fin 0 (-5) 0 /\
  ParticleGravity.gravity g' <> ParticleGravity.gravity earth_gravity.
Proof.
  unfold ParticleGravity.updateForce, Particle.hasFiniteMass, Particle.getMass.
  simpl. decide_reals. simpl.
  unfold vec3.scale, vec3.add, vec3.fin. simpl. decide_reals.
  repeat split; try fin_eq.
  intros H. injection H as H. lra.
Qed.

(** ** A resolver straight from its constructor *)

Lemma iterate_NaN_limit fuel numContacts duration used h cs :
  ParticleContactResolver.iterate fuel NaN numContacts duration used h cs
  = Returned (used, h, cs).
Proof. destruct fuel; reflexivity. Qed.


(** ** Rigid-body sleep bookkeeping *)

Lemma Math_pow_exponent_one (b : R) : 0 < b -> Math_pow (Fin b) (Fin 1) = Fin b.
Proof.
  intros Hb. unfold Math_pow. decide_reals. now rewrite Rpower_1.
Qed.

Lemma updateSleep_isAwake (b : RigidBody.t) (duration : num) :
  RigidBody.isAwake (RigidBody.updateSleep b duration) = RigidBody.isAwake b.
Proof. unfold RigidBody.updateSleep, RigidBody.setAwake. split_ifs; reflexivity. Qed.

Lemma updateSleep_velocity (b : RigidBody.t) (duration : num) :
  RigidBody.velocity (RigidBody.updateSleep b duration) = RigidBody.velocity b.
Proof. unfold RigidBody.updateSleep, RigidBody.setAwake. split_ifs; reflexivity. Qed.

Lemma updateSleep_rotation (b : RigidBody.t) (duration : num) :
  RigidBody.rotation (RigidBody.updateSleep b duration) = RigidBody.rotation b.
Proof. unfold RigidBody.updateSleep, RigidBody.setAwake. split_ifs; reflexivity. Qed.

Lemma updateSleep_orientation (b : RigidBody.t) (duration : num) :
  RigidBody.orientation (RigidBody.updateSleep b duration) = RigidBody.orientation b.
Proof. unfold RigidBody.updateSleep, RigidBody.setAwake. split_ifs; reflexivity. Qed.

Lemma updateSleep_inverseInertiaTensorWorld (b : RigidBody.t) (duration : num) :
  RigidBody.inverseInertiaTensorWorld (RigidBody.updateSleep b duration)
  = RigidBody.inverseInertiaTensorWorld b.
Proof. unfold RigidBody.updateSleep, RigidBody.setAwake. split_ifs; reflexivity. Qed.

(** The stored motion after the bookkeeping: the old value, or the ceiling
    when the old value was above it.  The current motion does not enter. *)
Lemma updateSleep_motion (b : RigidBody.t) (duration : num) :
  RigidBody.motion (RigidBody.updateSleep b duration) =
  if RigidBody.canSleep b
     && negb (RigidBody.motion b <? RigidBody.sleepEpsilon)%num
     && (RigidBody.motion b >? Fin 10 * RigidBody.sleepEpsilon)%num
  then (Fin 10 * RigidBody.sleepEpsilon)%num
  else RigidBody.motion b.
Proof.
  unfold RigidBody.updateSleep, RigidBody.setAwake.
  destruct (RigidBody.canSleep b); [| reflexivity].
  destruct (RigidBody.motion b <? RigidBody.sleepEpsilon)%num; [reflexivity |].
  destruct (RigidBody.motion b >? Fin 10 * RigidBody.sleepEpsilon)%num; reflexivity.
Qed.

Lemma integrate_awake (b : RigidBody.t) (duration : num) :
  RigidBody.isAwake b = true ->
  RigidBody.integrate b duration =
  RigidBody.updateSleep
    (RigidBody.clearAccumulators
       (RigidBody.calculateDerivedData (RigidBody.advance b duration))) duration.
Proof. intros H. unfold RigidBody.integrate. now rewrite H. Qed.

Lemma integrate_isAwake (b : RigidBody.t) (duration : num) :
  RigidBody.isAwake (RigidBody.integrate b duration) = RigidBody.isAwake b.
Proof.
  destruct (RigidBody.isAwake b) eqn:Hawake.
  - rewrite integrate_awake by assumption. rewrite updateSleep_isAwake. exact Hawake.
  - unfold RigidBody.integrate. rewrite Hawake. exact Hawake.
Qed.

Lemma integrate_motion (b : RigidBody.t) (duration : num) :
  RigidBody.isAwake b = true ->
  RigidBody.motion (RigidBody.integrate b duration) =
  if RigidBody.canSleep b
     && negb (RigidBody.motion b <? RigidBody.sleepEpsilon)%num
     && (RigidBody.motion b >? Fin 10 * RigidBody.sleepEpsilon)%num
  then (Fin 10 * RigidBody.sleepEpsilon)%num
  else RigidBody.motion b.
Proof.
  intros Hawake. rewrite integrate_awake by assumption.
  now rewrite updateSleep_motion.
Qed.

Lemma integrate_velocity (b : RigidBody.t) (duration : num) :
  RigidBody.isAwake b = true ->
  RigidBody.velocity (RigidBody.integrate b duration) =
  vec3.scale
    (vec3.scaleAndAdd (RigidBody.velocity b)
       (vec3.scaleAndAdd (RigidBody.acceleration b) (RigidBody.forceAccum b)
                         (RigidBody.inverseMass b)) duration)
    (Math_pow (RigidBody.linearDamping b) duration).
Proof.
  intros Hawake. rewrite integrate_awake by assumption.
  now rewrite updateSleep_velocity.
Qed.

Lemma integrate_rotation (b : RigidBody.t) (duration : num) :
  RigidBody.isAwake b = true ->
  RigidBody.rotation (RigidBody.integrate b duration) =
  vec3.scale
    (vec3.scaleAndAdd (RigidBody.rotation b)
       (vec3_transformMat3 (RigidBody.torqueAccum b) (RigidBody.inverseInertiaTensorWorld b))
       duration)
    (Math_pow (RigidBody.angularDamping b) duration).
Proof.
  intros Hawake. rewrite integrate_awake by assumption.
  now rewrite updateSleep_rotation.
Qed.

(** C4. The claim has [integrate] store the blend of old and current
    motion and put the body to sleep, velocity zeroed, when the blend is
    under the threshold.  For an awake body that may sleep, drifting at 0.1
    with stored motion 0.1, the blend after [integrate(1)] is 0.055, under
    the threshold 0.3; the body comes out with its stored motion still 0.1,
    still awake, and still moving at 0.1. *)
Theorem integrate_keeps_stale_motion_and_stays_awake :
  let b' := RigidBody.integrate drifting_body (Fin 1) in
  RigidBody.isAwake drifting_body = true /\
  RigidBody.canSleep drifting_body = true /\
  blended_motion (RigidBody.motion drifting_body) b' (Fin 1) = Fin (11/200) /\
  (Fin (11/200) <? RigidBody.sleepEpsilon)%num = true /\
  RigidBody.motion b' = Fin (1/10) /\
  RigidBody.isAwake b' = true /\
  RigidBody.velocity b' = vec3.fin (1/10) 0 0.
Proof.
  assert (Hv : RigidBody.velocity (RigidBody.integrate drifting_body (Fin 1))
               = vec3.fin (1/10) 0 0).
  { rewrite integrate_velocity by reflexivity.
    cbn [drifting_body RigidBody.linearDamping].
    rewrite Math_pow_exponent_one by lra.
    unfold vec3.scale, vec3.scaleAndAdd, vec3.fin. simpl. fin_eq. }
  assert (Hr : RigidBody.rotation (RigidBody.integrate drifting_body (Fin 1))
               = vec3.fin 0 0 0).
  { rewrite integrate_rotation by reflexivity.
    cbn [drifting_body RigidBody.angularDamping].
    rewrite Math_pow_exponent_one by lra.
    unfold vec3.scale, vec3.scaleAndAdd, vec3_transformMat3, vec3.fin. simpl. fin_eq. }
  cbv zeta. repeat split.
  - unfold blended_motion. rewrite Hv, Hr.
    rewrite Math_pow_exponent_one by lra.
    unfold vec3.dot, vec3.fin. simpl. fin_eq.
  - apply ltb_Fin. lra.
  - rewrite integrate_motion by reflexivity. simpl. decide_reals. reflexivity.
  - now rewrite integrate_isAwake.
  - exact Hv.
Qed.

(** ** Fake spring *)

Lemma fakeSpring_negative_discriminant
  (s : ParticleFakeSpring.t) (p : Particle.t) (duration : num) (d : R) :
  ParticleFakeSpring.discriminant s = Fin d -> d < 0 ->
  Particle.hasFiniteMass p = true ->
  Particle.forceAccum (ParticleFakeSpring.updateForce s p duration)
  = vec3.mk NaN NaN NaN.
Proof.
  intros Hd Hneg Hfin. unfold ParticleFakeSpring.updateForce.
  rewrite Hfin, Hd. cbn [negb]. unfold Math_sqrt.
  destruct (Rlt_dec d 0) as [_ | Hge]; [| lra].
  rewrite mul_NaN_r. cbn [eqb].
  unfold Particle.addForce, vec3.add, vec3.sub, vec3.scale, vec3.clone.
  cbn [Particle.forceAccum Particle.set_forceAccum vec3.x vec3.y vec3.z].
  autorewrite with nan. cbn [Math_cos]. autorewrite with nan.
  reflexivity.
Qed.

Lemma fakeSpring_zero_discriminant
  (s : ParticleFakeSpring.t) (p : Particle.t) (duration : num) :
  ParticleFakeSpring.discriminant s = Fin 0 ->
  ParticleFakeSpring.updateForce s p duration = p.
Proof.
  intros Hd. unfold ParticleFakeSpring.updateForce. rewrite Hd.
  destruct (Particle.hasFiniteMass p); cbn [negb]; [| reflexivity].
  unfold Math_sqrt. destruct (Rlt_dec 0 0) as [Hlt | _]; [lra |].
  rewrite sqrt_0. simpl. decide_reals. reflexivity.
Qed.

(** C9. The claim has [updateForce] do nothing whenever the discriminant
    [4 * springConstant - damping^2] is not positive.  With spring constant
    1 and damping 3 the discriminant is -5; on a unit particle with an empty
    accumulator the call returns normally and leaves every component of
    [forceAccum] [NaN]: the square root of the negative discriminant is
    [NaN], which the test [gamma === 0] lets through. *)
Theorem fakeSpring_poisons_force_when_discriminant_negative :
  ParticleFakeSpring.discriminant overdamped_spring = Fin (-5) /\
  Particle.hasFiniteMass displaced_particle = true /\
  Particle.forceAccum displaced_particle = vec3.fin 0 0 0 /\
  Particle.forceAccum
    (ParticleFakeSpring.updateForce overdamped_spring displaced_particle (Fin 1))
  = vec3.mk NaN NaN NaN.
Proof.
  assert (Hd : ParticleFakeSpring.discriminant overdamped_spring = Fin (-5)).
  { unfold ParticleFakeSpring.discriminant. simpl. fin_eq. }
  assert (Hf : Particle.hasFiniteMass displaced_particle = true).
  { apply (Particle_hasFiniteMass_spec displaced_particle 1); [reflexivity | lra]. }
  repeat split; try assumption.
  apply (fakeSpring_negative_discriminant _ _ _ _ Hd); [lra | exact Hf].
Qed.

(** ** Orientation of a rigid body *)

Lemma transformInertiaTensor_last_row (q : quat.t) (iitBody : mat3.t) (rotmat : mat4.t) :
  last_row_NaN (RigidBody._transformInertiaTensor q iitBody rotmat).
Proof.
  unfold last_row_NaN, RigidBody._transformInertiaTensor.
  cbn [mat3.m6 mat3.m7 mat3.m8 mat3.at_].
  autorewrite with nan. repeat split.
Qed.

Lemma calculateDerivedData_last_row (b : RigidBody.t) :
  last_row_NaN (RigidBody.inverseInertiaTensorWorld (RigidBody.calculateDerivedData b)).
Proof. apply transformInertiaTensor_last_row. Qed.

Lemma integrate_last_row (b : RigidBody.t) (duration : num) :
  RigidBody.isAwake b = true ->
  last_row_NaN (RigidBody.inverseInertiaTensorWorld (RigidBody.integrate b duration)).
Proof.
  intros Hawake. rewrite integrate_awake by assumption.
  rewrite updateSleep_inverseInertiaTensorWorld.
  apply transformInertiaTensor_last_row.
Qed.

Lemma transformMat3_last_row (a : vec3.t) (m : mat3.t) :
  last_row_NaN m -> vec3_transformMat3 a m = vec3.mk NaN NaN NaN.
Proof.
  intros (H6 & H7 & H8). unfold vec3_transformMat3. cbn [mat3.at_].
  rewrite H6, H7, H8. autorewrite with nan. reflexivity.
Qed.

Lemma normalize_NaN : quat.normalize quat_NaN = quat_NaN.
Proof. reflexivity. Qed.

Lemma integrate_orientation_NaN (b : RigidBody.t) (duration : num) :
  RigidBody.isAwake b = true ->
  last_row_NaN (RigidBody.inverseInertiaTensorWorld b) ->
  RigidBody.orientation (RigidBody.integrate b duration) = quat_NaN.
Proof.
  intros Hawake Hrow. rewrite integrate_awake by assumption.
  rewrite updateSleep_orientation.
  unfold RigidBody.clearAccumulators, RigidBody.calculateDerivedData, RigidBody.advance.
  cbn [RigidBody.orientation].
  rewrite (transformMat3_last_row _ _ Hrow).
  unfold QuatUtils.addScaledVector, quat.fromValues, quat.mul, vec3.scale,
    vec3.scaleAndAdd.
  cbn [vec3.x vec3.y vec3.z quat.x quat.y quat.z quat.w].
  autorewrite with nan. apply normalize_NaN.
Qed.

(** Two steps of any body that [addForce] has woken leave an orientation
    whose four components are [NaN]. *)
Lemma two_steps_orientation_NaN (b : RigidBody.t) (force : vec3.t) (d1 d2 : num) :
  RigidBody.orientation
    (RigidBody.integrate (RigidBody.integrate (RigidBody.addForce b force) d1) d2)
  = quat_NaN.
Proof.
  apply integrate_orientation_NaN.
  - rewrite integrate_isAwake. reflexivity.
  - apply integrate_last_row. reflexivity.
Qed.

(** C5. The claim has the orientation of unit norm after any sequence of
    [integrate] calls.  A freshly constructed body woken by a zero force
    and stepped twice by one second has the orientation
    (NaN, NaN, NaN, NaN): its norm is [NaN], within no tolerance of 1, and
    a further [calculateDerivedData] leaves it so. *)
Theorem orientation_NaN_after_two_steps :
  let b := RigidBody.integrate
             (RigidBody.integrate (RigidBody.addForce RigidBody.new vec3.zero) (Fin 1))
             (Fin 1) in
  RigidBody.orientation b = quat_NaN /\
  quat.length (RigidBody.orientation b) = NaN /\
  (forall tol, ~ near tol (quat.length (RigidBody.orientation b)) (Fin 1)) /\
  RigidBody.orientation (RigidBody.calculateDerivedData b) = quat_NaN.
Proof.
  cbv zeta. rewrite two_steps_orientation_NaN.
  split; [reflexivity | split; [reflexivity | split]].
  - intros tol (x & y & Hx & _). discriminate Hx.
  - unfold RigidBody.calculateDerivedData. cbn [RigidBody.orientation].
    rewrite two_steps_orientation_NaN. reflexivity.
Qed.

(** ** Resolution of one two-body contact *)

(** *** The store *)

Lemma upd_same (h : store) r p : upd h r p r = p.
Proof. unfold upd. now rewrite Nat.eqb_refl. Qed.

Lemma upd_other (h : store) r p r' : r' <> r -> upd h r p r' = h r'.
Proof. intros H. unfold upd. apply Nat.eqb_neq in H. now rewrite H. Qed.

(** The separating velocity aimed at after the bounce is never negative
    for a contact that is not separating. *)
Lemma target_velocity_nonneg (s e acc : R) :
  s <= 0 -> 0 <= e ->
  exists ns,
    (if (Fin acc <? Fin 0)%num
     then if (Fin (- s * e + e * acc) <? Fin 0)%num then Fin 0 else Fin (- s * e + e * acc)
     else Fin (- s * e)) = Fin ns /\ 0 <= ns.
Proof.
  intros Hs He. simpl. decide_reals; eexists; (split; [reflexivity | nra]).
Qed.

Lemma setVelocity_id (p : Particle.t) : Particle.setVelocity p (Particle.velocity p) = p.
Proof. destruct p; reflexivity. Qed.

Lemma setPosition_id (p : Particle.t) : Particle.setPosition p (Particle.position p) = p.
Proof. destruct p; reflexivity. Qed.

Lemma sub_Fin (a b : R) : (Fin a - Fin b)%num = Fin (a - b).
Proof. reflexivity. Qed.

(** [resolveVelocity] on a two-body contact rewrites the velocities of its
    two particles and nothing else, and leaves a separating velocity that
    is not negative. *)
Lemma resolveVelocity_two_body (h : store) (c : ParticleContact.t) (d : R) :
  two_body h c ->
  exists q va vq s',
    ParticleContact.particles1 c = Some q /\
    (forall r, ParticleContact.resolveVelocity c (Fin d) h r =
       if Nat.eqb r q then Particle.setVelocity (h q) vq
       else if Nat.eqb r (ParticleContact.particles0 c)
            then Particle.setVelocity (h (ParticleContact.particles0 c)) va
            else h r) /\
    vfin va /\ vfin vq /\
    vec3.dot (vec3.sub va vq) (ParticleContact.contactNormal c) = Fin s' /\ 0 <= s'.
Proof.
  intros [ (q & Hq & Hne & [ (mq & Hmq & Hmqpos) (vqx & vqy & vqz & Hvq) (aqx & aqy & aqz & Haq) ])
           [ (ma & Hma & Hmapos) (vax & vay & vaz & Hva) (aax & aay & aaz & Haa) ]
           (nx & ny & nz & Hn & Hunit) (e & He & Hepos) (p & Hp) ].
  exists q.
  unfold ParticleContact.resolveVelocity.
  assert (Hsep : ParticleContact.calculateSeparatingVelocity c h
                 = Fin ((vax + - vqx) * nx + (vay + - vqy) * ny + (vaz + - vqz) * nz)).
  { unfold ParticleContact.calculateSeparatingVelocity, Particle.getVelocity, vec3.clone.
    rewrite Hq, Hva, Hvq, Hn. reflexivity. }
  rewrite Hsep.
  set (s := (vax + - vqx) * nx + (vay + - vqy) * ny + (vaz + - vqz) * nz) in *.
  destruct (Rlt_dec 0 s) as [Hpos | Hneg].
  - rewrite (proj2 (gtb_Fin s 0) Hpos).
    exists (vec3.fin vax vay vaz), (vec3.fin vqx vqy vqz), s.
    split; [exact Hq | split; [| repeat split]].
    + intros r. rewrite <- Hva, <- Hvq, !setVelocity_id.
      destruct (Nat.eqb r q) eqn:Erq;
        [apply Nat.eqb_eq in Erq; now subst r |].
      destruct (Nat.eqb r (ParticleContact.particles0 c)) eqn:Era;
        [apply Nat.eqb_eq in Era; now subst r | reflexivity].
    + now exists vax, vay, vaz.
    + now exists vqx, vqy, vqz.
    + rewrite Hn. reflexivity.
    + lra.
  - rewrite (proj2 (gtb_Fin_false s 0)) by lra.
    assert (Htot : ParticleContact.totalInverseMass c h = Fin (ma + mq)).
    { unfold ParticleContact.totalInverseMass, Particle.getInverseMass.
      rewrite Hq, Hma, Hmq. reflexivity. }
    rewrite Htot. rewrite (proj2 (leb_Fin_false (ma + mq) 0)) by lra.
    rewrite Hq. unfold Particle.getAcceleration, Particle.getVelocity,
      Particle.getInverseMass, vec3.clone.
    rewrite Haa, Haq, Hn, He, Hma, Hva.
    rewrite upd_other by exact Hne. rewrite Hvq, Hmq.
    unfold vec3.sub, vec3.dot, vec3.fin.
    cbn [vec3.x vec3.y vec3.z sub add mul neg].
    fold s.
    assert (Hs : s <= 0) by lra.
    destruct (target_velocity_nonneg s e
                (((aax + - aqx) * nx + (aay + - aqy) * ny + (aaz + - aqz) * nz) * d)
                Hs Hepos) as (ns & Hns & Hnspos).
    rewrite Hns. rewrite sub_Fin, div_Fin by lra.
    unfold vec3.scaleAndAdd, vec3.scale.
    cbn [vec3.x vec3.y vec3.z sub add mul neg].
    set (imp := (ns - s) / (ma + mq)).
    exists (vec3.fin (vax + nx * imp * ma) (vay + ny * imp * ma) (vaz + nz * imp * ma)),
           (vec3.fin (vqx + nx * imp * - mq) (vqy + ny * imp * - mq) (vqz + nz * imp * - mq)),
           ns.
    split; [reflexivity | split; [| repeat split]].
    + intros r. unfold upd. reflexivity.
    + now eexists _, _, _.
    + now eexists _, _, _.
    + unfold vec3.fin. cbn [vec3.x vec3.y vec3.z sub add mul neg].
      apply f_equal.
      transitivity (s + imp * (ma + mq) * (nx * nx + ny * ny + nz * nz)).
      * unfold s. ring.
      * rewrite Hunit. unfold imp. field. lra.
    + exact Hnspos.
Qed.

(** *** Position correction *)

Lemma resolveInterpenetration_skips (h : store) (c : ParticleContact.t) (d : num) (p : R) :
  ParticleContact.penetration c = Fin p -> p <= 0 ->
  ParticleContact.resolveInterpenetration c d h = Returned (h, c).
Proof.
  intros Hp Hle. unfold ParticleContact.resolveInterpenetration.
  rewrite Hp. now rewrite (proj2 (leb_Fin p 0) Hle).
Qed.

(** With an overlap [p], the two recorded movements [m0], [m1] satisfy
    [p - m0.n + m1.n = 0]; only the positions of the two particles change. *)
Lemma resolveInterpenetration_two_body
  (h : store) (c : ParticleContact.t) (d : num) (p : R) :
  two_body h c ->
  ParticleContact.penetration c = Fin p -> 0 < p ->
  exists q h2 m0 m1 x0 x1,
    ParticleContact.particles1 c = Some q /\
    ParticleContact.resolveInterpenetration c d h =
      Returned
        (h2,
         ParticleContact.set_particleMovement1
           (ParticleContact.set_particleMovement0 c (Some m0)) (Some m1)) /\
    (forall r, h2 r =
       if Nat.eqb r q
       then Particle.setPosition (h q) (vec3.add (Particle.position (h q)) m1)
       else if Nat.eqb r (ParticleContact.particles0 c)
            then Particle.setPosition (h (ParticleContact.particles0 c))
                   (vec3.add (Particle.position (h (ParticleContact.particles0 c))) m0)
            else h r) /\
    vec3.dot m0 (ParticleContact.contactNormal c) = Fin x0 /\
    vec3.dot m1 (ParticleContact.contactNormal c) = Fin x1 /\
    p - x0 + x1 = 0.
Proof.
  intros [ (q & Hq & Hne & [ (mq & Hmq & Hmqpos) _ _ ])
           [ (ma & Hma & Hmapos) _ _ ]
           (nx & ny & nz & Hn & Hunit) _ _ ] Hp Hpos.
  unfold ParticleContact.resolveInterpenetration.
  rewrite Hp. rewrite (proj2 (leb_Fin_false p 0)) by lra.
  assert (Htot : ParticleContact.totalInverseMass c h = Fin (ma + mq)).
  { unfold ParticleContact.totalInverseMass, Particle.getInverseMass.
    rewrite Hq, Hma, Hmq. reflexivity. }
  rewrite Htot. rewrite (proj2 (leb_Fin_false (ma + mq) 0)) by lra.
  cbn [ParticleContact.particles1 ParticleContact.set_particleMovement0
       ParticleContact.set_particleMovement1 ParticleContact.particles0].
  rewrite Hq. cbn [obind].
  unfold Particle.getInverseMass, Particle.getPosition. rewrite Hma, Hmq, Hn.
  rewrite div_Fin by lra.
  unfold vec3.scale, vec3.fin. cbn [vec3.x vec3.y vec3.z mul neg].
  set (k := p / (ma + mq)).
  exists q. eexists.
  exists (vec3.fin (nx * k * ma) (ny * k * ma) (nz * k * ma)),
    (vec3.fin (nx * k * - mq) (ny * k * - mq) (nz * k * - mq)),
    (k * ma * (nx * nx + ny * ny + nz * nz)),
    (- (k * mq * (nx * nx + ny * ny + nz * nz))).
  split; [reflexivity | split; [reflexivity | split; [| split; [| split]]]].
  - intros r.
    cbn [ParticleContact.particles1 ParticleContact.set_particleMovement0
         ParticleContact.set_particleMovement1 ParticleContact.particles0].
    rewrite Hq. unfold upd. destruct (Nat.eqb r q); [| reflexivity].
    apply Nat.eqb_neq in Hne. rewrite Hne. reflexivity.
  - unfold vec3.dot, vec3.fin. cbn [vec3.x vec3.y vec3.z mul add]. apply f_equal. ring.
  - unfold vec3.dot, vec3.fin. cbn [vec3.x vec3.y vec3.z mul add]. apply f_equal. ring.
  - rewrite Hunit. unfold k. field. lra.
Qed.

(** *** The loop body on the resolved contact and on unrelated ones *)

Lemma update_one_self (c : ParticleContact.t) (q : ref) (m0 m1 : vec3.t) :
  ParticleContact.particles1 c = Some q ->
  q <> ParticleContact.particles0 c ->
  ParticleContact.particleMovement0 c = Some m0 ->
  ParticleContact.particleMovement1 c = Some m1 ->
  ParticleContactResolver.update_one c c =
  Returned
    (ParticleContact.set_penetration c
       (ParticleContact.penetration c
        - vec3.dot m0 (ParticleContact.contactNormal c)
        + vec3.dot m1 (ParticleContact.contactNormal c))%num).
Proof.
  intros Hq Hne H0 H1. unfold ParticleContactResolver.update_one.
  rewrite Nat.eqb_refl, H0, H1.
  unfold ParticleContactResolver.decrease, ParticleContactResolver.dot_move.
  cbn [obind ParticleContact.particles1 ParticleContact.set_penetration
       ParticleContact.particles0].
  rewrite Hq. unfold same_particle.
  assert (Hqa : Nat.eqb q (ParticleContact.particles0 c) = false)
    by now apply Nat.eqb_neq.
  assert (Haq : Nat.eqb (ParticleContact.particles0 c) q = false)
    by (apply Nat.eqb_neq; congruence).
  rewrite Hqa, Haq, Nat.eqb_refl. cbn [obind].
  reflexivity.
Qed.

Lemma update_one_apart (resolved c : ParticleContact.t) :
  (forall r, In r (endpoints c) -> ~ In r (endpoints resolved)) ->
  ParticleContactResolver.update_one resolved c = Returned c.
Proof.
  intros Hapart. unfold ParticleContactResolver.update_one.
  assert (Hmiss : forall r, In r (endpoints c) ->
            Nat.eqb r (ParticleContact.particles0 resolved) = false /\
            same_particle r (ParticleContact.particles1 resolved) = false).
  { intros r Hr. specialize (Hapart r Hr). unfold endpoints in Hapart.
    split.
    - apply Nat.eqb_neq. intros ->. apply Hapart. now left.
    - unfold same_particle. destruct (ParticleContact.particles1 resolved) as [y |];
        [| reflexivity].
      apply Nat.eqb_neq. intros ->. apply Hapart. right. now left. }
  destruct (Hmiss (ParticleContact.particles0 c)) as [E0 E1]; [now left |].
  rewrite E0, E1. cbn [obind].
  destruct (ParticleContact.particles1 c) as [y |] eqn:Hy; [| reflexivity].
  destruct (Hmiss y) as [F0 F1].
  { unfold endpoints. rewrite Hy. right. now left. }
  rewrite F0, E1, F1. reflexivity.
Qed.

Lemma endpoints_two (c : ParticleContact.t) (q : ref) :
  ParticleContact.particles1 c = Some q ->
  endpoints c = [ParticleContact.particles0 c; q].
Proof. intros H. unfold endpoints. now rewrite H. Qed.

Lemma separatingVelocity_two (h : store) (c : ParticleContact.t) (q : ref) :
  ParticleContact.particles1 c = Some q ->
  ParticleContact.calculateSeparatingVelocity c h =
  vec3.dot (vec3.sub (Particle.velocity (h (ParticleContact.particles0 c)))
                     (Particle.velocity (h q)))
           (ParticleContact.contactNormal c).
Proof.
  intros H. unfold ParticleContact.calculateSeparatingVelocity. now rewrite H.
Qed.

Lemma two_body_preserved (h h' : store) (c c' : ParticleContact.t) :
  two_body h c ->
  ParticleContact.particles0 c' = ParticleContact.particles0 c ->
  ParticleContact.particles1 c' = ParticleContact.particles1 c ->
  ParticleContact.contactNormal c' = ParticleContact.contactNormal c ->
  ParticleContact.restitution c' = ParticleContact.restitution c ->
  (exists p, ParticleContact.penetration c' = Fin p) ->
  (forall r, In r (endpoints c) ->
     Particle.inverseMass (h' r) = Particle.inverseMass (h r) /\
     Particle.acceleration (h' r) = Particle.acceleration (h r) /\
     vfin (Particle.velocity (h' r))) ->
  two_body h' c'.
Proof.
  intros [ (q & Hq & Hne & [Hmq _ Haq]) [Hma _ Haa] Hn He _ ] E0 E1 En Ee Hp Hstore.
  assert (Hin0 : In (ParticleContact.particles0 c) (endpoints c)) by now left.
  assert (Hin1 : In q (endpoints c)).
  { rewrite (endpoints_two c q Hq). right. now left. }
  destruct (Hstore _ Hin0) as (Im0 & Ia0 & Iv0).
  destruct (Hstore _ Hin1) as (Im1 & Ia1 & Iv1).
  constructor.
  - exists q. rewrite E1, E0. repeat split; try assumption.
    + now rewrite Im1.
    + now rewrite Ia1.
  - rewrite E0. constructor; try assumption.
    + now rewrite Im0.
    + now rewrite Ia0.
  - now rewrite En.
  - now rewrite Ee.
  - exact Hp.
Qed.

(** Resolving a two-body contact whose movement is ready, then running
    the loop body on it, settles it and touches no other particle. *)
Lemma resolve_step (h : store) (c : ParticleContact.t) (d : R) :
  two_body h c -> movement_ready c ->
  exists h' c1 c2,
    ParticleContact.resolve c (Fin d) h = Returned (h', c1) /\
    ParticleContactResolver.update_one c1 c1 = Returned c2 /\
    endpoints c1 = endpoints c /\ endpoints c2 = endpoints c /\
    (forall r, ~ In r (endpoints c) -> h' r = h r) /\
    two_body h' c2 /\ settled h' c2.
Proof.
  intros Hwf Hready.
  destruct (resolveVelocity_two_body h c d Hwf)
    as (q & va & vq & s' & Hq & Hv & Hva & Hvq & Hs' & Hs'pos).
  set (hv := ParticleContact.resolveVelocity c (Fin d) h) in *.
  pose proof Hwf as [ (q' & Hq' & Hne & _) _ (nx & ny & nz & Hn & Hunit) _ (p & Hp) ].
  rewrite Hq in Hq'. injection Hq' as <-.
  assert (Hqa : Nat.eqb q (ParticleContact.particles0 c) = false)
    by now apply Nat.eqb_neq.
  assert (Haq : Nat.eqb (ParticleContact.particles0 c) q = false)
    by (apply Nat.eqb_neq; congruence).
  assert (Hhvq : hv q = Particle.setVelocity (h q) vq).
  { rewrite Hv. now rewrite Nat.eqb_refl. }
  assert (Hhva : hv (ParticleContact.particles0 c)
                 = Particle.setVelocity (h (ParticleContact.particles0 c)) va).
  { rewrite Hv. now rewrite Haq, Nat.eqb_refl. }
  assert (Hhv_other : forall r, ~ In r (endpoints c) -> hv r = h r).
  { intros r Hr. rewrite Hv. rewrite (endpoints_two c q Hq) in Hr.
    destruct (Nat.eqb r q) eqn:E1;
      [apply Nat.eqb_eq in E1; subst r; exfalso; apply Hr; right; now left |].
    destruct (Nat.eqb r (ParticleContact.particles0 c)) eqn:E0;
      [apply Nat.eqb_eq in E0; subst r; exfalso; apply Hr; now left | reflexivity]. }
  assert (Hhv_in : forall r, In r (endpoints c) ->
            Particle.inverseMass (hv r) = Particle.inverseMass (h r) /\
            Particle.acceleration (hv r) = Particle.acceleration (h r) /\
            vfin (Particle.velocity (hv r))).
  { intros r Hr. rewrite (endpoints_two c q Hq) in Hr.
    destruct Hr as [<- | [<- | []]].
    - rewrite Hhva. repeat split. exact Hva.
    - rewrite Hhvq. repeat split. exact Hvq. }
  assert (Hwfv : two_body hv c).
  { apply (two_body_preserved h hv c c Hwf); try reflexivity; [now exists p | exact Hhv_in]. }
  assert (Hsepv : ParticleContact.calculateSeparatingVelocity c hv = Fin s').
  { rewrite (separatingVelocity_two hv c q Hq). rewrite Hhva, Hhvq. exact Hs'. }
  unfold ParticleContact.resolve. fold hv.
  destruct (Rle_dec p 0) as [Hple | Hpgt].
  - (* nothing to push apart: the zeroed movements are read *)
    destruct Hready as [[Hz0 Hz1] | (p' & Hp' & Hp'pos)];
      [| rewrite Hp in Hp'; injection Hp' as <-; lra].
    rewrite (resolveInterpenetration_skips hv c (Fin d) p Hp Hple).
    eexists _, _, _. split; [reflexivity |].
    split; [exact (update_one_self c q _ _ Hq Hne Hz0 Hz1) |].
    split; [reflexivity | split; [reflexivity |]].
    split; [exact Hhv_other |].
    assert (Hpen : (ParticleContact.penetration c
                    - vec3.dot vec3.zero (ParticleContact.contactNormal c)
                    + vec3.dot vec3.zero (ParticleContact.contactNormal c))%num
                   = Fin p).
    { rewrite Hp, Hn. unfold vec3.dot, vec3.zero, vec3.fin.
      cbn [vec3.x vec3.y vec3.z mul add sub neg]. apply f_equal. ring. }
    rewrite Hpen. split.
    + apply (two_body_preserved hv hv c _ Hwfv); try reflexivity; [now exists p |].
      intros r Hr. destruct (Hhv_in r Hr) as (_ & _ & Hfin). now repeat split.
    + exists s', p. repeat split; assumption.
  - assert (Hppos : 0 < p) by lra.
    destruct (resolveInterpenetration_two_body hv c (Fin d) p Hwfv Hp Hppos)
      as (q' & h2 & m0 & m1 & x0 & x1 & Hq' & Hres & Hh2 & Hx0 & Hx1 & Hsum).
    rewrite Hq in Hq'. injection Hq' as <-.
    rewrite Hres.
    set (c1 := ParticleContact.set_particleMovement1
                 (ParticleContact.set_particleMovement0 c (Some m0)) (Some m1)).
    eexists _, _, _. split; [reflexivity |].
    split; [exact (update_one_self c1 q m0 m1 Hq Hne eq_refl eq_refl) |].
    split; [reflexivity | split; [reflexivity |]].
    assert (Hpen : (ParticleContact.penetration c1
                    - vec3.dot m0 (ParticleContact.contactNormal c1)
                    + vec3.dot m1 (ParticleContact.contactNormal c1))%num
                   = Fin 0).
    { cbn [c1 ParticleContact.penetration ParticleContact.contactNormal
           ParticleContact.set_particleMovement0 ParticleContact.set_particleMovement1].
      rewrite Hp, Hx0, Hx1. cbn [sub add neg]. apply f_equal. lra. }
    rewrite Hpen.
    assert (Hh2q : h2 q = Particle.setPosition (hv q)
                            (vec3.add (Particle.position (hv q)) m1)).
    { rewrite Hh2. now rewrite Nat.eqb_refl. }
    assert (Hh2a : h2 (ParticleContact.particles0 c)
                   = Particle.setPosition (hv (ParticleContact.particles0 c))
                       (vec3.add (Particle.position (hv (ParticleContact.particles0 c))) m0)).
    { rewrite Hh2. now rewrite Haq, Nat.eqb_refl. }
    split; [| split].
    + intros r Hr. rewrite Hh2. rewrite <- (Hhv_other r Hr).
      rewrite (endpoints_two c q Hq) in Hr.
      destruct (Nat.eqb r q) eqn:E1;
        [apply Nat.eqb_eq in E1; subst r; exfalso; apply Hr; right; now left |].
      destruct (Nat.eqb r (ParticleContact.particles0 c)) eqn:E0;
        [apply Nat.eqb_eq in E0; subst r; exfalso; apply Hr; now left | reflexivity].
    + apply (two_body_preserved hv h2 c _ Hwfv); try reflexivity; [now exists 0 |].
      intros r Hr. destruct (Hhv_in r Hr) as (_ & _ & Hfin).
      rewrite (endpoints_two c q Hq) in Hr.
      destruct Hr as [<- | [<- | []]].
      * rewrite Hh2a. now repeat split.
      * rewrite Hh2q. now repeat split.
    + exists s', 0. repeat split; try assumption; try lra.
      rewrite <- Hsepv.
      rewrite (separatingVelocity_two h2 _ q) by exact Hq.
      rewrite (separatingVelocity_two hv c q Hq).
      cbn [c1 ParticleContact.particles0 ParticleContact.contactNormal
           ParticleContact.set_penetration
           ParticleContact.set_particleMovement0 ParticleContact.set_particleMovement1].
      rewrite Hh2a, Hh2q. reflexivity.
Qed.

(** *** Settled contacts and the test of the search loop *)

Lemma settled_needs_nothing (h : store) (c : ParticleContact.t) :
  settled h c -> needs_resolving h c = false.
Proof.
  intros (s & p & Hs & Hspos & Hp & Hple). unfold needs_resolving.
  rewrite Hs, Hp.
  rewrite (proj2 (ltb_Fin_false s 0) Hspos), (proj2 (gtb_Fin_false p 0) Hple).
  reflexivity.
Qed.

Lemma two_body_separatingVelocity (h : store) (c : ParticleContact.t) :
  two_body h c -> exists s, ParticleContact.calculateSeparatingVelocity c h = Fin s.
Proof.
  intros [ (q & Hq & _ & [_ (vqx & vqy & vqz & Hvq) _]) [_ (vax & vay & vaz & Hva) _]
           (nx & ny & nz & Hn & _) _ _ ].
  rewrite (separatingVelocity_two h c q Hq), Hva, Hvq, Hn.
  eexists. reflexivity.
Qed.

Lemma nothing_needed_settled (h : store) (c : ParticleContact.t) :
  two_body h c -> needs_resolving h c = false -> settled h c.
Proof.
  intros Hwf Hno. destruct (two_body_separatingVelocity h c Hwf) as (s & Hs).
  destruct (two_body_penetration h c Hwf) as (p & Hp).
  unfold needs_resolving in Hno. rewrite Hs, Hp in Hno.
  apply orb_false_iff in Hno. destruct Hno as [H1 H2].
  exists s, p. repeat split; try assumption.
  - now apply ltb_Fin_false.
  - now apply gtb_Fin_false.
Qed.

Lemma two_body_same_store (h h' : store) (c : ParticleContact.t) :
  two_body h c -> (forall r, In r (endpoints c) -> h' r = h r) -> two_body h' c.
Proof.
  intros Hwf Hsame.
  apply (two_body_preserved h h' c c Hwf); try reflexivity.
  - exact (two_body_penetration h c Hwf).
  - intros r Hr. rewrite (Hsame r Hr). repeat split.
    destruct Hwf as [ (q & Hq & _ & [_ Hvq _]) [_ Hva _] _ _ _ ].
    rewrite (endpoints_two c q Hq) in Hr.
    destruct Hr as [<- | [<- | []]]; assumption.
Qed.

Lemma separatingVelocity_same_store (h h' : store) (c : ParticleContact.t) :
  (forall r, In r (endpoints c) -> h' r = h r) ->
  ParticleContact.calculateSeparatingVelocity c h'
  = ParticleContact.calculateSeparatingVelocity c h.
Proof.
  intros Hsame. unfold ParticleContact.calculateSeparatingVelocity.
  rewrite (Hsame (ParticleContact.particles0 c)) by now left.
  destruct (ParticleContact.particles1 c) as [q |] eqn:Hq; [| reflexivity].
  rewrite (Hsame q); [reflexivity |].
  unfold endpoints. rewrite Hq. right. now left.
Qed.

Lemma resolvable_same_store (h h' : store) (c : ParticleContact.t) :
  (forall r, In r (endpoints c) -> h' r = h r) ->
  resolvable h c -> resolvable h' c /\ needs_resolving h' c = needs_resolving h c.
Proof.
  intros Hsame [Hwf Hor].
  pose proof (separatingVelocity_same_store h h' c Hsame) as Hsep.
  split; [split |].
  - now apply (two_body_same_store h).
  - destruct Hor as [Hz | (s & p & Hs & Hspos & Hp & Hple)]; [now left | right].
    exists s, p. rewrite Hsep. now repeat split.
  - unfold needs_resolving. now rewrite Hsep.
Qed.

(** *** The search loop *)

(** The search returns the index it started with or the index of a
    contact that needs resolving. *)
Lemma scan_range (h : store) (n : nat) (cs : list ParticleContact.t) :
  forall (i : nat) (max : num) (mi : nat),
    let r := ParticleContactResolver.scan cs i n h max mi in
    r = mi \/
    ((i <= r)%nat /\ (r < i + length cs)%nat /\ (r < n)%nat /\
     exists c, nth_error cs (r - i) = Some c /\ needs_resolving h c = true).
Proof.
  induction cs as [| c rest IH]; intros i max mi; cbn [ParticleContactResolver.scan].
  - now left.
  - destruct (Nat.ltb i n) eqn:Hin; [| now left].
    apply Nat.ltb_lt in Hin.
    set (sepVel := ParticleContact.calculateSeparatingVelocity c h).
    assert (Hlater : forall r, (S i <= r)%nat -> (r < S i + length rest)%nat ->
              forall c', nth_error rest (r - S i) = Some c' ->
              (i <= r)%nat /\ (r < i + length (c :: rest))%nat /\
              nth_error (c :: rest) (r - i) = Some c').
    { intros r H1 H2 c' Hc'. cbn [length]. repeat split; try lia.
      replace (r - i)%nat with (S (r - S i)) by lia. exact Hc'. }
    destruct ((sepVel <? max)%num
              && ((sepVel <? Fin 0)%num || (ParticleContact.penetration c >? Fin 0)%num))
      eqn:Htest.
    + apply andb_true_iff in Htest. destruct Htest as [_ Hneeds].
      right.
      destruct (IH (S i) sepVel i) as [-> | (H1 & H2 & H3 & c' & Hc' & Hn')].
      * cbn [length]. repeat split; try lia.
        exists c. rewrite Nat.sub_diag. split; [reflexivity | exact Hneeds].
      * destruct (Hlater _ H1 H2 c' Hc') as (G1 & G2 & G3).
        repeat split; try assumption. now exists c'.
    + destruct (IH (S i) max mi) as [-> | (H1 & H2 & H3 & c' & Hc' & Hn')];
        [now left | right].
      destruct (Hlater _ H1 H2 c' Hc') as (G1 & G2 & G3).
      repeat split; try assumption. now exists c'.
Qed.

(** When the search returns [numContacts], no contact needs resolving. *)
Lemma scan_nothing (h : store) (n : nat) (cs : list ParticleContact.t) :
  forall i : nat,
    (i + length cs <= n)%nat ->
    Forall (two_body h) cs ->
    ParticleContactResolver.scan cs i n h PInf n = n ->
    Forall (fun c => needs_resolving h c = false) cs.
Proof.
  induction cs as [| c rest IH]; intros i Hlen Hwf Hscan; [constructor |].
  cbn [length] in Hlen. cbn [ParticleContactResolver.scan] in Hscan.
  assert (Hin : Nat.ltb i n = true) by (apply Nat.ltb_lt; lia).
  rewrite Hin in Hscan.
  inversion Hwf as [| ? ? Hc Hrest]; subst.
  destruct (two_body_separatingVelocity h c Hc) as (s & Hs).
  fold (needs_resolving h c) in Hscan.
  rewrite Hs in Hscan.
  change (Fin s <? PInf)%num with true in Hscan. rewrite andb_true_l in Hscan.
  destruct (needs_resolving h c) eqn:Hneeds.
  - exfalso.
    destruct (scan_range h n rest (S i) (Fin s) i) as [E | (H1 & H2 & H3 & _)];
      rewrite Hscan in *; lia.
  - constructor; [exact Hneeds |]. apply (IH (S i)); [lia | assumption | assumption].
Qed.

(** *** The update loop *)

Lemma update_loop_untouched (resolved : ParticleContact.t) (cs : list ParticleContact.t) :
  (forall c, In c cs -> ParticleContactResolver.update_one resolved c = Returned c) ->
  ParticleContactResolver.update_loop resolved cs (length cs) = Returned cs.
Proof.
  induction cs as [| c rest IH]; intros Hall; [reflexivity |].
  cbn [length ParticleContactResolver.update_loop].
  rewrite (Hall c) by now left. cbn [obind].
  rewrite IH by (intros c' Hc'; apply Hall; now right). reflexivity.
Qed.

Lemma update_loop_at (resolved x x' : ParticleContact.t)
      (l1 l2 : list ParticleContact.t) :
  (forall c, In c l1 -> ParticleContactResolver.update_one resolved c = Returned c) ->
  (forall c, In c l2 -> ParticleContactResolver.update_one resolved c = Returned c) ->
  ParticleContactResolver.update_one resolved x = Returned x' ->
  ParticleContactResolver.update_loop resolved (l1 ++ x :: l2) (length (l1 ++ x :: l2))
  = Returned (l1 ++ x' :: l2).
Proof.
  intros H1 H2 Hx. induction l1 as [| c rest IH]; cbn [app length].
  - cbn [ParticleContactResolver.update_loop]. rewrite Hx. cbn [obind].
    rewrite (update_loop_untouched resolved l2 H2). reflexivity.
  - cbn [ParticleContactResolver.update_loop].
    rewrite (H1 c) by now left. cbn [obind].
    rewrite IH by (intros c' Hc'; apply H1; now right). reflexivity.
Qed.

Lemma replace_nth_at (x y : ParticleContact.t) (l1 l2 : list ParticleContact.t) :
  ParticleContactResolver.replace_nth (length l1) y (l1 ++ x :: l2) = l1 ++ y :: l2.
Proof.
  induction l1 as [| c rest IH]; cbn [app length ParticleContactResolver.replace_nth].
  - reflexivity.
  - now rewrite IH.
Qed.

(** *** Contacts that share no particle *)

Lemma NoDup_app_apart {A : Type} (l1 l2 : list A) :
  NoDup (l1 ++ l2) -> forall a, In a l1 -> ~ In a l2.
Proof.
  induction l1 as [| b rest IH]; intros Hnd a Hin; [contradiction |].
  cbn [app] in Hnd. inversion Hnd as [| ? ? Hnotin Hrest]; subst.
  destruct Hin as [-> | Hin].
  - intros Hin2. apply Hnotin. apply in_or_app. now right.
  - now apply IH.
Qed.

Lemma disjoint_from_member (x : ParticleContact.t) (l1 l2 : list ParticleContact.t) :
  pairwise_disjoint (l1 ++ x :: l2) ->
  forall c, In c l1 \/ In c l2 ->
  forall r, In r (endpoints c) -> ~ In r (endpoints x).
Proof.
  unfold pairwise_disjoint. rewrite flat_map_app. cbn [flat_map].
  intros Hnd c Hc r Hr Hx.
  destruct Hc as [Hc | Hc].
  - apply (NoDup_app_apart _ _ Hnd r).
    + apply in_flat_map. now exists c.
    + apply in_or_app. now left.
  - apply NoDup_app_remove_l in Hnd.
    apply (NoDup_app_apart _ _ Hnd r Hx).
    apply in_flat_map. now exists c.
Qed.

Lemma disjoint_replace (x y : ParticleContact.t) (l1 l2 : list ParticleContact.t) :
  endpoints y = endpoints x ->
  pairwise_disjoint (l1 ++ x :: l2) -> pairwise_disjoint (l1 ++ y :: l2).
Proof.
  unfold pairwise_disjoint. rewrite !flat_map_app. cbn [flat_map].
  now intros ->.
Qed.

Lemma pending_app (h : store) (l1 l2 : list ParticleContact.t) :
  pending h (l1 ++ l2) = (pending h l1 + pending h l2)%nat.
Proof. unfold pending. now rewrite filter_app, length_app. Qed.

Lemma pending_cons (h : store) (c : ParticleContact.t) (l : list ParticleContact.t) :
  pending h (c :: l) = ((if needs_resolving h c then 1 else 0) + pending h l)%nat.
Proof. unfold pending. cbn [filter]. destruct (needs_resolving h c); reflexivity. Qed.

Lemma pending_same (h h' : store) (cs : list ParticleContact.t) :
  (forall c, In c cs -> needs_resolving h' c = needs_resolving h c) ->
  pending h' cs = pending h cs.
Proof.
  intros Hsame. unfold pending. induction cs as [| c rest IH]; [reflexivity |].
  cbn [filter]. rewrite (Hsame c) by now left.
  destruct (needs_resolving h c); cbn [length];
    rewrite IH by (intros c' Hc'; apply Hsame; now right); reflexivity.
Qed.

Lemma pending_zero (h : store) (cs : list ParticleContact.t) :
  pending h cs = 0%nat -> Forall (fun c => needs_resolving h c = false) cs.
Proof.
  unfold pending. induction cs as [| c rest IH]; intros H; [constructor |].
  cbn [filter] in H. destruct (needs_resolving h c) eqn:Hc; [discriminate |].
  constructor; [exact Hc | now apply IH].
Qed.

(** One round of the [while] loop on a batch split at the chosen contact. *)
Lemma batch_step (h : store) (d : R) (cm : ParticleContact.t)
      (l1 l2 : list ParticleContact.t) :
  pairwise_disjoint (l1 ++ cm :: l2) ->
  Forall (resolvable h) (l1 ++ cm :: l2) ->
  needs_resolving h cm = true ->
  exists h' c1 c2,
    ParticleContact.resolve cm (Fin d) h = Returned (h', c1) /\
    ParticleContactResolver.update_loop c1
      (ParticleContactResolver.replace_nth (length l1) c1 (l1 ++ cm :: l2))
      (length (l1 ++ cm :: l2))
    = Returned (l1 ++ c2 :: l2) /\
    pairwise_disjoint (l1 ++ c2 :: l2) /\
    Forall (resolvable h') (l1 ++ c2 :: l2) /\
    S (pending h' (l1 ++ c2 :: l2)) = pending h (l1 ++ cm :: l2).
Proof.
  intros Hdis Hall Hneeds.
  pose proof (Forall_elt _ _ _ Hall) as [Hwf Hor].
  assert (Hz : movement_ready cm).
  { destruct Hor as [Hz | Hset]; [exact Hz |].
    rewrite (settled_needs_nothing h cm Hset) in Hneeds. discriminate. }
  destruct (resolve_step h cm d Hwf Hz)
    as (h' & c1 & c2 & Hres & Hupd & He1 & He2 & Hother & Hwf2 & Hset2).
  assert (Hapart : forall c, In c l1 \/ In c l2 ->
            forall r, In r (endpoints c) -> ~ In r (endpoints cm))
    by exact (disjoint_from_member cm l1 l2 Hdis).
  assert (Hstay : forall c, In c l1 \/ In c l2 ->
            ParticleContactResolver.update_one c1 c = Returned c).
  { intros c Hc. apply update_one_apart. rewrite He1. now apply Hapart. }
  assert (Hkeep : forall c, In c l1 \/ In c l2 ->
            resolvable h c ->
            resolvable h' c /\ needs_resolving h' c = needs_resolving h c).
  { intros c Hc. apply resolvable_same_store.
    intros r Hr. apply Hother. now apply (Hapart c Hc). }
  apply Forall_app in Hall. destruct Hall as [Hall1 Hall2].
  inversion Hall2 as [| ? ? _ Hall2']; subst.
  rewrite Forall_forall in Hall1, Hall2'.
  exists h', c1, c2. split; [exact Hres | split; [| split; [| split]]].
  - rewrite replace_nth_at.
    replace (length (l1 ++ cm :: l2)) with (length (l1 ++ c1 :: l2))
      by (rewrite !length_app; reflexivity).
    apply update_loop_at; try assumption; intros c Hc; apply Hstay; tauto.
  - now apply (disjoint_replace cm).
  - apply Forall_app. split; [| constructor].
    + apply Forall_forall. intros c Hc. apply Hkeep; [tauto | now apply Hall1].
    + split; [exact Hwf2 | now right].
    + apply Forall_forall. intros c Hc. apply Hkeep; [tauto | now apply Hall2'].
  - rewrite !pending_app, !pending_cons.
    rewrite (settled_needs_nothing h' c2 Hset2), Hneeds.
    rewrite (pending_same h h' l1), (pending_same h h' l2).
    + lia.
    + intros c Hc. apply Hkeep; [tauto | now apply Hall2'].
    + intros c Hc. apply Hkeep; [tauto | now apply Hall1].
Qed.

(** *** The [while] loop *)

Lemma nothing_pending (h : store) (cs : list ParticleContact.t) :
  Forall (fun c => needs_resolving h c = false) cs -> pending h cs = 0%nat.
Proof.
  induction 1 as [| c rest Hc _ IH]; [reflexivity |].
  rewrite pending_cons, Hc, IH. reflexivity.
Qed.

(** With a budget of [k] rounds left and at most [k] contacts pending, the
    loop returns, has every contact settled, and has run one round for each
    contact that was pending. *)
Lemma iterate_converges (d : R) (N : nat) :
  forall (k fuel used : nat) (h : store) (cs : list ParticleContact.t),
    length cs = N -> (used + k = N)%nat -> (k <= fuel)%nat ->
    pairwise_disjoint cs -> Forall (resolvable h) cs ->
    (pending h cs <= k)%nat ->
    exists used' h' cs',
      ParticleContactResolver.iterate fuel (Fin (INR N)) N (Fin d) used h cs
      = Returned (used', h', cs') /\
      used' = (used + pending h cs)%nat /\
      length cs' = N /\ Forall (settled h') cs'.
Proof.
  induction k as [| k IH]; intros fuel used h cs Hlen Hused Hfuel Hdis Hall Hpend.
  - assert (Hstop : (Fin (INR used) <? Fin (INR N))%num = false).
    { apply ltb_Fin_false. apply le_INR. lia. }
    assert (Hzero : pending h cs = 0%nat) by lia.
    exists used, h, cs.
    destruct fuel; cbn [ParticleContactResolver.iterate]; rewrite Hstop; cbn [negb];
      (split; [reflexivity | split; [lia | split; [exact Hlen |]]]).
    all: apply pending_zero in Hzero.
    all: rewrite Forall_forall in *; intros c Hc.
    all: apply nothing_needed_settled; [apply Hall, Hc | apply Hzero, Hc].
  - assert (Hgo : (Fin (INR used) <? Fin (INR N))%num = true).
    { apply ltb_Fin. apply lt_INR. lia. }
    destruct fuel as [| fuel]; [lia |].
    cbn [ParticleContactResolver.iterate]. rewrite Hgo. cbn [negb].
    destruct (scan_range h N cs 0 PInf N) as [Hnone | (_ & _ & Hlt & cm & Hcm & Hneeds)].
    + cbv zeta in Hnone. rewrite Hnone, Nat.eqb_refl.
      assert (Hwf : Forall (two_body h) cs).
      { rewrite Forall_forall in *. intros c Hc. apply Hall, Hc. }
      pose proof (scan_nothing h N cs 0 ltac:(lia) Hwf Hnone) as Hzero.
      exists used, h, cs. split; [reflexivity |].
      split; [rewrite (nothing_pending h cs Hzero); lia | split; [exact Hlen |]].
      rewrite Forall_forall in *. intros c Hc.
      apply nothing_needed_settled; [apply Hwf, Hc | apply Hzero, Hc].
    + cbv zeta in Hlt, Hcm.
      set (m := ParticleContactResolver.scan cs 0 N h PInf N) in *.
      rewrite Nat.sub_0_r in Hcm.
      assert (Hmn : Nat.eqb m N = false) by (apply Nat.eqb_neq; lia).
      rewrite Hmn, Hcm.
      destruct (nth_error_split cs m Hcm) as (l1 & l2 & -> & Hl1).
      destruct (batch_step h d cm l1 l2 Hdis Hall Hneeds)
        as (h' & c1 & c2 & Hres & Hupd & Hdis' & Hall' & Hpend').
      rewrite Hres. cbn [obind]. rewrite <- Hl1, <- Hlen, Hupd. cbn [obind].
      assert (Hlen' : length (l1 ++ c2 :: l2) = N).
      { rewrite <- Hlen, !length_app. reflexivity. }
      rewrite Hlen.
      destruct (IH fuel (S used) h' (l1 ++ c2 :: l2))
        as (used' & h2 & cs2 & Hrun & Hcount & Hlen2 & Hset); try assumption; try lia.
      exists used', h2, cs2. split; [exact Hrun |].
      split; [lia | split; assumption].
Qed.

(** ** The resolver on a disjoint batch *)

(** In exact arithmetic, and once the movement slots of every contact
    that does not overlap hold the zero vector, a disjoint batch settles.
    For a batch of N pairwise disjoint contacts, each
    between two distinct particles of positive inverse mass and finite
    velocity and acceleration, with a unit normal, a restitution that is not
    negative, a finite penetration and, unless that penetration is positive,
    both movement slots holding the zero vector,
    [resolveContacts(batch, N, duration)] on a resolver whose
    [iterations] is N returns, given fuel for N rounds, with no contact
    closing and none overlapping; [iterationsUsed] is the number of contacts
    that needed resolving. *)
Lemma resolveContacts_settles_disjoint_batch
  (h : store) (contactArray : list ParticleContact.t) (duration : R) (fuel : nat) :
  pairwise_disjoint contactArray ->
  Forall (two_body h) contactArray ->
  Forall movement_ready contactArray ->
  (length contactArray <= fuel)%nat ->
  exists r' h' cs',
    ParticleContactResolver.resolveContacts
      (resolver_with (length contactArray)) contactArray (length contactArray)
      (Fin duration) h fuel
    = Returned (r', h', cs') /\
    ParticleContactResolver.iterationsUsed r'
    = Some (Fin (INR (pending h contactArray))) /\
    length cs' = length contactArray /\
    Forall (fun c =>
              (ParticleContact.calculateSeparatingVelocity c h' <? Fin 0)%num = false /\
              (ParticleContact.penetration c <=? Fin 0)%num = true) cs'.
Proof.
  intros Hdis Hwf Hzero Hfuel.
  assert (Hall : Forall (resolvable h) contactArray).
  { rewrite Forall_forall in *. intros c Hc. split; [apply Hwf, Hc | left; apply Hzero, Hc]. }
  assert (Hpend : (pending h contactArray <= length contactArray)%nat).
  { unfold pending. apply filter_length_le. }
  destruct (iterate_converges duration (length contactArray)
              (length contactArray) fuel 0 h contactArray
              eq_refl eq_refl Hfuel Hdis Hall Hpend)
    as (used' & h' & cs' & Hrun & Hcount & Hlen & Hset).
  unfold ParticleContactResolver.resolveContacts, resolver_with.
  cbn [ParticleContactResolver.set_iterations ParticleContactResolver.iterations toNumber].
  rewrite Hrun. cbn [obind].
  eexists _, h', cs'. split; [reflexivity |].
  split; [cbn [ParticleContactResolver.iterationsUsed]; now rewrite Hcount |].
  split; [exact Hlen |].
  rewrite Forall_forall in *. intros c Hc.
  destruct (Hset c Hc) as (s & p & Hs & Hspos & Hp & Hple).
  rewrite Hs, Hp. split; [now apply ltb_Fin_false | now apply leb_Fin].
Qed.

(** ** A particle against the scenery *)

Lemma resolveInterpenetration_scenery
  (h : store) (c : ParticleContact.t) (duration : num)
  (m p nx ny nz : R) (stale : vec3.t) :
  ParticleContact.particles1 c = None ->
  Particle.inverseMass (h (ParticleContact.particles0 c)) = Fin m -> 0 < m ->
  ParticleContact.contactNormal c = vec3.fin nx ny nz ->
  ParticleContact.penetration c = Fin p -> 0 < p ->
  ParticleContact.particleMovement1 c = Some stale ->
  let move := vec3.fin (nx * (p / m) * m) (ny * (p / m) * m) (nz * (p / m) * m) in
  exists h',
    ParticleContact.resolveInterpenetration c duration h =
      Returned (h', ParticleContact.set_particleMovement1
                      (ParticleContact.set_particleMovement0 c (Some move))
                      (Some vec3.zero)) /\
    h' (ParticleContact.particles0 c) =
      Particle.setPosition (h (ParticleContact.particles0 c))
        (vec3.add (Particle.position (h (ParticleContact.particles0 c))) move) /\
    (forall r, r <> ParticleContact.particles0 c -> h' r = h r).
Proof.
  intros H1 Hm Hmpos Hn Hp Hppos Hstale move.
  unfold ParticleContact.resolveInterpenetration.
  rewrite Hp, (proj2 (leb_Fin_false p 0)) by lra.
  unfold ParticleContact.totalInverseMass, Particle.getInverseMass.
  rewrite H1, Hm, (proj2 (leb_Fin_false m 0)) by lra.
  cbn [ParticleContact.particles1 ParticleContact.particleMovement1
       ParticleContact.set_particleMovement0 ParticleContact.set_particleMovement1
       ParticleContact.particles0].
  rewrite H1, Hstale. cbn [obind].
  cbn [ParticleContact.particles1 ParticleContact.particleMovement1
       ParticleContact.set_particleMovement0 ParticleContact.set_particleMovement1
       ParticleContact.particles0].
  rewrite H1, Hn, div_Fin by lra. unfold Particle.getPosition.
  unfold vec3.scale. unfold vec3.fin at 1 2 3. cbn [vec3.x vec3.y vec3.z mul].
  fold (vec3.fin (nx * (p / m) * m) (ny * (p / m) * m) (nz * (p / m) * m)).
  fold move.
  eexists. split; [reflexivity | split].
  - now rewrite upd_same.
  - intros r Hr. now rewrite upd_other.
Qed.

(** C3, as amended.  For a contact whose [particles[1]] is absent, whose
    particle has inverse mass 1, with a unit normal, penetration 0.1 and a
    vector already in [particleMovement[1]], one call of
    [resolveInterpenetration] returns, moves the particle by a tenth of the
    normal (0.1 measured along the normal) and no other particle, records
    that movement in [particleMovement[0]] and the zero vector in
    [particleMovement[1]], and leaves [penetration] at 0.1. *)
Theorem resolveInterpenetration_against_scenery
  (h : store) (c : ParticleContact.t) (duration : num)
  (nx ny nz : R) (stale : vec3.t) :
  ParticleContact.particles1 c = None ->
  Particle.inverseMass (h (ParticleContact.particles0 c)) = Fin 1 ->
  ParticleContact.contactNormal c = vec3.fin nx ny nz ->
  nx * nx + ny * ny + nz * nz = 1 ->
  ParticleContact.penetration c = Fin (1/10) ->
  ParticleContact.particleMovement1 c = Some stale ->
  exists h' c' move,
    ParticleContact.resolveInterpenetration c duration h = Returned (h', c') /\
    move = vec3.fin (nx / 10) (ny / 10) (nz / 10) /\
    vec3.dot move (ParticleContact.contactNormal c) = Fin (1/10) /\
    Particle.position (h' (ParticleContact.particles0 c)) =
      vec3.add (Particle.position (h (ParticleContact.particles0 c))) move /\
    (forall r, r <> ParticleContact.particles0 c -> h' r = h r) /\
    ParticleContact.particleMovement0 c' = Some move /\
    ParticleContact.particleMovement1 c' = Some vec3.zero /\
    ParticleContact.penetration c' = Fin (1/10).
Proof.
  intros H1 Hm Hn Hunit Hp Hstale.
  destruct (resolveInterpenetration_scenery h c duration 1 (1/10) nx ny nz stale
              H1 Hm ltac:(lra) Hn Hp ltac:(lra) Hstale)
    as (h' & Hres & Hpos & Hother).
  assert (Hmove : vec3.fin (nx * (1/10 / 1) * 1) (ny * (1/10 / 1) * 1) (nz * (1/10 / 1) * 1)
                  = vec3.fin (nx / 10) (ny / 10) (nz / 10)).
  { unfold vec3.fin. fin_eq. }
  rewrite Hmove in Hres, Hpos.
  eexists h', _, _. split; [exact Hres |]. split; [reflexivity |].
  split; [| split; [| split; [exact Hother | repeat split]]].
  - rewrite Hn. unfold vec3.dot, vec3.fin. cbn [vec3.x vec3.y vec3.z mul add].
    apply f_equal. transitivity ((nx * nx + ny * ny + nz * nz) / 10); [field | lra].
  - rewrite Hpos. reflexivity.
  - exact Hp.
Qed.

(** The scenario itself: the scenery contact over the resting store. *)
Lemma resolveInterpenetration_against_scenery_witness :
  exists h' c' move,
    ParticleContact.resolveInterpenetration scenery_contact (Fin 1) resting_store
      = Returned (h', c') /\
    move = vec3.fin (0 / 10) (1 / 10) (0 / 10) /\
    vec3.dot move (ParticleContact.contactNormal scenery_contact) = Fin (1/10) /\
    Particle.position (h' (ParticleContact.particles0 scenery_contact)) =
      vec3.add (Particle.position (resting_store (ParticleContact.particles0 scenery_contact)))
               move /\
    (forall r, r <> ParticleContact.particles0 scenery_contact -> h' r = resting_store r) /\
    ParticleContact.particleMovement0 c' = Some move /\
    ParticleContact.particleMovement1 c' = Some vec3.zero /\
    ParticleContact.penetration c' = Fin (1/10).
Proof.
  apply (resolveInterpenetration_against_scenery resting_store scenery_contact (Fin 1)
           0 1 0 vec3.zero); try reflexivity. lra.
Defined.

(** The scenery contact of the scenario keeps its penetration of 0.1
    through [resolveInterpenetration]: it is within no tolerance below 0.1
    of zero. *)
Lemma resolveInterpenetration_leaves_penetration :
  exists h' c',
    ParticleContact.resolveInterpenetration scenery_contact (Fin 1) resting_store
      = Returned (h', c') /\
    ParticleContact.penetration c' = Fin (1/10) /\
    forall tol, tol < 1/10 -> ~ near tol (ParticleContact.penetration c') (Fin 0).
Proof.
  destruct (resolveInterpenetration_scenery resting_store scenery_contact (Fin 1)
              1 (1/10) 0 1 0 vec3.zero eq_refl eq_refl ltac:(lra) eq_refl eq_refl
              ltac:(lra) eq_refl) as (h' & Hres & _).
  eexists h', _. split; [exact Hres |]. split; [reflexivity |].
  intros tol Htol (x & y & Hx & Hy & Hnear).
  cbn in Hx. injection Hx as <-. injection Hy as <-.
  rewrite Rminus_0_r, Rabs_pos_eq in Hnear; lra.
Qed.

(** ** The coupling step *)












(** ** A fresh contact in the resolver *)

Lemma update_one_unrecorded (c : ParticleContact.t) :
  ParticleContact.particleMovement0 c = None ->
  ParticleContactResolver.update_one c c = Threw.
Proof.
  intros H. unfold ParticleContactResolver.update_one.
  rewrite Nat.eqb_refl, H. reflexivity.
Qed.

Lemma two_body_touching : two_body approaching_store touching_contact.
Proof. two_body_eval. Qed.

Lemma two_body_stale : two_body approaching_store stale_contact.
Proof. two_body_eval. Qed.

Lemma scan_single_closing (c : ParticleContact.t) :
  ParticleContact.particles0 c = 0%nat ->
  ParticleContact.particles1 c = Some 1%nat ->
  ParticleContact.contactNormal c = vec3.fin 1 0 0 ->
  ParticleContactResolver.scan [c] 0 1 approaching_store PInf 1 = 0%nat.
Proof.
  intros H0 H1 Hn. cbn [ParticleContactResolver.scan Nat.ltb Nat.leb].
  unfold ParticleContact.calculateSeparatingVelocity.
  rewrite H0, H1, Hn. cbn. decide_reals. reflexivity.
Qed.

(** A batch of one contact between two unit particles
    that touch and close, carrying the movement of an earlier resolution in
    [particleMovement[0]]: the single round resolves the velocity, skips the
    position correction, and the update loop subtracts the old movement,
    which leaves the contact overlapping by a tenth when the call returns. *)
Lemma stale_movement_reopens_contact :
  pairwise_disjoint [stale_contact] /\
  two_body approaching_store stale_contact /\
  exists r' h' c',
    ParticleContactResolver.resolveContacts
      (resolver_with 1) [stale_contact] 1 (Fin 1) approaching_store 1
    = Returned (r', h', [c']) /\
    ParticleContact.penetration c' = Fin (1/10) /\
    (ParticleContact.penetration c' <=? Fin 0)%num = false.
Proof.
  split; [| split; [exact two_body_stale |]].
  - unfold pairwise_disjoint. cbn. repeat constructor; cbn; intuition discriminate.
  - unfold ParticleContactResolver.resolveContacts, resolver_with.
    cbn [ParticleContactResolver.set_iterations ParticleContactResolver.iterations
         ParticleContactResolver.constructor toNumber ParticleContactResolver.iterate INR].
    rewrite (proj2 (ltb_Fin 0 1)) by lra. cbn [negb].
    rewrite (scan_single_closing stale_contact eq_refl eq_refl eq_refl).
    cbn [Nat.eqb nth_error].
    unfold ParticleContact.resolve.
    rewrite (resolveInterpenetration_skips _ stale_contact (Fin 1) 0 eq_refl) by lra.
    cbn [obind ParticleContactResolver.replace_nth ParticleContactResolver.update_loop].
    rewrite (update_one_self stale_contact 1%nat _ _ eq_refl ltac:(discriminate)
               eq_refl eq_refl).
    cbn [obind]. rewrite (proj2 (ltb_Fin_false 1 1)) by lra. cbn [negb obind].
    eexists _, _, _. split; [reflexivity |].
    assert (Hpen : ParticleContact.penetration
                     (ParticleContact.set_penetration stale_contact
                        (ParticleContact.penetration stale_contact
                         - vec3.dot (vec3.fin (-1/10) 0 0)
                                    (ParticleContact.contactNormal stale_contact)
                         + vec3.dot vec3.zero
                                    (ParticleContact.contactNormal stale_contact))%num)
                   = Fin (1/10)).
    { cbn. fin_eq. }
    rewrite Hpen. split; [reflexivity | apply leb_Fin_false; lra].
Qed.

(** The same batch with [particleMovement] empty, as the class initialises
    it: the update loop reads [move[0]], which holds nothing, and the call
    raises.  No amount of fuel gives a return. *)
Lemma fresh_contact_makes_resolveContacts_throw :
  pairwise_disjoint [touching_contact] /\
  two_body approaching_store touching_contact /\
  ParticleContactResolver.resolveContacts
    (resolver_with 1) [touching_contact] 1 (Fin 1) approaching_store 1 = Threw /\
  ~ (exists fuel out,
       ParticleContactResolver.resolveContacts
         (resolver_with 1) [touching_contact] 1 (Fin 1) approaching_store fuel
       = Returned out).
Proof.
  assert (Hrun : forall fuel,
            ParticleContactResolver.resolveContacts
              (resolver_with 1) [touching_contact] 1 (Fin 1) approaching_store (S fuel)
            = Threw).
  { intros fuel.
    unfold ParticleContactResolver.resolveContacts, resolver_with.
    cbn [ParticleContactResolver.set_iterations ParticleContactResolver.iterations
         ParticleContactResolver.constructor toNumber ParticleContactResolver.iterate INR].
    rewrite (proj2 (ltb_Fin 0 1)) by lra. cbn [negb].
    rewrite (scan_single_closing touching_contact eq_refl eq_refl eq_refl).
    cbn [Nat.eqb nth_error].
    unfold ParticleContact.resolve.
    rewrite (resolveInterpenetration_skips _ touching_contact (Fin 1) 0 eq_refl)
      by lra.
    cbn [obind ParticleContactResolver.replace_nth ParticleContactResolver.update_loop].
    rewrite (update_one_unrecorded touching_contact eq_refl). reflexivity. }
  split; [| split; [exact two_body_touching | split; [apply Hrun |]]].
  - unfold pairwise_disjoint. cbn. repeat constructor; cbn; intuition discriminate.
  - intros (fuel & out & H). destruct fuel as [| fuel].
    + unfold ParticleContactResolver.resolveContacts, resolver_with in H.
      cbn [ParticleContactResolver.set_iterations ParticleContactResolver.iterations
           ParticleContactResolver.constructor toNumber ParticleContactResolver.iterate INR]
        in H.
      rewrite (proj2 (ltb_Fin 0 1)) in H by lra. discriminate H.
    + rewrite Hrun in H. discriminate H.
Qed.

(** C2.  A batch of one contact, as the class builds it
    ([particleMovement] empty), between two distinct unit particles that
    touch and close: the batch is pairwise disjoint and both particles have
    finite mass, yet [resolveContacts(batch, 1, 1)] with [iterations = 1]
    does not return.  The round resolves the velocity, skips the position
    correction because nothing overlaps, and the update loop then reads
    [move[0]], which holds nothing: the call raises a TypeError, for every
    amount of fuel.  When the contact still carries the movement of an
    earlier resolution the call returns, but the update loop applies that
    old movement and leaves the contact overlapping by a tenth. *)
Theorem resolveContacts_raises_on_touching_pair :
  pairwise_disjoint [touching_contact] /\
  two_body approaching_store touching_contact /\
  ParticleContact.particleMovement0 touching_contact = None /\
  ParticleContact.particleMovement1 touching_contact = None /\
  ParticleContactResolver.resolveContacts
    (resolver_with 1) [touching_contact] 1 (Fin 1) approaching_store 1 = Threw /\
  ~ (exists fuel out,
       ParticleContactResolver.resolveContacts
         (resolver_with 1) [touching_contact] 1 (Fin 1) approaching_store fuel
       = Returned out) /\
  exists r' h' c',
    ParticleContactResolver.resolveContacts
      (resolver_with 1) [stale_contact] 1 (Fin 1) approaching_store 1
    = Returned (r', h', [c']) /\
    ParticleContact.penetration c' = Fin (1/10) /\
    (ParticleContact.penetration c' <=? Fin 0)%num = false.
Proof.
  destruct fresh_contact_makes_resolveContacts_throw as (Hdis & Htb & Hthrow & Hnever).
  destruct stale_movement_reopens_contact as (_ & _ & Hstale).
  split; [exact Hdis |]. split; [exact Htb |].
  split; [reflexivity |]. split; [reflexivity |].
  split; [exact Hthrow |]. split; [exact Hnever |]. exact Hstale.
Qed.

Lemma two_body_settling_batch : Forall (two_body approaching_store) settling_batch.
Proof.
  unfold settling_batch.
  apply Forall_cons; [two_body_eval | apply Forall_cons; [two_body_eval | apply Forall_nil]].
Defined.

Lemma disjoint_settling_batch : pairwise_disjoint settling_batch.
Proof.
  unfold pairwise_disjoint. cbn.
  repeat constructor; cbn; intuition discriminate.
Defined.

Lemma ready_settling_batch : Forall movement_ready settling_batch.
Proof.
  unfold settling_batch. apply Forall_cons; [| apply Forall_cons; [| apply Forall_nil]].
  - right. exists (1/5). split; [reflexivity | lra].
  - left. split; reflexivity.
Defined.

(** A batch of two: particles 0 and 1 closing and overlapping, particles 2
    and 3 touching at rest. *)
Lemma resolveContacts_settles_disjoint_batch_witness :
  exists r' h' cs',
    ParticleContactResolver.resolveContacts
      (resolver_with (length settling_batch)) settling_batch (length settling_batch)
      (Fin 1) approaching_store 2
    = Returned (r', h', cs') /\
    ParticleContactResolver.iterationsUsed r'
    = Some (Fin (INR (pending approaching_store settling_batch))) /\
    length cs' = length settling_batch /\
    Forall (fun c =>
              (ParticleContact.calculateSeparatingVelocity c h' <? Fin 0)%num = false /\
              (ParticleContact.penetration c <=? Fin 0)%num = true) cs'.
Proof.
  apply (resolveContacts_settles_disjoint_batch approaching_store settling_batch 1 2).
  - exact disjoint_settling_batch.
  - exact two_body_settling_batch.
  - exact ready_settling_batch.
  - cbn. lia.
Defined.

(** ** A resolver straight from its constructor, and one configured *)

Lemma pending_settling_batch : pending approaching_store settling_batch = 1%nat.
Proof.
  unfold pending, needs_resolving, settling_batch. cbn. decide_reals. reflexivity.
Qed.

(** C10. Whatever argument the constructor is given, the resolver it
    builds has no [iterations] value, and [resolveContacts] on it returns
    for every batch, count, duration, store and fuel with [iterationsUsed]
    set to 0 and the store and every contact as they were.  Once
    [iterations] is assigned, here to 2, a call on a batch with one pending
    contact runs a round: [iterationsUsed] comes out as 1. *)
Theorem constructed_resolver_resolves_nothing
  (arg : option num) (contactArray : list ParticleContact.t) (numContacts : nat)
  (duration : num) (h : store) (fuel : nat) :
  ParticleContactResolver.iterations (ParticleContactResolver.constructor arg) = None /\
  ParticleContactResolver.resolveContacts
    (ParticleContactResolver.constructor arg) contactArray numContacts duration h fuel
  = Returned (ParticleContactResolver.mk None (Some (Fin 0)), h, contactArray) /\
  exists r' h' cs',
    ParticleContactResolver.resolveContacts
      (ParticleContactResolver.set_iterations
         (ParticleContactResolver.constructor arg) (Some (Fin (INR 2))))
      settling_batch 2 (Fin 1) approaching_store 2
    = Returned (r', h', cs') /\
    ParticleContactResolver.iterationsUsed r' = Some (Fin (INR 1)).
Proof.
  split; [reflexivity | split].
  - unfold ParticleContactResolver.resolveContacts.
    cbn [ParticleContactResolver.constructor ParticleContactResolver.iterations toNumber].
    rewrite iterate_NaN_limit. reflexivity.
  - assert (Hall : Forall (resolvable approaching_store) settling_batch).
    { pose proof two_body_settling_batch as Hwf.
      pose proof ready_settling_batch as Hz.
      rewrite Forall_forall in *. intros c Hc.
      split; [apply Hwf, Hc | left; apply Hz, Hc]. }
    destruct (iterate_converges 1 2 2 2 0 approaching_store settling_batch
                eq_refl eq_refl (le_n 2) disjoint_settling_batch Hall)
      as (used' & h' & cs' & Hrun & Hcount & _ & _).
    { rewrite pending_settling_batch. lia. }
    rewrite pending_settling_batch in Hcount. subst used'.
    unfold ParticleContactResolver.resolveContacts.
    cbn [ParticleContactResolver.set_iterations ParticleContactResolver.iterations toNumber].
    rewrite Hrun. cbn [obind].
    eexists _, h', cs'. split; reflexivity.
Qed.

(* ================================================================= *)
(** * Further properties of the code *)

(** ** What the resolution of a contact keeps *)

Lemma same_inertia_refl p : same_inertia p p.
Proof. repeat split. Qed.

Lemma same_inertia_trans p1 p2 p3 :
  same_inertia p1 p2 -> same_inertia p2 p3 -> same_inertia p1 p3.
Proof.
  intros (A1 & A2 & A3 & A4) (B1 & B2 & B3 & B4).
  repeat split; congruence.
Qed.

Lemma same_identity_refl c : same_identity c c.
Proof. repeat split. Qed.

Lemma same_identity_trans c1 c2 c3 :
  same_identity c1 c2 -> same_identity c2 c3 -> same_identity c1 c3.
Proof.
  intros (A1 & A2 & A3 & A4) (B1 & B2 & B3 & B4).
  repeat split; congruence.
Qed.

Lemma upd_same_inertia (h : store) (a : ref) (p : Particle.t) :
  same_inertia (h a) p -> forall r, same_inertia (h r) (upd h a p r).
Proof.
  intros H r. unfold upd. destruct (Nat.eqb r a) eqn:E.
  - apply Nat.eqb_eq in E. now subst.
  - apply same_inertia_refl.
Qed.

Lemma resolveVelocity_same_inertia (c : ParticleContact.t) (d : num) (h : store) :
  forall r, same_inertia (h r) (ParticleContact.resolveVelocity c d h r).
Proof.
  intros r. unfold ParticleContact.resolveVelocity.
  destruct (_ >? _)%num; [apply same_inertia_refl |].
  destruct (_ <=? _)%num; [apply same_inertia_refl |].
  match goal with
  | |- context [upd h (ParticleContact.particles0 c) ?P] =>
      set (p0' := P); set (h1 := upd h (ParticleContact.particles0 c) p0')
  end.
  assert (H1 : forall r, same_inertia (h r) (h1 r)).
  { apply upd_same_inertia. repeat split. }
  destruct (ParticleContact.particles1 c) as [q |]; [| apply H1].
  apply (same_inertia_trans _ (h1 r)); [apply H1 |].
  apply upd_same_inertia. repeat split.
Qed.

Lemma resolveInterpenetration_frame (c : ParticleContact.t) (d : num) (h h2 : store)
      (c2 : ParticleContact.t) :
  ParticleContact.resolveInterpenetration c d h = Returned (h2, c2) ->
  same_identity c c2 /\
  ParticleContact.penetration c2 = ParticleContact.penetration c /\
  forall r, same_inertia (h r) (h2 r) /\
            Particle.velocity (h2 r) = Particle.velocity (h r).
Proof.
  unfold ParticleContact.resolveInterpenetration.
  destruct (_ <=? _)%num.
  { intros H. inversion H; subst. repeat split. }
  destruct (_ <=? _)%num.
  { intros H. inversion H; subst. repeat split. }
  cbn [ParticleContact.particles1 ParticleContact.set_particleMovement0
       ParticleContact.particleMovement1].
  destruct (ParticleContact.particles1 c) as [q |] eqn:Hq; cbn [obind].
  - cbn [ParticleContact.particles1 ParticleContact.particles0
         ParticleContact.set_particleMovement0 ParticleContact.set_particleMovement1].
    rewrite Hq. intros H. inversion H; subst; clear H.
    split; [repeat split; cbn; auto |]. split; [reflexivity |].
    intros r. unfold upd.
    destruct (Nat.eqb r q) eqn:E1.
    + apply Nat.eqb_eq in E1. subst r.
      destruct (Nat.eqb q (ParticleContact.particles0 c)) eqn:E0.
      * apply Nat.eqb_eq in E0. rewrite E0. repeat split.
      * repeat split.
    + destruct (Nat.eqb r (ParticleContact.particles0 c)) eqn:E0.
      * apply Nat.eqb_eq in E0. subst r. repeat split.
      * repeat split.
  - destruct (ParticleContact.particleMovement1 c); cbn [obind]; [| discriminate].
    cbn [ParticleContact.particles1 ParticleContact.particles0
         ParticleContact.set_particleMovement0 ParticleContact.set_particleMovement1].
    rewrite Hq. intros H. inversion H; subst; clear H.
    split; [repeat split; cbn; auto |]. split; [reflexivity |].
    intros r. unfold upd.
    destruct (Nat.eqb r (ParticleContact.particles0 c)) eqn:E0.
    + apply Nat.eqb_eq in E0. subst r. repeat split.
    + repeat split.
Qed.

Lemma resolve_frame (c : ParticleContact.t) (d : num) (h h2 : store)
      (c2 : ParticleContact.t) :
  ParticleContact.resolve c d h = Returned (h2, c2) ->
  same_identity c c2 /\
  ParticleContact.penetration c2 = ParticleContact.penetration c /\
  forall r, same_inertia (h r) (h2 r).
Proof.
  unfold ParticleContact.resolve. intros H.
  destruct (resolveInterpenetration_frame _ _ _ _ _ H) as (Hid & Hpen & Hst).
  split; [exact Hid | split; [exact Hpen |]].
  intros r. apply (same_inertia_trans _ (ParticleContact.resolveVelocity c d h r)).
  - apply resolveVelocity_same_inertia.
  - apply Hst.
Qed.

Lemma resolve_never_out_of_fuel (c : ParticleContact.t) (d : num) (h : store) :
  ParticleContact.resolve c d h <> OutOfFuel.
Proof.
  unfold ParticleContact.resolve, ParticleContact.resolveInterpenetration.
  destruct (_ <=? _)%num; [discriminate |].
  destruct (_ <=? _)%num; [discriminate |].
  cbn [ParticleContact.particles1 ParticleContact.set_particleMovement0
       ParticleContact.particleMovement1].
  destruct (ParticleContact.particles1 c) eqn:Hq; cbn [obind].
  - cbn [ParticleContact.particles1 ParticleContact.set_particleMovement0
         ParticleContact.set_particleMovement1]. discriminate.
  - destruct (ParticleContact.particleMovement1 c); cbn [obind]; discriminate.
Qed.

Lemma update_one_frame (resolved c c' : ParticleContact.t) :
  ParticleContactResolver.update_one resolved c = Returned c' ->
  same_identity c c' /\
  ParticleContact.particleMovement0 c' = ParticleContact.particleMovement0 c /\
  ParticleContact.particleMovement1 c' = ParticleContact.particleMovement1 c.
Proof.
  unfold ParticleContactResolver.update_one, ParticleContactResolver.decrease,
    ParticleContactResolver.increase, ParticleContactResolver.dot_move.
  intros H.
  repeat match type of H with
  | context [if ?b then _ else _] => destruct b
  | context [match ?o with Some _ => _ | None => _ end] => destruct o eqn:?
  | _ => progress cbn [obind ParticleContact.particles1 ParticleContact.particles0
                       ParticleContact.set_penetration ParticleContact.contactNormal
                       ParticleContact.penetration] in H
  end;
  try discriminate; inversion H; subst; repeat split; cbn; auto.
Qed.

Lemma update_one_never_out_of_fuel (resolved c : ParticleContact.t) :
  ParticleContactResolver.update_one resolved c <> OutOfFuel.
Proof.
  unfold ParticleContactResolver.update_one, ParticleContactResolver.decrease,
    ParticleContactResolver.increase, ParticleContactResolver.dot_move.
  repeat match goal with
  | |- context [if ?b then _ else _] => destruct b
  | |- context [match ?o with Some _ => _ | None => _ end] => destruct o eqn:?
  | _ => progress cbn [obind ParticleContact.particles1 ParticleContact.particles0
                       ParticleContact.set_penetration ParticleContact.contactNormal
                       ParticleContact.penetration]
  end; discriminate.
Qed.

(** ** The resolver: what a run keeps *)

Lemma Forall2_same_identity_refl (l : list ParticleContact.t) :
  Forall2 same_identity l l.
Proof. induction l; constructor; auto using same_identity_refl. Qed.

Lemma update_loop_frame (resolved : ParticleContact.t) :
  forall (n : nat) (cs cs' : list ParticleContact.t),
    ParticleContactResolver.update_loop resolved cs n = Returned cs' ->
    Forall2 same_identity cs cs'.
Proof.
  induction n as [| n IH]; intros cs cs' H.
  - destruct cs; cbn in H; inversion H; subst; apply Forall2_same_identity_refl.
  - destruct cs as [| c rest]; cbn in H; [discriminate |].
    destruct (ParticleContactResolver.update_one resolved c) as [c1 | |] eqn:E1;
      cbn in H; try discriminate.
    destruct (ParticleContactResolver.update_loop resolved rest n) as [r1 | |] eqn:E2;
      cbn in H; try discriminate.
    inversion H; subst. constructor.
    + exact (proj1 (update_one_frame resolved c c1 E1)).
    + exact (IH rest r1 E2).
Qed.

Lemma update_loop_never_out_of_fuel (resolved : ParticleContact.t) :
  forall (n : nat) (cs : list ParticleContact.t),
    ParticleContactResolver.update_loop resolved cs n <> OutOfFuel.
Proof.
  induction n as [| n IH]; intros cs; [destruct cs; discriminate |].
  destruct cs as [| c rest]; cbn; [discriminate |].
  pose proof (update_one_never_out_of_fuel resolved c) as H1.
  destruct (ParticleContactResolver.update_one resolved c); cbn; try congruence.
  pose proof (IH rest) as H2.
  destruct (ParticleContactResolver.update_loop resolved rest n); cbn; congruence.
Qed.

(** The update loop reads [contactArray[i]] for every [i < numContacts]. *)
Lemma update_loop_overrun (resolved : ParticleContact.t) :
  forall (n : nat) (cs : list ParticleContact.t),
    (length cs < n)%nat ->
    ParticleContactResolver.update_loop resolved cs n = Threw.
Proof.
  induction n as [| n IH]; intros cs Hlen; [lia |].
  destruct cs as [| c rest]; [reflexivity |].
  cbn in Hlen. cbn.
  pose proof (update_one_never_out_of_fuel resolved c) as H1.
  destruct (ParticleContactResolver.update_one resolved c); cbn; try congruence.
  rewrite (IH rest) by lia. reflexivity.
Qed.

Lemma replace_nth_frame :
  forall (cs : list ParticleContact.t) (i : nat) (cm cm1 : ParticleContact.t),
    nth_error cs i = Some cm ->
    same_identity cm cm1 ->
    Forall2 same_identity cs (ParticleContactResolver.replace_nth i cm1 cs).
Proof.
  induction cs as [| c rest IH]; intros i cm cm1 Hn Hid.
  - destruct i; discriminate.
  - destruct i as [| j]; cbn in *.
    + inversion Hn; subst. constructor; [exact Hid |].
      apply Forall2_same_identity_refl.
    + constructor; [apply same_identity_refl | exact (IH j cm cm1 Hn Hid)].
Qed.

Lemma Forall2_same_identity_trans (l1 l2 l3 : list ParticleContact.t) :
  Forall2 same_identity l1 l2 -> Forall2 same_identity l2 l3 ->
  Forall2 same_identity l1 l3.
Proof.
  intros H. revert l3. induction H; intros l3 H3; inversion H3; subst; constructor.
  - eapply same_identity_trans; eassumption.
  - auto.
Qed.

Lemma same_identity_from_right (l1 l2 : list ParticleContact.t) :
  Forall2 same_identity l1 l2 ->
  forall c2, In c2 l2 -> exists c1, In c1 l1 /\ same_identity c1 c2.
Proof.
  induction 1 as [| a b l1 l2 Hab _ IH]; intros c2 Hin; [destruct Hin |].
  destruct Hin as [-> | Hin].
  - exists a. split; [left; reflexivity | exact Hab].
  - destruct (IH c2 Hin) as (c1 & Hc1 & Hs). exists c1. split; [right; exact Hc1 | exact Hs].
Qed.

Lemma same_identity_endpoints (c c' : ParticleContact.t) :
  same_identity c c' -> endpoints c' = endpoints c.
Proof. intros (H0 & H1 & _). unfold endpoints. now rewrite H0, H1. Qed.

(** A particle that is not an endpoint of the contact is not written. *)
Lemma resolve_elsewhere (c : ParticleContact.t) (d : num) (h h2 : store)
      (c2 : ParticleContact.t) (r : ref) :
  ParticleContact.resolve c d h = Returned (h2, c2) ->
  ~ In r (endpoints c) -> h2 r = h r.
Proof.
  intros H Hr.
  assert (H0 : Nat.eqb r (ParticleContact.particles0 c) = false).
  { apply Nat.eqb_neq. intros ->. apply Hr. left. reflexivity. }
  assert (Hv : ParticleContact.resolveVelocity c d h r = h r).
  { unfold ParticleContact.resolveVelocity.
    destruct (_ >? _)%num; [reflexivity |].
    destruct (_ <=? _)%num; [reflexivity |].
    destruct (ParticleContact.particles1 c) as [q |] eqn:Hq.
    - assert (H1 : Nat.eqb r q = false).
      { apply Nat.eqb_neq. intros ->. apply Hr. unfold endpoints. rewrite Hq.
        right. left. reflexivity. }
      unfold upd. now rewrite H1, H0.
    - unfold upd. now rewrite H0. }
  rewrite <- Hv. unfold ParticleContact.resolve in H.
  revert H. generalize (ParticleContact.resolveVelocity c d h). intros g.
  unfold ParticleContact.resolveInterpenetration.
  destruct (_ <=? _)%num; [intros H; now inversion H |].
  destruct (_ <=? _)%num; [intros H; now inversion H |].
  cbn [ParticleContact.particles1 ParticleContact.set_particleMovement0
       ParticleContact.particleMovement1].
  destruct (ParticleContact.particles1 c) as [q |] eqn:Hq; cbn [obind].
  - cbn [ParticleContact.particles1 ParticleContact.particles0
         ParticleContact.set_particleMovement0 ParticleContact.set_particleMovement1].
    rewrite Hq. intros H. inversion H; subst; clear H.
    assert (H1 : Nat.eqb r q = false).
    { apply Nat.eqb_neq. intros ->. apply Hr. unfold endpoints. rewrite Hq.
      right. left. reflexivity. }
    unfold upd. now rewrite H1, H0.
  - destruct (ParticleContact.particleMovement1 c); cbn [obind]; [| discriminate].
    cbn [ParticleContact.particles1 ParticleContact.particles0
         ParticleContact.set_particleMovement0 ParticleContact.set_particleMovement1].
    rewrite Hq. intros H. inversion H; subst; clear H.
    unfold upd. now rewrite H0.
Qed.

(** One run of the [while] loop, whatever the batch: what it keeps. *)
Lemma iterate_frame :
  forall (fuel : nat) (limit : num) (n : nat) (d : num) (used : nat) (h : store)
         (cs : list ParticleContact.t) (used' : nat) (h' : store)
         (cs' : list ParticleContact.t),
    ParticleContactResolver.iterate fuel limit n d used h cs = Returned (used', h', cs') ->
    Forall2 same_identity cs cs' /\
    (forall r, same_inertia (h r) (h' r)) /\
    (forall r, (forall c, In c cs -> ~ In r (endpoints c)) -> h' r = h r) /\
    (used <= used')%nat /\
    (used' = used \/ (Fin (INR (pred used')) <? limit)%num = true).
Proof.
  induction fuel as [| fuel IH]; intros limit n d used h cs used' h' cs' H.
  - cbn [ParticleContactResolver.iterate] in H.
    destruct (Fin (INR used) <? limit)%num; cbn [negb] in H; [discriminate |].
    inversion H; subst. repeat split; auto using Forall2_same_identity_refl, same_inertia_refl.
  - cbn [ParticleContactResolver.iterate] in H.
    destruct (Fin (INR used) <? limit)%num eqn:Hlim; cbn [negb] in H.
    2:{ inversion H; subst.
        repeat split; auto using Forall2_same_identity_refl, same_inertia_refl. }
    destruct (Nat.eqb _ n).
    { inversion H; subst.
      repeat split; auto using Forall2_same_identity_refl, same_inertia_refl. }
    destruct (nth_error cs _) as [cm |] eqn:Hn; [| discriminate].
    destruct (ParticleContact.resolve cm d h) as [[h1 cm1] | |] eqn:Hres;
      cbn [obind] in H; try discriminate.
    destruct (ParticleContactResolver.update_loop cm1 _ n) as [cs2 | |] eqn:Hupd;
      cbn [obind] in H; try discriminate.
    destruct (IH _ _ _ _ _ _ _ _ _ H) as (Hid & Hin & Helse & Hle & Hlast).
    destruct (resolve_frame _ _ _ _ _ Hres) as (Hcm & _ & Hst).
    assert (Hcs2 : Forall2 same_identity cs cs2).
    { eapply Forall2_same_identity_trans.
      - exact (replace_nth_frame cs _ cm cm1 Hn Hcm).
      - exact (update_loop_frame _ _ _ _ Hupd). }
    split; [eapply Forall2_same_identity_trans; eassumption |].
    split; [intros r; eapply same_inertia_trans; [apply Hst | apply Hin] |].
    split.
    { intros r Hr. rewrite Helse.
      - apply (resolve_elsewhere _ _ _ _ _ r Hres). apply Hr.
        eapply nth_error_In; eassumption.
      - intros c2 Hc2.
        destruct (same_identity_from_right _ _ Hcs2 _ Hc2) as (c0 & Hc0 & Hsame).
        rewrite (same_identity_endpoints _ _ Hsame). apply Hr. exact Hc0. }
    split; [lia |].
    right. destruct Hlast as [-> | Hl]; [cbn; exact Hlim | exact Hl].
Qed.

Lemma replace_nth_length (c : ParticleContact.t) :
  forall (cs : list ParticleContact.t) (i : nat),
    length (ParticleContactResolver.replace_nth i c cs) = length cs.
Proof.
  induction cs as [| c0 rest IH]; intros i; [destruct i; reflexivity |].
  destruct i; cbn; [reflexivity | now rewrite IH].
Qed.

(** The search loop keeps its starting index when no contact it visits
    needs resolving. *)
Lemma scan_idle (h : store) (n : nat) :
  forall (cs : list ParticleContact.t) (i : nat) (max : num) (mi : nat),
    Forall (fun c => needs_resolving h c = false) (firstn (n - i) cs) ->
    ParticleContactResolver.scan cs i n h max mi = mi.
Proof.
  induction cs as [| c rest IH]; intros i max mi Hall; [reflexivity |].
  cbn [ParticleContactResolver.scan].
  destruct (Nat.ltb i n) eqn:Hi; [| reflexivity].
  apply Nat.ltb_lt in Hi.
  replace (n - i)%nat with (S (n - S i)) in Hall by lia.
  cbn [firstn] in Hall. inversion Hall as [| ? ? Hc Hrest]; subst.
  unfold needs_resolving in Hc. rewrite Hc, andb_false_r.
  apply IH. exact Hrest.
Qed.

(** The search loop picks an index below [numContacts] as soon as one of
    the contacts it visits needs resolving and has a finite separating
    velocity. *)
Lemma scan_finds (h : store) (n : nat) :
  forall (cs : list ParticleContact.t) (i : nat) (max : num) (mi : nat),
    (mi < n)%nat \/ max = PInf ->
    (exists c s, In c (firstn (n - i) cs) /\
                 ParticleContact.calculateSeparatingVelocity c h = Fin s /\
                 needs_resolving h c = true) ->
    (ParticleContactResolver.scan cs i n h max mi < n)%nat.
Proof.
  induction cs as [| c0 rest IH]; intros i max mi Hinv (c & s & Hin & Hs & Hneed).
  { destruct (n - i)%nat; destruct Hin. }
  cbn [ParticleContactResolver.scan].
  destruct (Nat.ltb i n) eqn:Hi.
  2:{ apply Nat.ltb_ge in Hi. replace (n - i)%nat with 0%nat in Hin by lia. destruct Hin. }
  apply Nat.ltb_lt in Hi.
  replace (n - i)%nat with (S (n - S i)) in Hin by lia. cbn [firstn] in Hin.
  match goal with
  | |- context [if ?t then _ else _] => destruct t eqn:Ht
  end.
  - pose proof (scan_range h n rest (S i)
                  (ParticleContact.calculateSeparatingVelocity c0 h) i) as Hr.
    cbv zeta in Hr. destruct Hr as [-> | (_ & _ & Hlt & _)]; assumption.
  - destruct Hin as [<- | Hin].
    + unfold needs_resolving in Hneed. rewrite Hneed, andb_true_r, Hs in Ht.
      assert (Hmi : (mi < n)%nat).
      { destruct Hinv as [Hmi | ->]; [exact Hmi | discriminate Ht]. }
      pose proof (scan_range h n rest (S i) max mi) as Hr.
      cbv zeta in Hr. destruct Hr as [-> | (_ & _ & Hlt & _)]; assumption.
    + apply IH; [exact Hinv |]. exists c, s. auto.
Qed.

Lemma INR_ltb (a b : nat) : (Fin (INR a) <? Fin (INR b))%num = true <-> (a < b)%nat.
Proof.
  rewrite ltb_Fin. split; [apply INR_lt | apply lt_INR].
Qed.

(** A batch in which nothing needs resolving, and a count past the end of
    a batch in which something does. *)
Lemma touching_needs_nothing :
  Forall (fun c => needs_resolving resting_store c = false)
         (firstn 1 [touching_contact]).
Proof.
  cbn [firstn]. apply Forall_cons; [| apply Forall_nil].
  unfold needs_resolving. cbn. decide_reals. reflexivity.
Qed.

Lemma settling_batch_returns :
  exists r' h' cs',
    ParticleContactResolver.resolveContacts
      (resolver_with 2) settling_batch 2 (Fin 1) approaching_store 2
    = Returned (r', h', cs').
Proof.
  assert (Hall : Forall (resolvable approaching_store) settling_batch).
  { pose proof two_body_settling_batch as Hwf.
    pose proof ready_settling_batch as Hz.
    rewrite Forall_forall in *. intros c Hc.
    split; [apply Hwf, Hc | left; apply Hz, Hc]. }
  assert (Hpend : (pending approaching_store settling_batch <= 2)%nat).
  { rewrite pending_settling_batch. lia. }
  destruct (iterate_converges 1 2 2 2 0 approaching_store settling_batch
              eq_refl eq_refl (le_n 2) disjoint_settling_batch Hall Hpend)
    as (used' & h' & cs' & Hrun & _).
  unfold ParticleContactResolver.resolveContacts, resolver_with.
  cbn [ParticleContactResolver.set_iterations ParticleContactResolver.iterations toNumber].
  change (INR 2) with (INR 2) in Hrun. rewrite Hrun. cbn [obind].
  eexists _, h', cs'. reflexivity.
Qed.

(** X1. Whatever the batch, the count, the duration and the resolver, a
    call of [resolveContacts] that returns hands back an array of the same
    length in which every contact has the particles, the normal and the
    restitution it came with: the resolver only rewrites [penetration] and
    [particleMovement]. *)
Theorem resolveContacts_keeps_contacts
  (r : ParticleContactResolver.t) (contactArray : list ParticleContact.t)
  (numContacts : nat) (duration : num) (h : store) (fuel : nat)
  (r' : ParticleContactResolver.t) (h' : store) (cs' : list ParticleContact.t) :
  ParticleContactResolver.resolveContacts r contactArray numContacts duration h fuel
  = Returned (r', h', cs') ->
  length cs' = length contactArray /\ Forall2 same_identity contactArray cs'.
Proof.
  unfold ParticleContactResolver.resolveContacts. intros H.
  destruct (ParticleContactResolver.iterate _ _ _ _ _ _ _) as [[[u h1] cs1] | |] eqn:E;
    cbn [obind] in H; try discriminate.
  inversion H; subst; clear H.
  destruct (iterate_frame _ _ _ _ _ _ _ _ _ _ E) as (Hid & _).
  split; [symmetry; exact (Forall2_length Hid) | exact Hid].
Qed.

Lemma resolveContacts_keeps_contacts_witness :
  exists r' h' cs',
    ParticleContactResolver.resolveContacts
      (resolver_with 2) settling_batch 2 (Fin 1) approaching_store 2
    = Returned (r', h', cs') /\
    length cs' = length settling_batch /\ Forall2 same_identity settling_batch cs'.
Proof.
  destruct settling_batch_returns as (r' & h' & cs' & Hrun).
  exists r', h', cs'. split; [exact Hrun |].
  exact (resolveContacts_keeps_contacts _ _ _ _ _ _ _ _ _ Hrun).
Defined.

(** X2. A call of [resolveContacts] that returns has written no particle's
    inverse mass, damping, acceleration or force accumulator: contact
    resolution only changes positions and velocities. *)
Theorem resolveContacts_keeps_inertia
  (r : ParticleContactResolver.t) (contactArray : list ParticleContact.t)
  (numContacts : nat) (duration : num) (h : store) (fuel : nat)
  (r' : ParticleContactResolver.t) (h' : store) (cs' : list ParticleContact.t) :
  ParticleContactResolver.resolveContacts r contactArray numContacts duration h fuel
  = Returned (r', h', cs') ->
  forall p : ref, same_inertia (h p) (h' p).
Proof.
  unfold ParticleContactResolver.resolveContacts. intros H.
  destruct (ParticleContactResolver.iterate _ _ _ _ _ _ _) as [[[u h1] cs1] | |] eqn:E;
    cbn [obind] in H; try discriminate.
  inversion H; subst; clear H.
  exact (proj1 (proj2 (iterate_frame _ _ _ _ _ _ _ _ _ _ E))).
Qed.

Lemma resolveContacts_keeps_inertia_witness :
  exists r' h' cs',
    ParticleContactResolver.resolveContacts
      (resolver_with 2) settling_batch 2 (Fin 1) approaching_store 2
    = Returned (r', h', cs') /\
    forall p : ref, same_inertia (approaching_store p) (h' p).
Proof.
  destruct settling_batch_returns as (r' & h' & cs' & Hrun).
  exists r', h', cs'. split; [exact Hrun |].
  exact (resolveContacts_keeps_inertia _ _ _ _ _ _ _ _ _ Hrun).
Defined.

(** X3. A particle that is an endpoint of no contact of the array comes out
    of [resolveContacts] exactly as it went in. *)
Theorem resolveContacts_leaves_other_particles
  (r : ParticleContactResolver.t) (contactArray : list ParticleContact.t)
  (numContacts : nat) (duration : num) (h : store) (fuel : nat)
  (r' : ParticleContactResolver.t) (h' : store) (cs' : list ParticleContact.t)
  (p : ref) :
  ParticleContactResolver.resolveContacts r contactArray numContacts duration h fuel
  = Returned (r', h', cs') ->
  (forall c, In c contactArray -> ~ In p (endpoints c)) ->
  h' p = h p.
Proof.
  unfold ParticleContactResolver.resolveContacts. intros H Hp.
  destruct (ParticleContactResolver.iterate _ _ _ _ _ _ _) as [[[u h1] cs1] | |] eqn:E;
    cbn [obind] in H; try discriminate.
  inversion H; subst; clear H.
  destruct (iterate_frame _ _ _ _ _ _ _ _ _ _ E) as (_ & _ & Helse & _).
  exact (Helse p Hp).
Qed.

Lemma resolveContacts_leaves_other_particles_witness :
  exists r' h' cs',
    ParticleContactResolver.resolveContacts
      (resolver_with 2) settling_batch 2 (Fin 1) approaching_store 2
    = Returned (r', h', cs') /\
    h' 4%nat = approaching_store 4%nat.
Proof.
  destruct settling_batch_returns as (r' & h' & cs' & Hrun).
  exists r', h', cs'. split; [exact Hrun |].
  apply (resolveContacts_leaves_other_particles _ _ _ _ _ _ _ _ _ 4%nat Hrun).
  intros c Hc. cbn in Hc.
  destruct Hc as [<- | [<- | []]]; cbn; intuition discriminate.
Defined.

(** X4. On a resolver whose [iterations] is the number [N], a call that
    returns has recorded in [iterationsUsed] a count of rounds that is at
    most [N], and has left [iterations] as it was. *)
Theorem resolveContacts_iterationsUsed_bounded
  (N : nat) (contactArray : list ParticleContact.t)
  (numContacts : nat) (duration : num) (h : store) (fuel : nat)
  (r' : ParticleContactResolver.t) (h' : store) (cs' : list ParticleContact.t) :
  ParticleContactResolver.resolveContacts (resolver_with N) contactArray numContacts
    duration h fuel
  = Returned (r', h', cs') ->
  exists used : nat,
    ParticleContactResolver.iterationsUsed r' = Some (Fin (INR used)) /\
    (used <= N)%nat /\
    ParticleContactResolver.iterations r' = Some (Fin (INR N)).
Proof.
  unfold ParticleContactResolver.resolveContacts, resolver_with.
  cbn [ParticleContactResolver.set_iterations ParticleContactResolver.iterations toNumber].
  intros H.
  destruct (ParticleContactResolver.iterate _ _ _ _ _ _ _) as [[[u h1] cs1] | |] eqn:E;
    cbn [obind] in H; try discriminate.
  inversion H; subst; clear H.
  destruct (iterate_frame _ _ _ _ _ _ _ _ _ _ E) as (_ & _ & _ & _ & Hlast).
  exists u. split; [reflexivity |]. split; [| reflexivity].
  destruct Hlast as [-> | Hl]; [lia |].
  apply INR_ltb in Hl. lia.
Qed.

Lemma resolveContacts_iterationsUsed_bounded_witness :
  exists r' h' cs',
    ParticleContactResolver.resolveContacts
      (resolver_with 2) settling_batch 2 (Fin 1) approaching_store 2
    = Returned (r', h', cs') /\
    exists used : nat,
      ParticleContactResolver.iterationsUsed r' = Some (Fin (INR used)) /\
      (used <= 2)%nat /\
      ParticleContactResolver.iterations r' = Some (Fin (INR 2)).
Proof.
  destruct settling_batch_returns as (r' & h' & cs' & Hrun).
  exists r', h', cs'. split; [exact Hrun |].
  exact (resolveContacts_iterationsUsed_bounded 2 _ _ _ _ _ _ _ _ Hrun).
Defined.

(** X5. When none of the contacts the search loop visits (the first
    [numContacts] of the array) is closing or overlapping, [resolveContacts]
    returns at once: [iterationsUsed] is 0 and the store and the array are
    untouched, whatever [iterations] holds and also when [numContacts]
    exceeds the length of the array. *)
Theorem resolveContacts_idle_batch
  (r : ParticleContactResolver.t) (contactArray : list ParticleContact.t)
  (numContacts : nat) (duration : num) (h : store) (fuel : nat) :
  Forall (fun c => needs_resolving h c = false) (firstn numContacts contactArray) ->
  ParticleContactResolver.resolveContacts r contactArray numContacts duration h (S fuel)
  = Returned (ParticleContactResolver.mk (ParticleContactResolver.iterations r)
                                         (Some (Fin 0)),
              h, contactArray).
Proof.
  intros Hall.
  unfold ParticleContactResolver.resolveContacts.
  cbn [ParticleContactResolver.iterate].
  destruct (Fin (INR 0) <? _)%num; cbn [negb]; [| reflexivity].
  rewrite (scan_idle h numContacts contactArray 0 PInf numContacts)
    by (now rewrite Nat.sub_0_r).
  rewrite Nat.eqb_refl. reflexivity.
Qed.

Lemma resolveContacts_idle_batch_witness :
  ParticleContactResolver.resolveContacts (resolver_with 5) [touching_contact] 1
    (Fin 1) resting_store 1
  = Returned (ParticleContactResolver.mk (Some (Fin (INR 5))) (Some (Fin 0)),
              resting_store, [touching_contact]).
Proof.
  exact (resolveContacts_idle_batch (resolver_with 5) [touching_contact] 1 (Fin 1)
           resting_store 0 touching_needs_nothing).
Defined.

(** X6. The update loop runs over every index below [numContacts] without
    looking at the length of the array.  With a count that exceeds the
    length, a positive [iterations] and a contact that needs resolving and
    has a finite separating velocity, [resolveContacts] raises a TypeError:
    it neither returns nor loops. *)
Theorem resolveContacts_count_past_the_end
  (N : nat) (contactArray : list ParticleContact.t) (numContacts : nat)
  (duration : num) (h : store) (fuel : nat) (c : ParticleContact.t) (s : R) :
  (length contactArray < numContacts)%nat ->
  (0 < N)%nat ->
  In c contactArray ->
  ParticleContact.calculateSeparatingVelocity c h = Fin s ->
  needs_resolving h c = true ->
  ParticleContactResolver.resolveContacts (resolver_with N) contactArray numContacts
    duration h (S fuel)
  = Threw.
Proof.
  intros Hlen HN Hin Hs Hneed.
  unfold ParticleContactResolver.resolveContacts, resolver_with.
  cbn [ParticleContactResolver.set_iterations ParticleContactResolver.iterations toNumber
       ParticleContactResolver.iterate].
  rewrite (proj2 (INR_ltb 0 N) HN). cbn [negb].
  assert (Hfound :
    (ParticleContactResolver.scan contactArray 0 numContacts h PInf numContacts
     < numContacts)%nat).
  { apply scan_finds; [right; reflexivity |].
    exists c, s. split; [| split; assumption].
    rewrite Nat.sub_0_r, firstn_all2 by lia. exact Hin. }
  pose proof (scan_range h numContacts contactArray 0 PInf numContacts) as Hr.
  cbv zeta in Hr.
  set (maxIndex := ParticleContactResolver.scan contactArray 0 numContacts h PInf
                     numContacts) in *.
  destruct Hr as [Heq | (_ & _ & _ & cm & Hnth & _)]; [lia |].
  rewrite (proj2 (Nat.eqb_neq maxIndex numContacts)) by lia.
  rewrite Nat.sub_0_r in Hnth. rewrite Hnth.
  pose proof (resolve_never_out_of_fuel cm duration h) as Hfuel.
  destruct (ParticleContact.resolve cm duration h) as [[h1 cm1] | |];
    cbn [obind]; [| reflexivity | congruence].
  rewrite update_loop_overrun by (rewrite replace_nth_length; exact Hlen).
  reflexivity.
Qed.

Lemma resolveContacts_count_past_the_end_witness :
  ParticleContactResolver.resolveContacts (resolver_with 1) [overlap_contact] 2
    (Fin 1) resting_store 1
  = Threw.
Proof.
  apply (resolveContacts_count_past_the_end 1 [overlap_contact] 2 (Fin 1) resting_store 0
           overlap_contact 0).
  - cbn. lia.
  - lia.
  - left. reflexivity.
  - cbn. apply f_equal. lra.
  - unfold needs_resolving. cbn. decide_reals. reflexivity.
Defined.

(** ** The velocity step of a contact *)

Lemma getMass_movable (p : Particle.t) (m : R) :
  Particle.inverseMass p = Fin m -> 0 < m -> Particle.getMass p = Fin (1 / m).
Proof.
  intros Hm Hpos. unfold Particle.getMass. rewrite Hm.
  unfold eqb. destruct (Req_dec_T m 0) as [-> | _]; [lra |].
  apply div_Fin. lra.
Qed.

Lemma bounce_target_eq (s e acc : R) :
  (if (Fin acc <? Fin 0)%num
   then if (Fin (- s * e + e * acc) <? Fin 0)%num then Fin 0 else Fin (- s * e + e * acc)
   else Fin (- s * e)) = Fin (bounce_target s e acc).
Proof.
  unfold bounce_target, Rmax. simpl.
  destruct (Rlt_dec acc 0); [| reflexivity].
  destruct (Rlt_dec (- s * e + e * acc) 0); destruct (Rle_dec 0 (- s * e + e * acc));
    try reflexivity; exfalso; lra.
Qed.

(** The velocities a closing two-body contact leaves. *)
Lemma resolveVelocity_closing
  (h : store) (c : ParticleContact.t) (d : R) (q : ref)
  (ma mq vax vay vaz vqx vqy vqz aax aay aaz aqx aqy aqz nx ny nz e : R) :
  ParticleContact.particles1 c = Some q ->
  q <> ParticleContact.particles0 c ->
  Particle.inverseMass (h (ParticleContact.particles0 c)) = Fin ma -> 0 < ma ->
  Particle.inverseMass (h q) = Fin mq -> 0 < mq ->
  Particle.velocity (h (ParticleContact.particles0 c)) = vec3.fin vax vay vaz ->
  Particle.velocity (h q) = vec3.fin vqx vqy vqz ->
  Particle.acceleration (h (ParticleContact.particles0 c)) = vec3.fin aax aay aaz ->
  Particle.acceleration (h q) = vec3.fin aqx aqy aqz ->
  ParticleContact.contactNormal c = vec3.fin nx ny nz ->
  ParticleContact.restitution c = Fin e ->
  let s := (vax + - vqx) * nx + (vay + - vqy) * ny + (vaz + - vqz) * nz in
  let acc := ((aax + - aqx) * nx + (aay + - aqy) * ny + (aaz + - aqz) * nz) * d in
  let imp := (bounce_target s e acc - s) / (ma + mq) in
  s <= 0 ->
  forall r,
    ParticleContact.resolveVelocity c (Fin d) h r =
    if Nat.eqb r q
    then Particle.setVelocity (h q)
           (vec3.fin (vqx + nx * imp * - mq) (vqy + ny * imp * - mq) (vqz + nz * imp * - mq))
    else if Nat.eqb r (ParticleContact.particles0 c)
         then Particle.setVelocity (h (ParticleContact.particles0 c))
                (vec3.fin (vax + nx * imp * ma) (vay + ny * imp * ma) (vaz + nz * imp * ma))
         else h r.
Proof.
  intros Hq Hne Hma Hmapos Hmq Hmqpos Hva Hvq Haa Haq Hn He s acc imp Hs.
  unfold ParticleContact.resolveVelocity.
  assert (Hsep : ParticleContact.calculateSeparatingVelocity c h = Fin s).
  { unfold ParticleContact.calculateSeparatingVelocity, Particle.getVelocity, vec3.clone.
    rewrite Hq, Hva, Hvq, Hn. reflexivity. }
  rewrite Hsep.
  rewrite (proj2 (gtb_Fin_false s 0)) by lra.
  assert (Htot : ParticleContact.totalInverseMass c h = Fin (ma + mq)).
  { unfold ParticleContact.totalInverseMass, Particle.getInverseMass.
    rewrite Hq, Hma, Hmq. reflexivity. }
  rewrite Htot. rewrite (proj2 (leb_Fin_false (ma + mq) 0)) by lra.
  rewrite Hq. unfold Particle.getAcceleration, Particle.getVelocity,
    Particle.getInverseMass, vec3.clone.
  rewrite Haa, Haq, Hn, He, Hma, Hva.
  rewrite upd_other by exact Hne. rewrite Hvq, Hmq.
  unfold vec3.sub, vec3.dot, vec3.fin.
  cbn [vec3.x vec3.y vec3.z sub add mul neg].
  fold s. fold acc.
  rewrite (bounce_target_eq s e acc).
  rewrite sub_Fin, div_Fin by lra.
  unfold vec3.scaleAndAdd, vec3.scale.
  cbn [vec3.x vec3.y vec3.z sub add mul neg].
  fold imp. intros r. unfold upd. reflexivity.
Qed.

Lemma resolveVelocity_separating (h : store) (c : ParticleContact.t) (d : num) (s : R) :
  ParticleContact.calculateSeparatingVelocity c h = Fin s -> 0 < s ->
  ParticleContact.resolveVelocity c d h = h.
Proof.
  intros Hs Hpos. unfold ParticleContact.resolveVelocity.
  rewrite Hs, (proj2 (gtb_Fin s 0) Hpos). reflexivity.
Qed.

Lemma two_body_unequal : two_body unequal_store unequal_contact.
Proof. two_body_eval. Qed.

(** X7. The velocity step of a contact between two distinct movable
    particles conserves momentum: the sum of mass times velocity over the
    two particles is the same after [resolveVelocity] as before, in exact
    arithmetic. *)
Theorem resolveVelocity_conserves_momentum
  (h : store) (c : ParticleContact.t) (d : R) :
  two_body h c ->
  over_contact momentum c (ParticleContact.resolveVelocity c (Fin d) h)
  = over_contact momentum c h.
Proof.
  intros Htb.
  destruct (two_body_separatingVelocity h c Htb) as (s0 & Hs0).
  destruct (Rlt_dec 0 s0) as [Hpos | Hneg].
  { now rewrite (resolveVelocity_separating h c (Fin d) s0 Hs0 Hpos). }
  destruct Htb as
    [ (q & Hq & Hne & [ (mq & Hmq & Hmqpos) (vqx & vqy & vqz & Hvq) (aqx & aqy & aqz & Haq) ])
      [ (ma & Hma & Hmapos) (vax & vay & vaz & Hva) (aax & aay & aaz & Haa) ]
      (nx & ny & nz & Hn & Hunit) (e & He & Hepos) (p & Hp) ].
  assert (Hs : (vax + - vqx) * nx + (vay + - vqy) * ny + (vaz + - vqz) * nz <= 0).
  { rewrite (separatingVelocity_two h c q Hq), Hva, Hvq, Hn in Hs0.
    unfold vec3.sub, vec3.dot, vec3.fin in Hs0.
    cbn [vec3.x vec3.y vec3.z sub add mul neg] in Hs0.
    inversion Hs0. lra. }
  pose proof (resolveVelocity_closing h c d q ma mq vax vay vaz vqx vqy vqz
                aax aay aaz aqx aqy aqz nx ny nz e
                Hq Hne Hma Hmapos Hmq Hmqpos Hva Hvq Haa Haq Hn He Hs) as Hrv.
  cbv zeta in Hrv.
  set (imp := (bounce_target _ e _ - _) / (ma + mq)) in Hrv.
  unfold over_contact. rewrite Hq.
  rewrite (Hrv q), (Hrv (ParticleContact.particles0 c)).
  rewrite Nat.eqb_refl.
  rewrite (proj2 (Nat.eqb_neq (ParticleContact.particles0 c) q)) by congruence.
  rewrite Nat.eqb_refl.
  unfold momentum, Particle.setVelocity, Particle.set_velocity, vec3.copy.
  cbn [Particle.velocity].
  rewrite Hva, Hvq.
  assert (Hga : forall v, Particle.getMass
            (Particle.mk (Particle.inverseMass (h (ParticleContact.particles0 c)))
               (Particle.damping (h (ParticleContact.particles0 c)))
               (Particle.position (h (ParticleContact.particles0 c))) v
               (Particle.forceAccum (h (ParticleContact.particles0 c)))
               (Particle.acceleration (h (ParticleContact.particles0 c)))) = Fin (1 / ma)).
  { intros v. apply getMass_movable; [exact Hma | exact Hmapos]. }
  assert (Hgq : forall v, Particle.getMass
            (Particle.mk (Particle.inverseMass (h q)) (Particle.damping (h q))
               (Particle.position (h q)) v (Particle.forceAccum (h q))
               (Particle.acceleration (h q))) = Fin (1 / mq)).
  { intros v. apply getMass_movable; [exact Hmq | exact Hmqpos]. }
  rewrite Hga, Hgq.
  rewrite (getMass_movable _ ma Hma Hmapos), (getMass_movable _ mq Hmq Hmqpos).
  unfold vec3.scale, vec3.add, vec3.fin.
  cbn [vec3.x vec3.y vec3.z add mul].
  apply f_equal3; apply f_equal; field; lra.
Qed.

Lemma resolveVelocity_conserves_momentum_witness :
  over_contact momentum unequal_contact
    (ParticleContact.resolveVelocity unequal_contact (Fin 1) unequal_store)
  = over_contact momentum unequal_contact unequal_store.
Proof.
  exact (resolveVelocity_conserves_momentum unequal_store unequal_contact 1
           two_body_unequal).
Defined.

(** X8. The bounce law.  For a contact between two distinct movable
    particles that is not separating (separating velocity [s <= 0]), the
    separating velocity recomputed after [resolveVelocity] is
    [- s * e] when the acceleration built up no closing velocity over the
    frame, and [max 0 (- s * e + e * acc)] when it built up [acc < 0]: never
    negative for a restitution [e >= 0]. *)
Theorem resolveVelocity_bounce_law
  (h : store) (c : ParticleContact.t) (d s e acc : R) :
  two_body h c ->
  ParticleContact.calculateSeparatingVelocity c h = Fin s ->
  s <= 0 ->
  ParticleContact.restitution c = Fin e ->
  accCausedSepVelocity c (Fin d) h = Fin acc ->
  ParticleContact.calculateSeparatingVelocity c
    (ParticleContact.resolveVelocity c (Fin d) h)
  = Fin (bounce_target s e acc).
Proof.
  intros Htb Hs0 Hsle He0 Hacc0.
  destruct Htb as
    [ (q & Hq & Hne & [ (mq & Hmq & Hmqpos) (vqx & vqy & vqz & Hvq) (aqx & aqy & aqz & Haq) ])
      [ (ma & Hma & Hmapos) (vax & vay & vaz & Hva) (aax & aay & aaz & Haa) ]
      (nx & ny & nz & Hn & Hunit) (e' & He & Hepos) (p & Hp) ].
  assert (e' = e) by congruence. subst e'.
  assert (Hs : (vax + - vqx) * nx + (vay + - vqy) * ny + (vaz + - vqz) * nz = s).
  { rewrite (separatingVelocity_two h c q Hq), Hva, Hvq, Hn in Hs0.
    unfold vec3.sub, vec3.dot, vec3.fin in Hs0.
    cbn [vec3.x vec3.y vec3.z sub add mul neg] in Hs0.
    now inversion Hs0. }
  assert (Ha : ((aax + - aqx) * nx + (aay + - aqy) * ny + (aaz + - aqz) * nz) * d = acc).
  { unfold accCausedSepVelocity in Hacc0. rewrite Hq, Haa, Haq, Hn in Hacc0.
    unfold vec3.sub, vec3.dot, vec3.fin in Hacc0.
    cbn [vec3.x vec3.y vec3.z sub add mul neg] in Hacc0.
    now inversion Hacc0. }
  assert (Hs' : (vax + - vqx) * nx + (vay + - vqy) * ny + (vaz + - vqz) * nz <= 0) by lra.
  pose proof (resolveVelocity_closing h c d q ma mq vax vay vaz vqx vqy vqz
                aax aay aaz aqx aqy aqz nx ny nz e
                Hq Hne Hma Hmapos Hmq Hmqpos Hva Hvq Haa Haq Hn He Hs') as Hrv.
  cbv zeta in Hrv. rewrite Hs, Ha in Hrv.
  set (imp := (bounce_target s e acc - s) / (ma + mq)) in Hrv.
  rewrite (separatingVelocity_two _ c q Hq).
  rewrite (Hrv q), (Hrv (ParticleContact.particles0 c)).
  rewrite Nat.eqb_refl.
  rewrite (proj2 (Nat.eqb_neq (ParticleContact.particles0 c) q)) by congruence.
  rewrite Nat.eqb_refl.
  unfold Particle.setVelocity, Particle.set_velocity, vec3.copy.
  cbn [Particle.velocity]. rewrite Hn.
  unfold vec3.sub, vec3.dot, vec3.fin.
  cbn [vec3.x vec3.y vec3.z sub add mul neg].
  apply f_equal.
  transitivity (s + imp * (ma + mq) * (nx * nx + ny * ny + nz * nz)).
  - rewrite <- Hs. ring.
  - rewrite Hunit. unfold imp. field. lra.
Qed.

Lemma resolveVelocity_bounce_law_witness :
  ParticleContact.calculateSeparatingVelocity unequal_contact
    (ParticleContact.resolveVelocity unequal_contact (Fin 1) unequal_store)
  = Fin (bounce_target (-3) (1/2) 0).
Proof.
  apply (resolveVelocity_bounce_law unequal_store unequal_contact 1 (-3) (1/2) 0).
  - exact two_body_unequal.
  - cbn. apply f_equal. lra.
  - lra.
  - reflexivity.
  - cbn. apply f_equal. lra.
Defined.

(** ** The position step of a contact *)

(** The movements an overlapping two-body contact records and applies. *)
Lemma resolveInterpenetration_moves
  (h : store) (c : ParticleContact.t) (d : num) (q : ref) (ma mq nx ny nz p : R) :
  ParticleContact.particles1 c = Some q ->
  q <> ParticleContact.particles0 c ->
  Particle.inverseMass (h (ParticleContact.particles0 c)) = Fin ma -> 0 < ma ->
  Particle.inverseMass (h q) = Fin mq -> 0 < mq ->
  ParticleContact.contactNormal c = vec3.fin nx ny nz ->
  ParticleContact.penetration c = Fin p -> 0 < p ->
  let k := p / (ma + mq) in
  let m0 := vec3.fin (nx * k * ma) (ny * k * ma) (nz * k * ma) in
  let m1 := vec3.fin (nx * k * - mq) (ny * k * - mq) (nz * k * - mq) in
  exists h2,
    ParticleContact.resolveInterpenetration c d h =
      Returned (h2, ParticleContact.set_particleMovement1
                      (ParticleContact.set_particleMovement0 c (Some m0)) (Some m1)) /\
    h2 (ParticleContact.particles0 c) =
      Particle.setPosition (h (ParticleContact.particles0 c))
        (vec3.add (Particle.position (h (ParticleContact.particles0 c))) m0) /\
    h2 q = Particle.setPosition (h q) (vec3.add (Particle.position (h q)) m1).
Proof.
  intros Hq Hne Hma Hmapos Hmq Hmqpos Hn Hp Hpos k m0 m1.
  unfold ParticleContact.resolveInterpenetration.
  rewrite Hp. rewrite (proj2 (leb_Fin_false p 0)) by lra.
  assert (Htot : ParticleContact.totalInverseMass c h = Fin (ma + mq)).
  { unfold ParticleContact.totalInverseMass, Particle.getInverseMass.
    rewrite Hq, Hma, Hmq. reflexivity. }
  rewrite Htot. rewrite (proj2 (leb_Fin_false (ma + mq) 0)) by lra.
  cbn [ParticleContact.particles1 ParticleContact.set_particleMovement0
       ParticleContact.set_particleMovement1 ParticleContact.particles0].
  rewrite Hq. cbn [obind].
  unfold Particle.getInverseMass, Particle.getPosition. rewrite Hma, Hmq, Hn.
  rewrite div_Fin by lra.
  unfold vec3.scale, vec3.fin. cbn [vec3.x vec3.y vec3.z mul neg].
  fold k. eexists. split; [reflexivity |].
  cbn [ParticleContact.particles1 ParticleContact.set_particleMovement0
       ParticleContact.set_particleMovement1 ParticleContact.particles0].
  rewrite Hq. split.
  - rewrite upd_other by congruence. rewrite upd_same. reflexivity.
  - rewrite upd_same. rewrite upd_other by exact Hne. reflexivity.
Qed.

Lemma two_body_placed_unequal :
  two_body unequal_store unequal_contact /\ placed unequal_store unequal_contact.
Proof.
  split; [two_body_eval |].
  split; cbn; eexists _, _, _; reflexivity.
Qed.

(** X9. The position step of an overlapping contact between two distinct
    movable particles moves them apart along the normal by exactly the
    penetration, each in inverse proportion to its mass: the gap along the
    normal grows by [penetration] and the mass-weighted sum of the two
    positions (the centre of mass) stays where it was, in exact
    arithmetic. *)
Theorem resolveInterpenetration_separates_about_centre_of_mass
  (h : store) (c : ParticleContact.t) (d : num) (p : R) :
  two_body h c ->
  placed h c ->
  ParticleContact.penetration c = Fin p -> 0 < p ->
  exists h2 c2 g,
    ParticleContact.resolveInterpenetration c d h = Returned (h2, c2) /\
    over_contact weighted_position c h2 = over_contact weighted_position c h /\
    gap c h = Fin g /\
    gap c h2 = Fin (g + p).
Proof.
  intros Htb Hplaced Hp Hpos.
  destruct Htb as
    [ (q & Hq & Hne & [ (mq & Hmq & Hmqpos) _ _ ])
      [ (ma & Hma & Hmapos) _ _ ]
      (nx & ny & nz & Hn & Hunit) _ _ ].
  destruct Hplaced as ((pax & pay & paz & Hpa) & Hpq). rewrite Hq in Hpq.
  destruct Hpq as (pqx & pqy & pqz & Hpq).
  destruct (resolveInterpenetration_moves h c d q ma mq nx ny nz p
              Hq Hne Hma Hmapos Hmq Hmqpos Hn Hp Hpos) as (h2 & Hrun & H0 & H1).
  cbv zeta in Hrun, H0, H1.
  set (k := p / (ma + mq)) in *.
  exists h2. eexists. exists ((pax + - pqx) * nx + (pay + - pqy) * ny + (paz + - pqz) * nz).
  split; [exact Hrun |].
  unfold over_contact, gap. rewrite Hq, H0, H1.
  unfold weighted_position, Particle.setPosition, Particle.set_position, vec3.copy.
  cbn [Particle.position].
  assert (Hga : forall v, Particle.getMass
            (Particle.mk (Particle.inverseMass (h (ParticleContact.particles0 c)))
               (Particle.damping (h (ParticleContact.particles0 c))) v
               (Particle.velocity (h (ParticleContact.particles0 c)))
               (Particle.forceAccum (h (ParticleContact.particles0 c)))
               (Particle.acceleration (h (ParticleContact.particles0 c)))) = Fin (1 / ma)).
  { intros v. apply getMass_movable; [exact Hma | exact Hmapos]. }
  assert (Hgq : forall v, Particle.getMass
            (Particle.mk (Particle.inverseMass (h q)) (Particle.damping (h q)) v
               (Particle.velocity (h q)) (Particle.forceAccum (h q))
               (Particle.acceleration (h q))) = Fin (1 / mq)).
  { intros v. apply getMass_movable; [exact Hmq | exact Hmqpos]. }
  rewrite Hga, Hgq.
  rewrite (getMass_movable _ ma Hma Hmapos), (getMass_movable _ mq Hmq Hmqpos).
  rewrite Hpa, Hpq, Hn.
  unfold vec3.scale, vec3.add, vec3.sub, vec3.dot, vec3.fin.
  cbn [vec3.x vec3.y vec3.z add sub mul neg].
  split; [apply f_equal3; apply f_equal; field; lra |].
  split; [reflexivity |].
  apply f_equal.
  transitivity ((pax + - pqx) * nx + (pay + - pqy) * ny + (paz + - pqz) * nz
                + k * (ma + mq) * (nx * nx + ny * ny + nz * nz)).
  - ring.
  - rewrite Hunit. unfold k. field. lra.
Qed.

Lemma resolveInterpenetration_separates_about_centre_of_mass_witness :
  exists h2 c2 g,
    ParticleContact.resolveInterpenetration unequal_contact (Fin 1) unequal_store
    = Returned (h2, c2) /\
    over_contact weighted_position unequal_contact h2
    = over_contact weighted_position unequal_contact unequal_store /\
    gap unequal_contact unequal_store = Fin g /\
    gap unequal_contact h2 = Fin (g + 3/10).
Proof.
  apply (resolveInterpenetration_separates_about_centre_of_mass
           unequal_store unequal_contact (Fin 1) (3/10)).
  - exact (proj1 two_body_placed_unequal).
  - exact (proj2 two_body_placed_unequal).
  - reflexivity.
  - lra.
Defined.

(** ** A particle against the scenery *)

Lemma one_body_floor : one_body falling_store floor_contact.
Proof.
  constructor.
  - reflexivity.
  - movable_eval.
  - eexists _, _, _; split; [reflexivity | lra].
  - eexists; reflexivity.
Qed.

(** X10. In exact arithmetic, for a movable particle that is not moving
    away from the scenery (separating velocity [s <= 0]), [resolveVelocity]
    changes the velocity along the contact normal only, by
    [bounce_target s e acc - s]: the component along the normal becomes the
    bounce target and the tangential part is kept, whatever the mass of the
    particle.  No other particle is written. *)
Theorem resolveVelocity_against_scenery
  (h : store) (c : ParticleContact.t) (d s e acc : R) :
  one_body h c ->
  ParticleContact.calculateSeparatingVelocity c h = Fin s ->
  s <= 0 ->
  ParticleContact.restitution c = Fin e ->
  accCausedSepVelocity c (Fin d) h = Fin acc ->
  let h' := ParticleContact.resolveVelocity c (Fin d) h in
  Particle.velocity (h' (ParticleContact.particles0 c))
  = vec3.scaleAndAdd (Particle.velocity (h (ParticleContact.particles0 c)))
      (ParticleContact.contactNormal c) (Fin (bounce_target s e acc - s)) /\
  ParticleContact.calculateSeparatingVelocity c h' = Fin (bounce_target s e acc) /\
  forall r, r <> ParticleContact.particles0 c -> h' r = h r.
Proof.
  intros [ Hq [ (ma & Hma & Hmapos) (vax & vay & vaz & Hva) (aax & aay & aaz & Haa) ]
           (nx & ny & nz & Hn & Hunit) (e' & He) ] Hs0 Hsle He0 Hacc0 h'.
  assert (e' = e) by congruence. subst e'.
  assert (Hs : vax * nx + vay * ny + vaz * nz = s).
  { unfold ParticleContact.calculateSeparatingVelocity, Particle.getVelocity, vec3.clone in Hs0.
    rewrite Hq, Hva, Hn in Hs0.
    unfold vec3.dot, vec3.fin in Hs0. cbn [vec3.x vec3.y vec3.z add mul] in Hs0.
    now inversion Hs0. }
  assert (Ha : (aax * nx + aay * ny + aaz * nz) * d = acc).
  { unfold accCausedSepVelocity in Hacc0. rewrite Hq, Haa, Hn in Hacc0.
    unfold vec3.dot, vec3.fin in Hacc0. cbn [vec3.x vec3.y vec3.z add mul] in Hacc0.
    now inversion Hacc0. }
  assert (Hh' : h' = upd h (ParticleContact.particles0 c)
                  (Particle.setVelocity (h (ParticleContact.particles0 c))
                     (vec3.fin (vax + nx * ((bounce_target s e acc - s) / ma) * ma)
                               (vay + ny * ((bounce_target s e acc - s) / ma) * ma)
                               (vaz + nz * ((bounce_target s e acc - s) / ma) * ma)))).
  { unfold h', ParticleContact.resolveVelocity.
    rewrite Hs0. rewrite (proj2 (gtb_Fin_false s 0)) by lra.
    assert (Htot : ParticleContact.totalInverseMass c h = Fin ma).
    { unfold ParticleContact.totalInverseMass, Particle.getInverseMass.
      rewrite Hq, Hma. reflexivity. }
    rewrite Htot. rewrite (proj2 (leb_Fin_false ma 0)) by lra.
    rewrite Hq. unfold Particle.getAcceleration, Particle.getVelocity,
      Particle.getInverseMass, vec3.clone.
    rewrite Haa, Hn, He, Hma, Hva.
    unfold vec3.dot, vec3.fin. cbn [vec3.x vec3.y vec3.z add mul neg].
    rewrite Ha. rewrite (bounce_target_eq s e acc).
    rewrite sub_Fin, div_Fin by lra.
    unfold vec3.scaleAndAdd, vec3.scale. cbn [vec3.x vec3.y vec3.z add mul].
    reflexivity. }
  split; [| split].
  - rewrite Hh', upd_same, Hva, Hn.
    unfold Particle.setVelocity, Particle.set_velocity, vec3.copy, vec3.scaleAndAdd, vec3.fin.
    cbn [Particle.velocity vec3.x vec3.y vec3.z add mul].
    apply f_equal3; apply f_equal; field; lra.
  - unfold ParticleContact.calculateSeparatingVelocity, Particle.getVelocity, vec3.clone.
    rewrite Hq, Hh', upd_same, Hn.
    unfold Particle.setVelocity, Particle.set_velocity, vec3.copy, vec3.dot, vec3.fin.
    cbn [Particle.velocity vec3.x vec3.y vec3.z add mul].
    apply f_equal.
    transitivity (s + (bounce_target s e acc - s) / ma * ma
                      * (nx * nx + ny * ny + nz * nz)).
    + rewrite <- Hs. ring.
    + rewrite Hunit. field. lra.
  - intros r Hr. rewrite Hh'. apply upd_other. exact Hr.
Qed.

Lemma resolveVelocity_against_scenery_witness :
  let h' := ParticleContact.resolveVelocity floor_contact (Fin 1) falling_store in
  Particle.velocity (h' 0%nat)
  = vec3.scaleAndAdd (vec3.fin 1 (-2) 0) (vec3.fin 0 1 0)
      (Fin (bounce_target (-2) (1/2) 0 - -2)) /\
  ParticleContact.calculateSeparatingVelocity floor_contact h'
  = Fin (bounce_target (-2) (1/2) 0) /\
  forall r, r <> 0%nat -> h' r = falling_store r.
Proof.
  apply (resolveVelocity_against_scenery falling_store floor_contact 1 (-2) (1/2) 0).
  - exact one_body_floor.
  - cbn. apply f_equal. lra.
  - lra.
  - reflexivity.
  - cbn. apply f_equal. lra.
Defined.

(** ** Particles that cannot be moved *)

Lemma immovable_total :
  (ParticleContact.totalInverseMass overlap_contact immovable_store <=? Fin 0)%num = true.
Proof. cbn. decide_reals. reflexivity. Qed.

(** X11. A contact whose total inverse mass is not positive (both
    particles immovable, or one immovable particle against the scenery)
    is left alone by [resolve]: no velocity, no position and no field of the
    contact is written, however deep the overlap. *)
Theorem resolve_leaves_immovable_contact
  (h : store) (c : ParticleContact.t) (d : num) :
  (ParticleContact.totalInverseMass c h <=? Fin 0)%num = true ->
  ParticleContact.resolve c d h = Returned (h, c).
Proof.
  intros Htot.
  assert (Hv : ParticleContact.resolveVelocity c d h = h).
  { unfold ParticleContact.resolveVelocity.
    rewrite Htot.
    destruct (ParticleContact.calculateSeparatingVelocity c h >? Fin 0)%num; reflexivity. }
  unfold ParticleContact.resolve. rewrite Hv.
  unfold ParticleContact.resolveInterpenetration.
  rewrite Htot. destruct (ParticleContact.penetration c <=? Fin 0)%num; reflexivity.
Qed.

Lemma resolve_leaves_immovable_contact_witness :
  ParticleContact.resolve overlap_contact (Fin 1) immovable_store
  = Returned (immovable_store, overlap_contact).
Proof.
  exact (resolve_leaves_immovable_contact immovable_store overlap_contact (Fin 1)
           immovable_total).
Defined.

(** ** Lengths and unit vectors *)

Lemma squares_nonneg (x y z : R) : 0 <= x * x + y * y + z * z.
Proof. nra. Qed.

Lemma norm_nonneg (x y z : R) : 0 <= norm x y z.
Proof. apply sqrt_pos. Qed.

Lemma norm_sqr (x y z : R) : norm x y z * norm x y z = x * x + y * y + z * z.
Proof. unfold norm. apply sqrt_sqrt. apply squares_nonneg. Qed.

Lemma norm_pos (x y z : R) : 0 < x * x + y * y + z * z -> 0 < norm x y z.
Proof. intros H. unfold norm. now apply sqrt_lt_R0. Qed.

Lemma norm_zero (x y z : R) :
  ~ 0 < x * x + y * y + z * z -> x = 0 /\ y = 0 /\ z = 0.
Proof. intros H. repeat split; nra. Qed.

Lemma vec3_len_fin (x y z : R) : vec3_len (vec3.fin x y z) = Fin (norm x y z).
Proof.
  unfold vec3_len, vec3.fin, Math_sqrt. cbn [vec3.x vec3.y vec3.z mul add].
  destruct (Rlt_dec (x * x + y * y + z * z) 0) as [H | _]; [| reflexivity].
  pose proof (squares_nonneg x y z). lra.
Qed.

(** [vec3.normalize] of a finite vector that is not zero. *)
Lemma vec3_normalize_fin (x y z : R) :
  0 < x * x + y * y + z * z ->
  vec3_normalize (vec3.fin x y z)
  = vec3.fin (x * (1 / norm x y z)) (y * (1 / norm x y z)) (z * (1 / norm x y z)).
Proof.
  intros Hpos. unfold vec3_normalize, vec3.fin. cbn [vec3.x vec3.y vec3.z mul add].
  rewrite (proj2 (gtb_Fin (x * x + y * y + z * z) 0) Hpos).
  unfold Math_sqrt.
  destruct (Rlt_dec (x * x + y * y + z * z) 0) as [H | _]; [lra |].
  fold (norm x y z).
  rewrite div_Fin by (pose proof (norm_pos x y z Hpos); lra).
  reflexivity.
Qed.

Lemma set_forceAccum_eq (p : Particle.t) (a b : vec3.t) :
  a = b -> Particle.set_forceAccum p a = Particle.set_forceAccum p b.
Proof. now intros ->. Qed.

(** ** Drag *)

(** X12. For finite coefficients and a finite velocity [v] that is not
    zero, the drag generator adds [-(k1 + k2 * |v|) * v] to the force
    accumulator and writes nothing else: the force opposes the motion for
    coefficients that are not negative, and the duration plays no part. *)
Theorem drag_updateForce_closed_form
  (d : ParticleDrag.t) (p : Particle.t) (duration : num)
  (k1 k2 vx vy vz fx fy fz : R) :
  ParticleDrag.k1 d = Fin k1 ->
  ParticleDrag.k2 d = Fin k2 ->
  Particle.velocity p = vec3.fin vx vy vz ->
  0 < vx * vx + vy * vy + vz * vz ->
  Particle.forceAccum p = vec3.fin fx fy fz ->
  ParticleDrag.updateForce d p duration
  = Particle.set_forceAccum p
      (vec3.scaleAndAdd (Particle.forceAccum p) (Particle.velocity p)
         (Fin (- (k1 + k2 * norm vx vy vz)))).
Proof.
  intros Hk1 Hk2 Hv Hpos Hf.
  unfold ParticleDrag.updateForce, Particle.addForce, Particle.getVelocity, vec3.clone.
  apply set_forceAccum_eq.
  rewrite Hk1, Hk2, Hv, Hf, vec3_len_fin.
  rewrite (vec3_normalize_fin vx vy vz Hpos).
  pose proof (norm_pos vx vy vz Hpos) as HL.
  unfold vec3.scale, vec3.add, vec3.scaleAndAdd, vec3.fin.
  cbn [vec3.x vec3.y vec3.z mul add neg].
  apply f_equal3; apply f_equal; field; lra.
Qed.

Lemma drag_updateForce_closed_form_witness :
  ParticleDrag.updateForce light_drag gliding_particle (Fin 1)
  = Particle.set_forceAccum gliding_particle
      (vec3.scaleAndAdd (vec3.fin 1 1 1) (vec3.fin 3 4 0)
         (Fin (- (1/10 + 1/100 * norm 3 4 0)))).
Proof.
  apply (drag_updateForce_closed_form light_drag gliding_particle (Fin 1)
           (1/10) (1/100) 3 4 0 1 1 1);
    [reflexivity | reflexivity | reflexivity | lra | reflexivity].
Defined.

(** ** Springs *)

(** X13. With [d] the finite, non-zero vector from the other end of the
    spring to the particle and [L] its length, [ParticleSpring] adds
    [-(k * |L - restLength| / L) * d] to the force accumulator and writes
    nothing else.  Because of the absolute value the force points to the
    other end for [k > 0] when the spring is stretched and also when it is
    compressed. *)
Theorem spring_updateForce_closed_form
  (s : ParticleSpring.t) (o p : Particle.t) (duration : num)
  (k rest dx dy dz fx fy fz : R) :
  ParticleSpring.springConstant s = Fin k ->
  ParticleSpring.restLength s = Fin rest ->
  vec3.sub (Particle.position p) (Particle.position o) = vec3.fin dx dy dz ->
  0 < dx * dx + dy * dy + dz * dz ->
  Particle.forceAccum p = vec3.fin fx fy fz ->
  ParticleSpring.updateForce s o p duration
  = Particle.set_forceAccum p
      (vec3.scaleAndAdd (Particle.forceAccum p) (vec3.fin dx dy dz)
         (Fin (- (k * Rabs (norm dx dy dz - rest) / norm dx dy dz)))).
Proof.
  intros Hk Hrest Hd Hpos Hf.
  unfold ParticleSpring.updateForce, Particle.addForce, Particle.getPosition, vec3.clone.
  apply set_forceAccum_eq.
  rewrite Hd, Hk, Hrest, Hf, vec3_len_fin, (vec3_normalize_fin dx dy dz Hpos).
  pose proof (norm_pos dx dy dz Hpos) as HL.
  unfold vec3.scale, vec3.add, vec3.scaleAndAdd, vec3.fin, Math_abs.
  cbn [vec3.x vec3.y vec3.z mul add sub neg].
  change (norm dx dy dz + - rest) with (norm dx dy dz - rest).
  apply f_equal3; apply f_equal; field; lra.
Qed.

Lemma spring_updateForce_closed_form_witness :
  ParticleSpring.updateForce long_spring anchor_particle gliding_particle (Fin 1)
  = Particle.set_forceAccum gliding_particle
      (vec3.scaleAndAdd (vec3.fin 1 1 1) (vec3.fin (3 + - 0) (4 + - 0) (0 + - 0))
         (Fin (- (2 * Rabs (norm (3 + - 0) (4 + - 0) (0 + - 0) - 10)
                  / norm (3 + - 0) (4 + - 0) (0 + - 0))))).
Proof.
  apply (spring_updateForce_closed_form long_spring anchor_particle gliding_particle (Fin 1)
           2 10 (3 + - 0) (4 + - 0) (0 + - 0) 1 1 1);
    [reflexivity | reflexivity | reflexivity | lra | reflexivity].
Defined.

(** X14. With [d] the finite, non-zero vector from the anchor to the
    particle and [L] its length, [ParticleAnchoredSpring] adds
    [(k * (restLength - L) / L) * d]: Hooke's law, pulling towards the
    anchor when stretched and pushing away when compressed, and adding the
    zero vector at the rest length. *)
Theorem anchoredSpring_updateForce_closed_form
  (s : ParticleAnchoredSpring.t) (p : Particle.t) (duration : num)
  (k rest dx dy dz fx fy fz : R) :
  ParticleAnchoredSpring.springConstant s = Fin k ->
  ParticleAnchoredSpring.restLength s = Fin rest ->
  vec3.sub (Particle.position p) (ParticleAnchoredSpring.anchor s) = vec3.fin dx dy dz ->
  0 < dx * dx + dy * dy + dz * dz ->
  Particle.forceAccum p = vec3.fin fx fy fz ->
  ParticleAnchoredSpring.updateForce s p duration
  = Particle.set_forceAccum p
      (vec3.scaleAndAdd (Particle.forceAccum p) (vec3.fin dx dy dz)
         (Fin (k * (rest - norm dx dy dz) / norm dx dy dz))).
Proof.
  intros Hk Hrest Hd Hpos Hf.
  unfold ParticleAnchoredSpring.updateForce, Particle.addForce, Particle.getPosition,
    vec3.copy.
  apply set_forceAccum_eq.
  rewrite Hd, Hk, Hrest, Hf, vec3_len_fin, (vec3_normalize_fin dx dy dz Hpos).
  pose proof (norm_pos dx dy dz Hpos) as HL.
  unfold vec3.scale, vec3.add, vec3.scaleAndAdd, vec3.fin.
  cbn [vec3.x vec3.y vec3.z mul add sub neg].
  apply f_equal3; apply f_equal; field; lra.
Qed.

Lemma anchoredSpring_updateForce_closed_form_witness :
  ParticleAnchoredSpring.updateForce long_anchored_spring gliding_particle (Fin 1)
  = Particle.set_forceAccum gliding_particle
      (vec3.scaleAndAdd (vec3.fin 1 1 1) (vec3.fin (3 + - 0) (4 + - 0) (0 + - 0))
         (Fin (2 * (10 - norm (3 + - 0) (4 + - 0) (0 + - 0))
               / norm (3 + - 0) (4 + - 0) (0 + - 0)))).
Proof.
  apply (anchoredSpring_updateForce_closed_form long_anchored_spring gliding_particle (Fin 1)
           2 10 (3 + - 0) (4 + - 0) (0 + - 0) 1 1 1);
    [reflexivity | reflexivity | reflexivity | lra | reflexivity].
Defined.

(** ** Bungees *)

(** X15. With [d] the finite vector from the other end to the particle and
    [L] its length, [ParticleBungee] does nothing while [L <= restLength];
    once stretched it adds [(k * (L - restLength) / L) * d], which for
    [k > 0] is a positive multiple of [d]: the force points away from the
    other end of the bungee. *)
Theorem bungee_updateForce_closed_form
  (s : ParticleBungee.t) (o p : Particle.t) (duration : num)
  (k rest dx dy dz fx fy fz : R) :
  ParticleBungee.springConstant s = Fin k ->
  ParticleBungee.restLength s = Fin rest ->
  vec3.sub (Particle.position p) (Particle.position o) = vec3.fin dx dy dz ->
  Particle.forceAccum p = vec3.fin fx fy fz ->
  (norm dx dy dz <= rest -> ParticleBungee.updateForce s o p duration = p) /\
  (rest < norm dx dy dz -> 0 <= rest ->
   ParticleBungee.updateForce s o p duration
   = Particle.set_forceAccum p
       (vec3.scaleAndAdd (Particle.forceAccum p) (vec3.fin dx dy dz)
          (Fin (k * (norm dx dy dz - rest) / norm dx dy dz)))).
Proof.
  intros Hk Hrest Hd Hf.
  unfold ParticleBungee.updateForce, Particle.addForce, Particle.getPosition, vec3.clone.
  rewrite Hd, Hk, Hrest, Hf, vec3_len_fin.
  split.
  - intros Hle. now rewrite (proj2 (leb_Fin (norm dx dy dz) rest) Hle).
  - intros Hlt Hr. rewrite (proj2 (leb_Fin_false (norm dx dy dz) rest) Hlt).
    apply set_forceAccum_eq.
    assert (Hpos : 0 < dx * dx + dy * dy + dz * dz).
    { destruct (Rlt_dec 0 (dx * dx + dy * dy + dz * dz)) as [H | H]; [exact H |].
      destruct (norm_zero dx dy dz H) as (-> & -> & ->).
      unfold norm in Hlt. replace (0 * 0 + 0 * 0 + 0 * 0) with 0 in Hlt by ring.
      rewrite sqrt_0 in Hlt. lra. }
    rewrite (vec3_normalize_fin dx dy dz Hpos).
    pose proof (norm_pos dx dy dz Hpos) as HL.
    unfold vec3.scale, vec3.add, vec3.scaleAndAdd, vec3.fin.
    cbn [vec3.x vec3.y vec3.z mul add sub neg].
    apply f_equal3; apply f_equal; field; lra.
Qed.

Lemma norm_3_4_0 : norm 3 4 0 = 5.
Proof.
  unfold norm. replace (3 * 3 + 4 * 4 + 0 * 0) with (5 * 5) by ring.
  apply sqrt_square. lra.
Qed.

Lemma gliding_from_origin :
  vec3.sub (Particle.position gliding_particle) (Particle.position anchor_particle)
  = vec3.fin 3 4 0.
Proof.
  unfold vec3.sub, vec3.fin. cbn. apply f_equal3; apply f_equal; lra.
Qed.

Lemma bungee_updateForce_closed_form_witness :
  ParticleBungee.updateForce short_bungee anchor_particle gliding_particle (Fin 1)
  = Particle.set_forceAccum gliding_particle
      (vec3.scaleAndAdd (vec3.fin 1 1 1) (vec3.fin 3 4 0)
         (Fin (2 * (norm 3 4 0 - 1) / norm 3 4 0))).
Proof.
  apply (bungee_updateForce_closed_form short_bungee anchor_particle gliding_particle (Fin 1)
           2 1 3 4 0 1 1 1 eq_refl eq_refl gliding_from_origin eq_refl).
  - rewrite norm_3_4_0. lra.
  - lra.
Defined.

(** X16. With [d] the finite vector from the anchor to the particle and
    [L] its length, [ParticleAnchoredBungee] does nothing while
    [L < restLength]; from the rest length on it adds
    [-(k * (L - restLength) / L) * d], which for [k > 0] points back to the
    anchor: the sign opposite to the one [ParticleBungee] applies. *)
Theorem anchoredBungee_updateForce_closed_form
  (s : ParticleAnchoredBungee.t) (p : Particle.t) (duration : num)
  (k rest dx dy dz fx fy fz : R) :
  ParticleAnchoredSpring.springConstant s = Fin k ->
  ParticleAnchoredSpring.restLength s = Fin rest ->
  vec3.sub (Particle.position p) (ParticleAnchoredSpring.anchor s) = vec3.fin dx dy dz ->
  0 < dx * dx + dy * dy + dz * dz ->
  Particle.forceAccum p = vec3.fin fx fy fz ->
  (norm dx dy dz < rest -> ParticleAnchoredBungee.updateForce s p duration = p) /\
  (rest <= norm dx dy dz ->
   ParticleAnchoredBungee.updateForce s p duration
   = Particle.set_forceAccum p
       (vec3.scaleAndAdd (Particle.forceAccum p) (vec3.fin dx dy dz)
          (Fin (- (k * (norm dx dy dz - rest) / norm dx dy dz))))).
Proof.
  intros Hk Hrest Hd Hpos Hf.
  unfold ParticleAnchoredBungee.updateForce, Particle.addForce, Particle.getPosition,
    vec3.copy.
  rewrite Hd, Hk, Hrest, Hf, vec3_len_fin.
  split.
  - intros Hlt. now rewrite (proj2 (ltb_Fin (norm dx dy dz) rest) Hlt).
  - intros Hle. rewrite (proj2 (ltb_Fin_false (norm dx dy dz) rest) Hle).
    apply set_forceAccum_eq.
    rewrite (vec3_normalize_fin dx dy dz Hpos).
    pose proof (norm_pos dx dy dz Hpos) as HL.
    unfold vec3.scale, vec3.add, vec3.scaleAndAdd, vec3.fin.
    cbn [vec3.x vec3.y vec3.z mul add sub neg].
    apply f_equal3; apply f_equal; field; lra.
Qed.

Lemma positive_3_4_0 : 0 < 3 * 3 + 4 * 4 + 0 * 0.
Proof. lra. Qed.

Lemma anchoredBungee_updateForce_closed_form_witness :
  ParticleAnchoredBungee.updateForce short_anchored_bungee gliding_particle (Fin 1)
  = Particle.set_forceAccum gliding_particle
      (vec3.scaleAndAdd (vec3.fin 1 1 1) (vec3.fin 3 4 0)
         (Fin (- (2 * (norm 3 4 0 - 1) / norm 3 4 0)))).
Proof.
  apply (anchoredBungee_updateForce_closed_form short_anchored_bungee gliding_particle (Fin 1)
           2 1 3 4 0 1 1 1 eq_refl eq_refl gliding_from_origin positive_3_4_0 eq_refl).
  rewrite norm_3_4_0. lra.
Defined.

(** ** Buoyancy *)

(** X17. For finite parameters with [maxDepth > 0] and a particle whose
    height [y] lies strictly between [waterHeight - maxDepth] and
    [waterHeight + maxDepth], [ParticleBuoyancy] adds to the y component of
    the force accumulator
    [liquidDensity * volume * (y - maxDepth - waterHeight) / (2 * maxDepth)]
    and leaves the other components alone.  In exact arithmetic and for a
    positive [liquidDensity * volume] that force lies strictly between
    [- liquidDensity * volume] and 0: it points down, whereas the force at
    full submersion is [+ liquidDensity * volume]. *)
Theorem buoyancy_partly_submerged
  (b : ParticleBuoyancy.t) (p : Particle.t) (duration : num)
  (md vol wh rho px py pz fx fy fz : R) :
  ParticleBuoyancy.maxDepth b = Fin md ->
  ParticleBuoyancy.volume b = Fin vol ->
  ParticleBuoyancy.waterHeight b = Fin wh ->
  ParticleBuoyancy.liquidDensity b = Fin rho ->
  Particle.position p = vec3.fin px py pz ->
  Particle.forceAccum p = vec3.fin fx fy fz ->
  0 < md -> wh - md < py < wh + md ->
  let F := rho * vol * (py - md - wh) / (2 * md) in
  ParticleBuoyancy.updateForce b p duration
  = Particle.set_forceAccum p (vec3.fin fx (fy + F) fz) /\
  (0 < rho * vol -> - (rho * vol) < F < 0).
Proof.
  intros Hmd Hvol Hwh Hrho Hp Hf Hpos [Hlo Hhi] F.
  split.
  - unfold ParticleBuoyancy.updateForce, Particle.addForce, Particle.getPosition.
    rewrite Hmd, Hvol, Hwh, Hrho, Hp, Hf.
    unfold vec3.fin. cbn [vec3.x vec3.y vec3.z add sub mul neg].
    unfold geb. rewrite (proj2 (leb_Fin_false (wh + md) py)) by lra.
    rewrite (proj2 (leb_Fin_false py (wh + - md))) by lra.
    rewrite div_Fin by lra.
    apply set_forceAccum_eq.
    unfold vec3.add. cbn [vec3.x vec3.y vec3.z add].
    apply f_equal3; apply f_equal; unfold F; try field; lra.
  - intros Hrv. unfold F.
    assert (Hfrac : -1 < (py - md - wh) / (2 * md) < 0).
    { split.
      - apply (Rmult_lt_reg_r (2 * md)); [lra |]. field_simplify; lra.
      - apply (Rmult_lt_reg_r (2 * md)); [lra |]. field_simplify; lra. }
    replace (rho * vol * (py - md - wh) / (2 * md))
      with (rho * vol * ((py - md - wh) / (2 * md))) by (field; lra).
    nra.
Qed.

Lemma buoyancy_partly_submerged_witness :
  let F := 1000 * (1/10) * (-1 - 2 - 0) / (2 * 2) in
  ParticleBuoyancy.updateForce pond floating_particle (Fin 1)
  = Particle.set_forceAccum floating_particle (vec3.fin 0 (0 + F) 0) /\
  - (1000 * (1/10)) < F < 0.
Proof.
  assert (Hdepth : 0 - 2 < -1 < 0 + 2) by lra.
  assert (Hmd : 0 < 2) by lra.
  assert (Hrv : 0 < 1000 * (1/10)) by lra.
  destruct (buoyancy_partly_submerged pond floating_particle (Fin 1)
              2 (1/10) 0 1000 0 (-1) 0 0 0 0
              eq_refl eq_refl eq_refl eq_refl eq_refl eq_refl Hmd Hdepth) as [Hrun Hsign].
  split; [exact Hrun | exact (Hsign Hrv)].
Defined.

(** ** The registry *)

Lemma only_force_refl (p : Particle.t) : only_force p p.
Proof. repeat split. Qed.

Lemma only_force_trans (p1 p2 p3 : Particle.t) :
  only_force p1 p2 -> only_force p2 p3 -> only_force p1 p3.
Proof.
  intros (A1 & A2 & A3 & A4 & A5) (B1 & B2 & B3 & B4 & B5).
  repeat split; congruence.
Qed.

Lemma addForce_only_force (p : Particle.t) (f : vec3.t) :
  only_force p (Particle.addForce p f).
Proof. repeat split. Qed.

Create HintDb forces.

#[local] Hint Resolve only_force_refl addForce_only_force : forces.

Lemma gravity_only_force (g : ParticleGravity.t) (p : Particle.t) (d : num) :
  only_force p (snd (ParticleGravity.updateForce g p d)).
Proof.
  unfold ParticleGravity.updateForce. destruct (negb _); cbn [snd]; auto with forces.
Qed.

Lemma drag_only_force (g : ParticleDrag.t) (p : Particle.t) (d : num) :
  only_force p (ParticleDrag.updateForce g p d).
Proof. unfold ParticleDrag.updateForce. auto with forces. Qed.

Lemma spring_only_force (g : ParticleSpring.t) (o p : Particle.t) (d : num) :
  only_force p (ParticleSpring.updateForce g o p d).
Proof. unfold ParticleSpring.updateForce. auto with forces. Qed.

Lemma anchoredSpring_only_force (g : ParticleAnchoredSpring.t) (p : Particle.t) (d : num) :
  only_force p (ParticleAnchoredSpring.updateForce g p d).
Proof. unfold ParticleAnchoredSpring.updateForce. auto with forces. Qed.

Lemma buoyancy_only_force (g : ParticleBuoyancy.t) (p : Particle.t) (d : num) :
  only_force p (ParticleBuoyancy.updateForce g p d).
Proof.
  unfold ParticleBuoyancy.updateForce.
  destruct (_ >=? _)%num; [auto with forces |].
  destruct (_ <=? _)%num; auto with forces.
Qed.

Lemma bungee_only_force (g : ParticleBungee.t) (o p : Particle.t) (d : num) :
  only_force p (ParticleBungee.updateForce g o p d).
Proof.
  unfold ParticleBungee.updateForce. destruct (_ <=? _)%num; auto with forces.
Qed.

Lemma fakeSpring_only_force (g : ParticleFakeSpring.t) (p : Particle.t) (d : num) :
  only_force p (ParticleFakeSpring.updateForce g p d).
Proof.
  unfold ParticleFakeSpring.updateForce.
  destruct (negb _); [auto with forces |].
  destruct (_ =? _)%num; auto with forces.
Qed.

Lemma anchoredBungee_only_force (g : ParticleAnchoredBungee.t) (p : Particle.t) (d : num) :
  only_force p (ParticleAnchoredBungee.updateForce g p d).
Proof.
  unfold ParticleAnchoredBungee.updateForce. destruct (_ <? _)%num; auto with forces.
Qed.

(** A call of any generator writes the store at the given particle only,
    and only its force accumulator. *)
Lemma call_updateForce_frame (fg : ParticleForceGenerator) (h : store) (p : ref) (d : num) :
  exists p', snd (call_updateForce fg h p d) = upd h p p' /\ only_force (h p) p'.
Proof.
  destruct fg; cbn [call_updateForce].
  - pose proof (gravity_only_force g (h p) d) as H.
    destruct (ParticleGravity.updateForce g (h p) d) as [g' p']. cbn [snd] in *.
    exists p'. split; [reflexivity | exact H].
  - eexists. split; [reflexivity | apply drag_only_force].
  - eexists. split; [reflexivity | apply spring_only_force].
  - eexists. split; [reflexivity | apply anchoredSpring_only_force].
  - eexists. split; [reflexivity | apply buoyancy_only_force].
  - eexists. split; [reflexivity | apply bungee_only_force].
  - eexists. split; [reflexivity | apply fakeSpring_only_force].
  - eexists. split; [reflexivity | apply anchoredBungee_only_force].
Qed.

Lemma step_frame (d : num) (gs : generators) (h : store)
      (r : ParticleForceRegistry.ParticleForceRegistration) :
  forall q,
    only_force (h q) (snd (ParticleForceRegistry.step d (gs, h) r) q) /\
    (q <> ParticleForceRegistry.particle r ->
     snd (ParticleForceRegistry.step d (gs, h) r) q = h q).
Proof.
  intros q. unfold ParticleForceRegistry.step.
  destruct (call_updateForce_frame (gs (ParticleForceRegistry.fg r)) h
              (ParticleForceRegistry.particle r) d) as (p' & Hh & Hp).
  destruct (call_updateForce _ h _ d) as [g' h']. cbn [snd] in *. subst h'.
  split.
  - unfold upd. destruct (Nat.eqb q _) eqn:E.
    + apply Nat.eqb_eq in E. now subst q.
    + apply only_force_refl.
  - intros Hq. now apply upd_other.
Qed.

Lemma fold_step_frame (d : num) :
  forall (rs : list ParticleForceRegistry.ParticleForceRegistration)
         (gs : generators) (h : store) (q : ref),
    only_force (h q) (snd (fold_left (ParticleForceRegistry.step d) rs (gs, h)) q) /\
    (~ In q (map ParticleForceRegistry.particle rs) ->
     snd (fold_left (ParticleForceRegistry.step d) rs (gs, h)) q = h q).
Proof.
  induction rs as [| r rest IH]; intros gs h q; cbn [fold_left map].
  - split; [apply only_force_refl | reflexivity].
  - destruct (step_frame d gs h r q) as [Hf Helse].
    destruct (ParticleForceRegistry.step d (gs, h) r) as [gs1 h1] eqn:E.
    cbn [snd] in *.
    destruct (IH gs1 h1 q) as [Hf' Helse'].
    split.
    + eapply only_force_trans; eassumption.
    + intros Hq. rewrite Helse'.
      * apply Helse. intros ->. apply Hq. left. reflexivity.
      * intros Hin. apply Hq. right. exact Hin.
Qed.

(** A generator that is not a [ParticleGravity] comes out of its own call
    as it went in. *)
Lemma call_updateForce_generator (fg : ParticleForceGenerator) (h : store) (p : ref)
      (d : num) :
  is_gravity fg = false -> fst (call_updateForce fg h p d) = fg.
Proof. destruct fg; cbn; intros H; try reflexivity; discriminate. Qed.

Lemma call_updateForce_is_gravity (fg : ParticleForceGenerator) (h : store) (p : ref)
      (d : num) :
  is_gravity (fst (call_updateForce fg h p d)) = is_gravity fg.
Proof.
  destruct fg; cbn; try reflexivity.
  destruct (ParticleGravity.updateForce g (h p) d). reflexivity.
Qed.

Lemma gupd_same (gs : generators) (r : nat) (g : ParticleForceGenerator) :
  gupd gs r g r = g.
Proof. unfold gupd. now rewrite Nat.eqb_refl. Qed.

Lemma gupd_other (gs : generators) (r r' : nat) (g : ParticleForceGenerator) :
  r' <> r -> gupd gs r g r' = gs r'.
Proof. intros H. unfold gupd. apply Nat.eqb_neq in H. now rewrite H. Qed.

Lemma step_generators (d : num) (gs : generators) (h : store)
      (r : ParticleForceRegistry.ParticleForceRegistration) (g : nat) :
  is_gravity (fst (ParticleForceRegistry.step d (gs, h) r) g) = is_gravity (gs g) /\
  (g <> ParticleForceRegistry.fg r \/ is_gravity (gs g) = false ->
   fst (ParticleForceRegistry.step d (gs, h) r) g = gs g).
Proof.
  unfold ParticleForceRegistry.step.
  pose proof (call_updateForce_generator (gs (ParticleForceRegistry.fg r)) h
                (ParticleForceRegistry.particle r) d) as Hsame.
  pose proof (call_updateForce_is_gravity (gs (ParticleForceRegistry.fg r)) h
                (ParticleForceRegistry.particle r) d) as Hkind.
  destruct (call_updateForce _ h _ d) as [g' h']. cbn [fst] in *.
  destruct (Nat.eq_dec g (ParticleForceRegistry.fg r)) as [-> | Hne].
  - rewrite gupd_same. split; [exact Hkind |].
    intros [Hc | Hng]; [contradiction | exact (Hsame Hng)].
  - rewrite gupd_other by exact Hne. split; [reflexivity | reflexivity].
Qed.

Lemma fold_step_generators (d : num) :
  forall (rs : list ParticleForceRegistry.ParticleForceRegistration)
         (gs : generators) (h : store) (g : nat),
    ~ In g (map ParticleForceRegistry.fg rs) \/ is_gravity (gs g) = false ->
    fst (fold_left (ParticleForceRegistry.step d) rs (gs, h)) g = gs g.
Proof.
  induction rs as [| r rest IH]; intros gs h g Hg; cbn [fold_left map]; [reflexivity |].
  destruct (step_generators d gs h r g) as [Hkind Hsame].
  destruct (ParticleForceRegistry.step d (gs, h) r) as [gs1 h1] eqn:E. cbn [fst] in *.
  rewrite (IH gs1 h1 g).
  - apply Hsame. destruct Hg as [Hnot | Hng]; [left | right; exact Hng].
    intros ->. apply Hnot. left. reflexivity.
  - destruct Hg as [Hnot | Hng]; [left | right; now rewrite Hkind].
    intros Hin. apply Hnot. right. exact Hin.
Qed.

(** X18. For the eight generator classes of the module, [updateForces]
    writes nothing of a particle but its force accumulator (inverse mass,
    damping, position, velocity and acceleration are as before) and does
    not write a particle that no registration names.  Of the generators it
    writes none but the registered [ParticleGravity] ones, whose own vector
    it rescales: a generator of another class, or one that no registration
    names, is as before. *)
Theorem updateForces_footprint
  (reg : ParticleForceRegistry.t) (duration : num) (gs : generators) (h : store) :
  let gs' := fst (ParticleForceRegistry.updateForces reg duration gs h) in
  let h' := snd (ParticleForceRegistry.updateForces reg duration gs h) in
  (forall q : ref,
      only_force (h q) (h' q) /\
      (~ In q (map ParticleForceRegistry.particle
                   (ParticleForceRegistry.registrations reg)) ->
       h' q = h q)) /\
  (forall g : nat,
      ~ In g (map ParticleForceRegistry.fg (ParticleForceRegistry.registrations reg))
      \/ is_gravity (gs g) = false ->
      gs' g = gs g).
Proof.
  unfold ParticleForceRegistry.updateForces. split.
  - intros q. apply fold_step_frame.
  - intros g Hg. apply fold_step_generators. exact Hg.
Qed.

(** Particle 0 is served by gravity, particle 1 by the drag, particle 5 by
    nothing. *)
Lemma updateForces_footprint_witness :
  let gs' := fst (ParticleForceRegistry.updateForces mixed_registry (Fin 1)
                    mixed_generators resting_store) in
  let h' := snd (ParticleForceRegistry.updateForces mixed_registry (Fin 1)
                   mixed_generators resting_store) in
  only_force (resting_store 0%nat) (h' 0%nat) /\
  only_force (resting_store 1%nat) (h' 1%nat) /\
  h' 5%nat = resting_store 5%nat /\
  gs' 1%nat = Drag light_drag /\
  gs' 7%nat = mixed_generators 7%nat.
Proof.
  destruct (updateForces_footprint mixed_registry (Fin 1) mixed_generators resting_store)
    as [Hparticles Hgenerators].
  split; [exact (proj1 (Hparticles 0%nat)) |].
  split; [exact (proj1 (Hparticles 1%nat)) |].
  split; [apply (proj2 (Hparticles 5%nat)); cbn; intuition discriminate |].
  split; [apply (Hgenerators 1%nat); right; reflexivity |].
  apply (Hgenerators 7%nat). left. cbn. intuition discriminate.
Defined.

(** X19. Registrations are only ever added: [remove] and [clear] have
    empty bodies, so after [add(p, fg)], [remove(p, fg)] and [clear()] a
    call of [updateForces] still runs every earlier registration and then
    [fg] on [p]. *)
Theorem registry_never_forgets
  (reg : ParticleForceRegistry.t) (p : ref) (g : nat) (duration : num)
  (gs : generators) (h : store) :
  ParticleForceRegistry.updateForces
    (ParticleForceRegistry.clear
       (ParticleForceRegistry.remove (ParticleForceRegistry.add reg p g) p g))
    duration gs h
  = ParticleForceRegistry.step duration
      (ParticleForceRegistry.updateForces reg duration gs h)
      (ParticleForceRegistry.mkRegistration p g).
Proof.
  unfold ParticleForceRegistry.updateForces, ParticleForceRegistry.clear,
    ParticleForceRegistry.remove, ParticleForceRegistry.add.
  cbn [ParticleForceRegistry.registrations].
  now rewrite fold_left_app.
Qed.

(** ** One gravity generator for several particles *)

Lemma only_force_hasFiniteMass (p p' : Particle.t) :
  only_force p p' -> Particle.hasFiniteMass p' = Particle.hasFiniteMass p.
Proof. intros (Hm & _). unfold Particle.hasFiniteMass. now rewrite Hm. Qed.

Lemma fold_step_gravity (d : R) (g0 : nat) :
  forall (rs : list ParticleForceRegistry.ParticleForceRegistration)
         (gs : generators) (h : store) (gx gy gz : R),
    Forall (fun r => ParticleForceRegistry.fg r = g0) rs ->
    (forall q, Particle.hasFiniteMass (h q) = true) ->
    gs g0 = Gravity (ParticleGravity.mk (vec3.fin gx gy gz)) ->
    fst (fold_left (ParticleForceRegistry.step (Fin d)) rs (gs, h)) g0
    = Gravity (ParticleGravity.mk
                 (vec3.fin (gx * d ^ length rs) (gy * d ^ length rs) (gz * d ^ length rs))).
Proof.
  induction rs as [| r rest IH]; intros gs h gx gy gz Hall Hfin Hg.
  - cbn. rewrite Hg. unfold vec3.fin. repeat f_equal; ring.
  - inversion Hall as [| ? ? Hr Hrest]; subst.
    cbn [fold_left length].
    pose proof (step_frame (Fin d) gs h r) as Hframe.
    unfold ParticleForceRegistry.step in *. rewrite Hg in *.
    cbn [call_updateForce] in *. unfold ParticleGravity.updateForce in *.
    rewrite Hfin in *. cbn [negb ParticleGravity.gravity] in *.
    unfold vec3.scale, vec3.fin at 1. cbn [vec3.x vec3.y vec3.z mul].
    unfold vec3.scale, vec3.fin in Hframe. cbn [vec3.x vec3.y vec3.z mul snd] in Hframe.
    rewrite (IH _ _ (gx * d) (gy * d) (gz * d) Hrest).
    + unfold vec3.fin. f_equal. f_equal. apply f_equal3; apply f_equal; cbn [pow]; ring.
    + intros q. refine (eq_trans _ (Hfin q)).
      exact (only_force_hasFiniteMass _ _ (proj1 (Hframe q))).
    + apply gupd_same.
Qed.

Lemma shared_registrations :
  Forall (fun r => ParticleForceRegistry.fg r = 0%nat)
         (ParticleForceRegistry.registrations shared_registry).
Proof.
  cbn. apply Forall_cons; [reflexivity | apply Forall_cons; [reflexivity | apply Forall_nil]].
Qed.

Lemma resting_store_finite_mass :
  forall q, Particle.hasFiniteMass (resting_store q) = true.
Proof. intros q. unfold Particle.hasFiniteMass. cbn. decide_reals. reflexivity. Qed.

(** X20. When every registration of the registry names the same gravity
    generator and every particle passes [hasFiniteMass], one call of
    [updateForces] leaves the generator with its vector multiplied by
    [duration ^ n] in exact arithmetic, [n] being the number of
    registrations: each call of the generator rescales the vector the next
    call starts from. *)
Theorem shared_gravity_decays
  (reg : ParticleForceRegistry.t) (gs : generators) (h : store) (g0 : nat)
  (gx gy gz d : R) :
  Forall (fun r => ParticleForceRegistry.fg r = g0)
         (ParticleForceRegistry.registrations reg) ->
  (forall q, Particle.hasFiniteMass (h q) = true) ->
  gs g0 = Gravity (ParticleGravity.constructor (vec3.fin gx gy gz)) ->
  let n := length (ParticleForceRegistry.registrations reg) in
  fst (ParticleForceRegistry.updateForces reg (Fin d) gs h) g0
  = Gravity (ParticleGravity.mk (vec3.fin (gx * d ^ n) (gy * d ^ n) (gz * d ^ n))).
Proof.
  intros Hall Hfin Hg n. unfold ParticleForceRegistry.updateForces.
  exact (fold_step_gravity d g0 _ gs h gx gy gz Hall Hfin Hg).
Qed.

Lemma shared_gravity_decays_witness :
  fst (ParticleForceRegistry.updateForces shared_registry (Fin (1/2))
         (fun _ => Gravity earth_gravity) resting_store) 0%nat
  = Gravity (ParticleGravity.mk
               (vec3.fin (0 * (1/2) ^ 2) (-10 * (1/2) ^ 2) (0 * (1/2) ^ 2))).
Proof.
  exact (shared_gravity_decays shared_registry (fun _ => Gravity earth_gravity)
           resting_store 0 0 (-10) 0 (1/2)
           shared_registrations resting_store_finite_mass eq_refl).
Defined.

(** ** Orientation of the rigid body *)

Lemma normalize_unit (x y z w : R) :
  0 < x * x + y * y + z * z + w * w ->
  quat.squaredLength (quat.normalize (qfin x y z w)) = Fin 1.
Proof.
  intros Hpos.
  unfold quat.normalize, quat.squaredLength, qfin.
  cbn [quat.x quat.y quat.z quat.w mul add].
  rewrite (proj2 (gtb_Fin (x * x + y * y + z * z + w * w) 0) Hpos).
  unfold Math_sqrt.
  destruct (Rlt_dec (x * x + y * y + z * z + w * w) 0) as [H | _]; [lra |].
  remember (x * x + y * y + z * z + w * w) as L eqn:HL.
  assert (Hs : 0 < sqrt L) by now apply sqrt_lt_R0.
  assert (Hss : sqrt L * sqrt L = L) by (apply sqrt_sqrt; lra).
  rewrite (div_Fin 1 (sqrt L)) by (apply Rgt_not_eq; exact Hs).
  cbn [quat.x quat.y quat.z quat.w mul add].
  apply f_equal.
  transitivity ((x * x + y * y + z * z + w * w) / (sqrt L * sqrt L)).
  - field. lra.
  - rewrite Hss, <- HL. field. lra.
Qed.

Lemma stretched_orientation :
  RigidBody.orientation stretched_body = qfin 0 0 0 2 /\
  0 < 0 * 0 + 0 * 0 + 0 * 0 + 2 * 2.
Proof. split; [reflexivity | lra]. Qed.

(** X21. [calculateDerivedData] leaves the body with an orientation of
    squared length 1 whenever the orientation it finds is finite and not
    zero, in exact arithmetic. *)
Theorem calculateDerivedData_unit_orientation
  (b : RigidBody.t) (x y z w : R) :
  RigidBody.orientation b = qfin x y z w ->
  0 < x * x + y * y + z * z + w * w ->
  quat.squaredLength (RigidBody.orientation (RigidBody.calculateDerivedData b)) = Fin 1.
Proof.
  intros Hq Hpos. unfold RigidBody.calculateDerivedData.
  cbn [RigidBody.orientation]. rewrite Hq. exact (normalize_unit x y z w Hpos).
Qed.

Lemma calculateDerivedData_unit_orientation_witness :
  quat.squaredLength
    (RigidBody.orientation (RigidBody.calculateDerivedData stretched_body)) = Fin 1.
Proof.
  exact (calculateDerivedData_unit_orientation stretched_body 0 0 0 2
           (proj1 stretched_orientation) (proj2 stretched_orientation)).
Defined.

(** X22. In exact arithmetic [QuatUtils.addScaledVector] multiplies the
    squared length of a finite quaternion by
    [1 + scale^2 * |vector|^2 / 4]: the update of the orientation by an
    angular velocity does not shorten the quaternion, and lengthens it when
    the scaled vector is not zero, so the orientation is a unit quaternion
    again only after it is normalised. *)
Theorem addScaledVector_squaredLength
  (x y z w a b c s : R) :
  quat.squaredLength (QuatUtils.addScaledVector (qfin x y z w) (vec3.fin a b c) (Fin s))
  = Fin ((x * x + y * y + z * z + w * w)
         * (1 + s * s * (a * a + b * b + c * c) / 4)).
Proof.
  unfold QuatUtils.addScaledVector, quat.squaredLength, quat.mul, quat.fromValues,
    qfin, vec3.fin.
  cbn [quat.x quat.y quat.z quat.w vec3.x vec3.y vec3.z mul add sub neg].
  apply f_equal. field.
Qed.

(** X23. [RigidBody.integrate] never writes the parameters of the body:
    inverse mass, body-space inverse inertia tensor, the two damping
    factors, the constant acceleration and [canSleep] are the same after
    the call, for an awake and for a sleeping body.  Unlike
    [Particle.integrate] it adds the accumulated force into a copy of the
    acceleration, kept in [lastFrameAcceleration]. *)
Theorem rigid_integrate_keeps_parameters (b : RigidBody.t) (duration : num) :
  let b' := RigidBody.integrate b duration in
  RigidBody.inverseMass b' = RigidBody.inverseMass b /\
  RigidBody.inverseInertiaTensor b' = RigidBody.inverseInertiaTensor b /\
  RigidBody.linearDamping b' = RigidBody.linearDamping b /\
  RigidBody.angularDamping b' = RigidBody.angularDamping b /\
  RigidBody.acceleration b' = RigidBody.acceleration b /\
  RigidBody.canSleep b' = RigidBody.canSleep b /\
  (RigidBody.isAwake b = true ->
   RigidBody.lastFrameAcceleration b'
   = vec3.scaleAndAdd (RigidBody.acceleration b) (RigidBody.forceAccum b)
                      (RigidBody.inverseMass b)).
Proof.
  unfold RigidBody.integrate.
  destruct (RigidBody.isAwake b); cbn [negb].
  - unfold RigidBody.updateSleep, RigidBody.setAwake.
    set (b3 := RigidBody.clearAccumulators
                 (RigidBody.calculateDerivedData (RigidBody.advance b duration))).
    assert (Hc : RigidBody.canSleep b3 = RigidBody.canSleep b) by reflexivity.
    destruct (RigidBody.canSleep b3);
      [destruct (RigidBody.motion b3 <? RigidBody.sleepEpsilon)%num;
       [| destruct (RigidBody.motion b3 >? Fin 10 * RigidBody.sleepEpsilon)%num] |];
      repeat split; exact Hc.
  - repeat split. discriminate.
Qed.

Lemma rigid_integrate_keeps_parameters_witness :
  RigidBody.lastFrameAcceleration (RigidBody.integrate drifting_body (Fin 1))
  = vec3.scaleAndAdd (RigidBody.acceleration drifting_body)
      (RigidBody.forceAccum drifting_body) (RigidBody.inverseMass drifting_body).
Proof.
  destruct (rigid_integrate_keeps_parameters drifting_body (Fin 1))
    as (_ & _ & _ & _ & _ & _ & H).
  exact (H eq_refl).
Defined.

(** ** The transform of normals *)

(** X24. For a model matrix whose rotation and scale part [M] is finite,
    [calculateNormalMat] writes the cofactor matrix of [M]: in exact
    arithmetic its product with the transpose of [M] is [det M] times the
    identity.  The result is
    [det M] times the inverse transpose, not the inverse transpose itself,
    so normals come out scaled by [det M] and reversed when it is
    negative. *)
Theorem calculateNormalMat_is_cofactor_matrix
  (a00 a01 a02 a10 a11 a12 a20 a21 a22 : R) (m3 m7 m11 m12 m13 m14 m15 : num) :
  let model :=
    mat4.mk (Fin a00) (Fin a01) (Fin a02) m3
            (Fin a10) (Fin a11) (Fin a12) m7
            (Fin a20) (Fin a21) (Fin a22) m11
            m12 m13 m14 m15 in
  let d := det3 a00 a01 a02 a10 a11 a12 a20 a21 a22 in
  mul_transposed (linear_part model) (calculateNormalMat model)
  = mat3.mk (Fin d) (Fin 0) (Fin 0)
            (Fin 0) (Fin d) (Fin 0)
            (Fin 0) (Fin 0) (Fin d).
Proof.
  intros model d. unfold d, det3, model, calculateNormalMat, mul_transposed, linear_part.
  cbn [mat4.at_ mat4.m0 mat4.m1 mat4.m2 mat4.m4 mat4.m5 mat4.m6 mat4.m8 mat4.m9 mat4.m10
       mat3.m0 mat3.m1 mat3.m2 mat3.m3 mat3.m4 mat3.m5 mat3.m6 mat3.m7 mat3.m8
       mul add sub neg].
  f_equal; apply f_equal; ring.
Qed.

(** ** A particle over several frames *)

Lemma integrate_inverseMass (p : Particle.t) (d : num) :
  Particle.inverseMass (Particle.integrate p d) = Particle.inverseMass p.
Proof. reflexivity. Qed.

Lemma integrate_forceAccum (p : Particle.t) (d : num) :
  Particle.forceAccum (Particle.integrate p d) = vec3.zero.
Proof. reflexivity. Qed.

Lemma push_frames_acceleration (F : vec3.t) (d : num) (im Fx Fy Fz : R) :
  F = vec3.fin Fx Fy Fz ->
  forall (k : nat) (p : Particle.t) (ax ay az : R),
    Particle.inverseMass p = Fin im ->
    Particle.acceleration p = vec3.fin ax ay az ->
    Particle.forceAccum p = vec3.zero ->
    Particle.acceleration (push_frames k p F d)
    = vec3.fin (ax + INR k * (Fx * im)) (ay + INR k * (Fy * im)) (az + INR k * (Fz * im)).
Proof.
  intros ->. induction k as [| k IH]; intros p ax ay az Hm Ha Hf.
  - cbn [push_frames INR]. rewrite Ha. unfold vec3.fin.
    apply f_equal3; apply f_equal; ring.
  - cbn [push_frames].
    rewrite (IH _ (ax + (0 + Fx) * im) (ay + (0 + Fy) * im) (az + (0 + Fz) * im)).
    + rewrite S_INR. unfold vec3.fin. apply f_equal3; apply f_equal; ring.
    + rewrite integrate_inverseMass. exact Hm.
    + rewrite integrate_acceleration.
      unfold Particle.addForce. cbn [Particle.acceleration Particle.forceAccum
                                     Particle.inverseMass Particle.set_forceAccum].
      rewrite Ha, Hf, Hm. reflexivity.
    + apply integrate_forceAccum.
Qed.

(** X25. A constant force added before every [integrate] does not give a
    constant acceleration: the force of each frame stays in the stored
    acceleration, which after [k] frames is, in exact arithmetic, the
    initial acceleration plus [k] times force times inverse mass. *)
Theorem constant_force_compounds
  (k : nat) (p : Particle.t) (duration : num) (im ax ay az Fx Fy Fz : R) :
  Particle.inverseMass p = Fin im ->
  Particle.acceleration p = vec3.fin ax ay az ->
  Particle.forceAccum p = vec3.zero ->
  Particle.acceleration (push_frames k p (vec3.fin Fx Fy Fz) duration)
  = vec3.fin (ax + INR k * (Fx * im)) (ay + INR k * (Fy * im)) (az + INR k * (Fz * im)).
Proof.
  intros Hm Ha Hf.
  exact (push_frames_acceleration (vec3.fin Fx Fy Fz) duration im Fx Fy Fz eq_refl
           k p ax ay az Hm Ha Hf).
Qed.

Lemma constant_force_compounds_witness :
  Particle.acceleration (push_frames 3 unit_particle (vec3.fin 1 0 0) (Fin 1))
  = vec3.fin (0 + INR 3 * (1 * 1)) (0 + INR 3 * (0 * 1)) (0 + INR 3 * (0 * 1)).
Proof.
  exact (constant_force_compounds 3 unit_particle (Fin 1) 1 0 0 0 1 0 0
           eq_refl eq_refl eq_refl).
Defined.

Lemma Math_pow_positive (b e : R) :
  0 < b -> e <> 0 -> Math_pow (Fin b) (Fin e) = Fin (Rpower b e).
Proof.
  intros Hb He. unfold Math_pow.
  destruct (Req_dec_T e 0) as [H | _]; [contradiction |].
  destruct (Rlt_dec 0 b) as [_ | H]; [reflexivity | contradiction].
Qed.

Lemma integrate_times_coasting (d damp im : R) :
  0 < damp -> d <> 0 ->
  forall (k : nat) (p : Particle.t) (vx vy vz : R),
    Particle.inverseMass p = Fin im ->
    Particle.damping p = Fin damp ->
    Particle.velocity p = vec3.fin vx vy vz ->
    Particle.acceleration p = vec3.zero ->
    Particle.forceAccum p = vec3.zero ->
    Particle.velocity (integrate_times k p (Fin d))
    = vec3.fin (vx * Rpower damp d ^ k) (vy * Rpower damp d ^ k) (vz * Rpower damp d ^ k)
    /\ Particle.acceleration (integrate_times k p (Fin d)) = vec3.zero.
Proof.
  intros Hdamp Hd. induction k as [| k IH]; intros p vx vy vz Hm Hdp Hv Ha Hf.
  - cbn [integrate_times pow]. rewrite Hv, Ha. split; [| reflexivity].
    unfold vec3.fin. apply f_equal3; apply f_equal; ring.
  - cbn [integrate_times].
    assert (Hacc : Particle.acceleration (Particle.integrate p (Fin d)) = vec3.zero).
    { rewrite integrate_acceleration, Ha, Hf, Hm. unfold vec3.scaleAndAdd, vec3.zero.
      cbn [vec3.x vec3.y vec3.z mul add]. apply f_equal3; apply f_equal; ring. }
    destruct (IH (Particle.integrate p (Fin d))
                 (vx * Rpower damp d) (vy * Rpower damp d) (vz * Rpower damp d))
      as [Hvel Hzero].
    + exact Hm.
    + exact Hdp.
    + unfold Particle.integrate.
      cbn [Particle.velocity Particle.set_velocity Particle.set_position
           Particle.set_acceleration Particle.clearAccumulator Particle.set_forceAccum
           Particle.damping Particle.acceleration Particle.forceAccum
           Particle.inverseMass].
      rewrite Hv, Ha, Hf, Hm, Hdp, (Math_pow_positive damp d Hdamp Hd).
      unfold vec3.scaleAndAdd, vec3.scale, vec3.zero, vec3.fin.
      cbn [vec3.x vec3.y vec3.z mul add].
      apply f_equal3; apply f_equal; ring.
    + exact Hacc.
    + apply integrate_forceAccum.
    + split; [| exact Hzero]. rewrite Hvel.
      unfold vec3.fin. apply f_equal3; apply f_equal; cbn [pow]; ring.
Qed.

(** X26. A particle with no acceleration and no force, a finite inverse
    mass and a damping [c > 0] keeps its direction and loses speed
    geometrically: after [k] calls of [integrate] with the same non-zero
    duration [t] its velocity is, in exact arithmetic, the initial one
    times [(c ^ t) ^ k], so it is unchanged for a damping of 1, and the
    acceleration is still zero. *)
Theorem force_free_velocity_decays
  (k : nat) (p : Particle.t) (d damp im vx vy vz : R) :
  0 < damp -> d <> 0 ->
  Particle.inverseMass p = Fin im ->
  Particle.damping p = Fin damp ->
  Particle.velocity p = vec3.fin vx vy vz ->
  Particle.acceleration p = vec3.zero ->
  Particle.forceAccum p = vec3.zero ->
  Particle.velocity (integrate_times k p (Fin d))
  = vec3.fin (vx * Rpower damp d ^ k) (vy * Rpower damp d ^ k) (vz * Rpower damp d ^ k)
  /\ Particle.acceleration (integrate_times k p (Fin d)) = vec3.zero.
Proof.
  intros Hdamp Hd Hm Hdp Hv Ha Hf.
  exact (integrate_times_coasting d damp im Hdamp Hd k p vx vy vz Hm Hdp Hv Ha Hf).
Qed.

Lemma force_free_velocity_decays_witness :
  Particle.velocity (integrate_times 3 coasting_particle (Fin 1))
  = vec3.fin (8 * Rpower (1/2) 1 ^ 3) (0 * Rpower (1/2) 1 ^ 3) (0 * Rpower (1/2) 1 ^ 3)
  /\ Particle.acceleration (integrate_times 3 coasting_particle (Fin 1)) = vec3.zero.
Proof.
  apply (force_free_velocity_decays 3 coasting_particle 1 (1/2) 1 8 0 0);
    [lra | lra | reflexivity | reflexivity | reflexivity | reflexivity | reflexivity].
Defined.

(** ** The random helpers *)

Lemma uniform_halves : uniform halves.
Proof. intros i. exists (1/2). split; [reflexivity | lra]. Qed.

Lemma randomReal_range (lo hi r : R) (u : random.draws) (k : nat) :
  u k = Fin r -> 0 <= r < 1 -> lo <= hi ->
  random.randomReal (Some (Fin lo)) (Some (Fin hi)) u k = (Fin (r * (hi - lo) + lo), S k)
  /\ lo <= r * (hi - lo) + lo <= hi
  /\ (lo < hi -> r * (hi - lo) + lo < hi).
Proof.
  intros Hu Hr Hle. unfold random.randomReal, random.Math_random. rewrite Hu.
  split; [reflexivity |]. split; [nra | intros; nra].
Qed.

(** X27. With a draw of [Math.random] in [[0, 1)] and finite bounds
    [min <= max], [randomReal(min, max)] consumes exactly one draw and
    returns a number between [min] and [max], below [max] when
    [min < max] (in exact arithmetic). *)
Theorem randomReal_within_bounds (lo hi : R) (u : random.draws) (k : nat) :
  uniform u -> lo <= hi ->
  exists x,
    random.randomReal (Some (Fin lo)) (Some (Fin hi)) u k = (Fin x, S k) /\
    lo <= x <= hi /\ (lo < hi -> x < hi).
Proof.
  intros Hu Hle. destruct (Hu k) as (r & Hr & Hrange).
  exists (r * (hi - lo) + lo). exact (randomReal_range lo hi r u k Hr Hrange Hle).
Qed.

Lemma randomReal_within_bounds_witness :
  exists x,
    random.randomReal (Some (Fin 1)) (Some (Fin 3)) halves 0 = (Fin x, 1%nat) /\
    1 <= x <= 3 /\ (1 < 3 -> x < 3).
Proof.
  assert (H : 1 <= 3) by lra.
  exact (randomReal_within_bounds 1 3 halves 0 uniform_halves H).
Defined.

(** X28. With draws in [[0, 1)], [randomBinomial(scale)] consumes exactly
    two draws and returns a number of absolute value at most [|scale|], and
    in exact arithmetic strictly less when [scale] is not zero. *)
Theorem randomBinomial_within_scale (s : R) (u : random.draws) (k : nat) :
  uniform u ->
  exists x,
    random.randomBinomial (Fin s) u k = (Fin x, S (S k)) /\
    Rabs x <= Rabs s /\ (s <> 0 -> Rabs x < Rabs s).
Proof.
  intros Hu. destruct (Hu k) as (a & Ha & Harange). destruct (Hu (S k)) as (b & Hb & Hbrange).
  exists ((a - b) * s).
  unfold random.randomBinomial, random.randomReal, random.Math_random.
  rewrite Ha, Hb. split; [reflexivity |].
  rewrite Rabs_mult.
  assert (Hab : Rabs (a - b) < 1) by (apply Rabs_def1; lra).
  pose proof (Rabs_pos s) as Hs. pose proof (Rabs_pos (a - b)) as Hd.
  split; [nra |].
  intros Hne. assert (0 < Rabs s) by now apply Rabs_pos_lt. nra.
Qed.

Lemma randomBinomial_within_scale_witness :
  exists x,
    random.randomBinomial (Fin 4) halves 0 = (Fin x, 2%nat) /\
    Rabs x <= Rabs 4 /\ (4 <> 0 -> Rabs x < Rabs 4).
Proof.
  exact (randomBinomial_within_scale 4 halves 0 uniform_halves).
Defined.

Lemma randomVector_range (lx ly lz hx hy hz : R) (u : random.draws) (k : nat) :
  uniform u -> lx <= hx -> ly <= hy -> lz <= hz ->
  exists x y z,
    random.randomVector (random.Range (vec3.fin lx ly lz) (vec3.fin hx hy hz)) u k
    = (vec3.fin x y z, S (S (S k))) /\
    lx <= x <= hx /\ ly <= y <= hy /\ lz <= z <= hz.
Proof.
  intros Hu Hx Hy Hz.
  destruct (Hu k) as (a & Ha & Har). destruct (Hu (S k)) as (b & Hb & Hbr).
  destruct (Hu (S (S k))) as (c & Hc & Hcr).
  destruct (randomReal_range lx hx a u k Ha Har Hx) as (E1 & R1 & _).
  destruct (randomReal_range ly hy b u (S k) Hb Hbr Hy) as (E2 & R2 & _).
  destruct (randomReal_range lz hz c u (S (S k)) Hc Hcr Hz) as (E3 & R3 & _).
  eexists _, _, _. unfold random.randomVector.
  cbn [vec3.x vec3.y vec3.z vec3.fin]. rewrite E1, E2, E3.
  split; [reflexivity |]. auto.
Qed.

(** ** Fireworks *)

Lemma update_times_age (d : R) :
  forall (k : nat) (f : Firework.t) (a : R),
    Firework.age f = Fin a ->
    Firework.age (update_times k f (Fin d)) = Fin (a - INR k * d).
Proof.
  induction k as [| k IH]; intros f a Ha.
  - cbn [update_times INR]. rewrite Ha. apply f_equal. ring.
  - cbn [update_times]. rewrite (IH _ (a - d)).
    + rewrite S_INR. apply f_equal. ring.
    + cbn [Firework.update fst Firework.age]. rewrite Ha. reflexivity.
Qed.

(** X29. The fuse of a firework burns down by the duration of every
    frame: with a finite age [a] and frames of duration [d], in exact
    arithmetic the call of [update] number [k + 1] reports that the
    firework is to be removed as soon as [(k + 1) * d > a], wherever the
    particle is by then. *)
Theorem firework_fuse_burns_down (f : Firework.t) (a d : R) (k : nat) :
  Firework.age f = Fin a ->
  a < INR (S k) * d ->
  snd (Firework.update (update_times k f (Fin d)) (Fin d)) = true.
Proof.
  intros Ha Hlate.
  cbn [Firework.update snd].
  rewrite (update_times_age d k f a Ha). cbn [sub add neg].
  rewrite S_INR in Hlate.
  rewrite (proj2 (ltb_Fin (a - INR k * d + - d) 0)) by lra.
  reflexivity.
Qed.

Lemma firework_fuse_burns_down_witness :
  snd (Firework.update (update_times 2 one_second_firework (Fin (1/2))) (Fin (1/2))) = true.
Proof.
  apply (firework_fuse_burns_down one_second_firework 1 (1/2) 2).
  - reflexivity.
  - cbn [INR]. lra.
Defined.

Lemma round_of_draw (r : R) :
  0 <= r < 1 ->
  exists n : Z, (-1 <= n <= 2)%Z /\
                Math_round (Fin r * Fin 3 - Fin 1)%num = Fin (IZR n).
Proof.
  intros Hr. cbn [mul sub add neg Math_round].
  exists (Int_part (r * 3 + - (1) + 1 / 2)). split; [| reflexivity].
  destruct (base_Int_part (r * 3 + - (1) + 1 / 2)) as [Hlow Hhigh].
  split.
  - assert (H : (-2 < Int_part (r * 3 + - (1) + 1 / 2))%Z).
    { apply lt_IZR. lra. }
    lia.
  - assert (H : (Int_part (r * 3 + - (1) + 1 / 2) < 3)%Z).
    { apply lt_IZR. lra. }
    lia.
Qed.

Lemma getMass_one (p : Particle.t) :
  Particle.getMass (Particle.setMass p (Fin 1)) = Fin 1.
Proof.
  unfold Particle.getMass, Particle.setMass, Particle.set_inverseMass.
  cbn [Particle.inverseMass].
  rewrite (div_Fin 1 1) by lra.
  unfold eqb. destruct (Req_dec_T (1 / 1) 0) as [H | _]; [lra |].
  rewrite (div_Fin 1 (1 / 1)) by lra. apply f_equal. field.
Qed.

Lemma well_ranged_rocket : well_ranged rocket_rule.
Proof.
  split.
  - exists 1, (28/10). repeat split; lra.
  - exists (-50), 250, (-50), 50, 280, 50. repeat split; lra.
Qed.

(** X30. [FireworkRule.create] with draws of [Math.random] in [[0, 1)] and
    a rule whose ranges are finite and not reversed overwrites the firework
    with one of the rule's type, and consumes four draws with a parent and
    five without.  In exact arithmetic (neither the rounding of the
    arithmetic nor that of the single-precision vectors is modelled, nor
    overflow) the age and the velocity offset lie within the rule's ranges,
    the velocity and position of the parent are inherited (or zero velocity
    and a start at x in {-5, 0, 5, 10} without a parent), the mass is one,
    the damping the rule's, the acceleration the source's [0, -9.81, 0] and
    the force accumulator empty. *)
Theorem create_follows_rule
  (rule : FireworkRule.t) (firework : Firework.t) (parent : option Firework.t)
  (u : random.draws) (k : nat) :
  uniform u ->
  well_ranged rule ->
  created_by rule parent (fst (FireworkRule.create rule firework parent u k)) /\
  snd (FireworkRule.create rule firework parent u k)
  = (k + match parent with Some _ => 4 | None => 5 end)%nat.
Proof.
  intros Hu [(lo & hi & Hlo & Hhi & Hle)
             (lx & ly & lz & hx & hy & hz & Hmin & Hmax & Hx & Hy & Hz)].
  unfold FireworkRule.create. rewrite Hlo, Hhi, Hmin, Hmax.
  destruct (Hu k) as (r0 & Hr0 & Hrange0).
  destruct (randomReal_range lo hi r0 u k Hr0 Hrange0 Hle) as (Ea & Ha & _).
  rewrite Ea. set (a := r0 * (hi - lo) + lo) in *.
  destruct parent as [par |].
  - destruct (randomVector_range lx ly lz hx hy hz u (S k) Hu Hx Hy Hz)
      as (x & y & z & Ev & Hvx & Hvy & Hvz).
    rewrite Ev. cbn [fst snd].
    split; [| lia].
    unfold created_by. cbn [Firework.type Firework.age Firework.particle].
    split; [reflexivity |].
    split; [exists a, lo, hi; auto |].
    split; [apply getMass_one |].
    split; [reflexivity |].
    split; [reflexivity |].
    split; [reflexivity |].
    split; [| reflexivity].
    exists (vec3.fin x y z). split; [| reflexivity].
    exists lx, ly, lz, hx, hy, hz, x, y, z. auto 10.
  - unfold random.Math_random.
    destruct (Hu (S k)) as (r & Hr & Hrange). rewrite Hr.
    destruct (round_of_draw r Hrange) as (n & Hn & En). rewrite En.
    destruct (randomVector_range lx ly lz hx hy hz u (S (S k)) Hu Hx Hy Hz)
      as (x & y & z & Ev & Hvx & Hvy & Hvz).
    rewrite Ev. cbn [fst snd].
    split; [| lia].
    unfold created_by. cbn [Firework.type Firework.age Firework.particle].
    split; [reflexivity |].
    split; [exists a, lo, hi; auto |].
    split; [apply getMass_one |].
    split; [reflexivity |].
    split; [reflexivity |].
    split; [reflexivity |].
    split.
    + exists (vec3.fin x y z). split; [| reflexivity].
      exists lx, ly, lz, hx, hy, hz, x, y, z. auto 10.
    + exists n. split; [exact Hn | reflexivity].
Qed.

Lemma create_follows_rule_witness :
  created_by rocket_rule None
    (fst (FireworkRule.create rocket_rule Firework.new None halves 0)) /\
  snd (FireworkRule.create rocket_rule Firework.new None halves 0) = 5%nat.
Proof.
  exact (create_follows_rule rocket_rule Firework.new None halves 0
           uniform_halves well_ranged_rocket).
Defined.
